(** * skills_fetcher: crawler, description enricher and categorizer

    A shallow embedding of [src/crawl.ts] (the crawler, followed in the same
    file by the description fetcher) and of the rule-based categorizer, with
    the properties of the specification stated over it.

    JavaScript strings are sequences of UTF-16 code units; they are modelled
    as [list N], one number per code unit.  JavaScript [Map]s keep their
    insertion order and are modelled as ordered association lists; plain
    objects used as dictionaries and JSON files are [gmap]s. *)

From Stdlib Require Import ZArith NArith Ascii String.
From stdpp Require Import gmap list sorting.

Local Open Scope Z_scope.

#[local] Set Warnings "-clear-no-such-hyp".

(** A JavaScript string: its UTF-16 code units. *)
Abbreviation jsstring := (list N).

(* ===================================================================== *)
(** * The JavaScript built-ins used by the program                       *)
(* ===================================================================== *)

Module JsString.

(** A string literal of the source, as code units. *)
Fixpoint js (s : string) : jsstring :=
  match s with
  | EmptyString => []
  | String a s' => N_of_ascii a :: js s'
  end.

Definition LF : N := 10.

(** ECMAScript [WhiteSpace] and [LineTerminator] code units, the set
    removed by [String.prototype.trim]. *)
Definition isLineTerminator (c : N) : bool :=
  ((c =? 10) || (c =? 13) || (c =? 8232) || (c =? 8233))%N.

Definition isWhiteSpace (c : N) : bool :=
  ((c =? 9) || (c =? 11) || (c =? 12) || (c =? 32) || (c =? 160)
   || (c =? 5760) || ((8192 <=? c) && (c <=? 8202)) || (c =? 8239)
   || (c =? 8287) || (c =? 12288) || (c =? 65279))%N.

Definition isTrimmed (c : N) : bool := isWhiteSpace c || isLineTerminator c.

Fixpoint trimStart (s : jsstring) : jsstring :=
  match s with
  | c :: s' => if isTrimmed c then trimStart s' else s
  | [] => []
  end.

Definition trimEnd (s : jsstring) : jsstring :=
  reverse (trimStart (reverse s)).

Definition trim (s : jsstring) : jsstring := trimEnd (trimStart s).

Fixpoint startsWith (p s : jsstring) : bool :=
  match p, s with
  | [], _ => true
  | a :: p', b :: s' => (a =? b)%N && startsWith p' s'
  | _ :: _, [] => false
  end.

(** [s.indexOf(p, from)] for [0 <= from]: the least index [>= from] at
    which [p] occurs, or [-1]. *)
Fixpoint indexOf_go (p s : jsstring) (i : Z) (skip : nat) : Z :=
  match skip, s with
  | S n, _ :: s' => indexOf_go p s' (i + 1) n
  | S n, [] => if startsWith p [] then i else -1
  | O, [] => if startsWith p [] then i else -1
  | O, _ :: s' => if startsWith p s then i else indexOf_go p s' (i + 1) O
  end.

Definition indexOf (p s : jsstring) (from : Z) : Z :=
  indexOf_go p s 0 (Z.to_nat from).

(** [s.slice(start, end)]: negative indices count from the end, and both
    are clamped to the string. *)
Definition clampIndex (len i : Z) : Z :=
  if i <? 0 then Z.max (len + i) 0 else Z.min i len.

Definition slice {A} (s : list A) (start end_ : Z) : list A :=
  let len := Z.of_nat (length s) in
  let from := clampIndex len start in
  let to := clampIndex len end_ in
  take (Z.to_nat (to - from)) (drop (Z.to_nat from) s).

Definition sliceFrom {A} (s : list A) (start : Z) : list A :=
  slice s start (Z.of_nat (length s)).

(** [s.split(sep)] for a separator of one code unit. *)
Fixpoint split (sep : N) (s : jsstring) : list jsstring :=
  match s with
  | [] => [[]]
  | c :: s' =>
      if (c =? sep)%N then [] :: split sep s'
      else match split sep s' with
           | l :: ls => (c :: l) :: ls
           | [] => [[c]]
           end
  end.

(** [lines.join(sep)]. *)
Fixpoint join (sep : jsstring) (l : list jsstring) : jsstring :=
  match l with
  | [] => []
  | [x] => x
  | x :: l' => x ++ sep ++ join sep l'
  end.

(** [s.length], as a JavaScript number. *)
Definition len (s : jsstring) : Z := Z.of_nat (length s).

End JsString.

(** ** Regular expressions

    The subset of ECMAScript patterns that the program uses: single code
    units (literal, class, negated class, dot) with the greedy quantifiers
    [?] and [+], the assertion [\b], concatenation, alternation and capturing
    groups.  The matcher is the backtracking matcher of the language
    definition, written with continuations: alternatives are tried from left
    to right and a greedy quantifier tries the longest repetition first. *)

Module RegExp.
Import JsString.

Inductive CharSet :=
| Lit (c : N)              (* a literal code unit *)
| OneOf (cs : list N)      (* [...] *)
| NoneOf (cs : list N)     (* [^...] *)
| Dot.                     (* . *)

Inductive Regex :=
| Eps
| Chr (cs : CharSet)
| Opt (cs : CharSet)       (* cs? *)
| Many1 (cs : CharSet)     (* cs+ *)
| WordB                    (* \b *)
| Cat (r1 r2 : Regex)
| Alt (r1 r2 : Regex)
| Cap (r : Regex).         (* ( r ) *)

(** A position in the subject: the code unit before it (if any), the
    remaining input, and the groups captured so far. *)
Record Pos := mkPos { prev : option N; rest : jsstring; caps : list jsstring }.

(** [Canonicalize] of the [i] flag without the [u] flag.  A code unit
    above 127 never canonicalizes to one below 128, so on the ASCII
    literals of the program's patterns it is upper-casing of [a-z]. *)
Definition canonicalize (c : N) : N :=
  if ((97 <=? c) && (c <=? 122))%N then (c - 32)%N else c.

Definition sameUnit (ignoreCase : bool) (a b : N) : bool :=
  if ignoreCase then (canonicalize a =? canonicalize b)%N else (a =? b)%N.

Definition accepts (ignoreCase : bool) (cs : CharSet) (c : N) : bool :=
  match cs with
  | Lit l => sameUnit ignoreCase l c
  | OneOf l => existsb (λ x, sameUnit ignoreCase x c) l
  | NoneOf l => negb (existsb (λ x, sameUnit ignoreCase x c) l)
  | Dot => negb (isLineTerminator c)
  end.

(** [IsWordChar]: [A-Za-z0-9_]. *)
Definition isWordChar (c : N) : bool :=
  (((65 <=? c) && (c <=? 90)) || ((97 <=? c) && (c <=? 122))
   || ((48 <=? c) && (c <=? 57)) || (c =? 95))%N.

Definition wordBefore (p : Pos) : bool :=
  match prev p with Some c => isWordChar c | None => false end.

Definition wordAfter (p : Pos) : bool :=
  match rest p with c :: _ => isWordChar c | [] => false end.

Section Matcher.
Context {A : Type}.
Variable ignoreCase : bool.

(** [cs+] from input [s]: at least one unit, as many as possible. *)
Fixpoint many1 (cs : CharSet) (groups : list jsstring)
    (k : Pos → option A) (s : jsstring) : option A :=
  match s with
  | c :: s' =>
      if accepts ignoreCase cs c then
        match many1 cs groups k s' with
        | Some x => Some x
        | None => k (mkPos (Some c) s' groups)
        end
      else None
  | [] => None
  end.

Fixpoint matchRegex (r : Regex) (p : Pos) (k : Pos → option A) : option A :=
  match r with
  | Eps => k p
  | Chr cs =>
      match rest p with
      | c :: s' =>
          if accepts ignoreCase cs c then k (mkPos (Some c) s' (caps p))
          else None
      | [] => None
      end
  | Opt cs =>
      match rest p with
      | c :: s' =>
          if accepts ignoreCase cs c then
            match k (mkPos (Some c) s' (caps p)) with
            | Some x => Some x
            | None => k p
            end
          else k p
      | [] => k p
      end
  | Many1 cs => many1 cs (caps p) k (rest p)
  | WordB => if xorb (wordBefore p) (wordAfter p) then k p else None
  | Cat r1 r2 => matchRegex r1 p (λ q, matchRegex r2 q k)
  | Alt r1 r2 =>
      match matchRegex r1 p k with
      | Some x => Some x
      | None => matchRegex r2 p k
      end
  | Cap r' =>
      matchRegex r' p (λ q,
        let n := (length (rest p) - length (rest q))%nat in
        k (mkPos (prev q) (rest q) (caps q ++ [take n (rest p)])))
  end.
End Matcher.

(** The matches of a pattern, as a relation between the position where a
    match starts and the position where it ends: what the matcher searches
    for, without the order in which it searches. *)
Inductive Matches (ignoreCase : bool) : Regex → Pos → Pos → Prop :=
| Matches_Eps p :
    Matches ignoreCase Eps p p
| Matches_Chr cs p c s :
    rest p = c :: s → accepts ignoreCase cs c = true →
    Matches ignoreCase (Chr cs) p (mkPos (Some c) s (caps p))
| Matches_Opt_one cs p c s :
    rest p = c :: s → accepts ignoreCase cs c = true →
    Matches ignoreCase (Opt cs) p (mkPos (Some c) s (caps p))
| Matches_Opt_none cs p :
    Matches ignoreCase (Opt cs) p p
| Matches_Many1_one cs p c s :
    rest p = c :: s → accepts ignoreCase cs c = true →
    Matches ignoreCase (Many1 cs) p (mkPos (Some c) s (caps p))
| Matches_Many1_more cs p c s q :
    rest p = c :: s → accepts ignoreCase cs c = true →
    Matches ignoreCase (Many1 cs) (mkPos (Some c) s (caps p)) q →
    Matches ignoreCase (Many1 cs) p q
| Matches_WordB p :
    xorb (wordBefore p) (wordAfter p) = true →
    Matches ignoreCase WordB p p
| Matches_Cat r1 r2 p q t :
    Matches ignoreCase r1 p q → Matches ignoreCase r2 q t →
    Matches ignoreCase (Cat r1 r2) p t
| Matches_Alt_l r1 r2 p q :
    Matches ignoreCase r1 p q → Matches ignoreCase (Alt r1 r2) p q
| Matches_Alt_r r1 r2 p q :
    Matches ignoreCase r2 p q → Matches ignoreCase (Alt r1 r2) p q
| Matches_Cap r p q :
    Matches ignoreCase r p q →
    Matches ignoreCase (Cap r) p
      (mkPos (prev q) (rest q)
         (caps q ++ [take (length (rest p) - length (rest q)) (rest p)])).

(** The code unit before the end of [pre], or [prev] when [pre] is empty. *)
Definition unitBefore (prev : option N) (pre : jsstring) : option N :=
  match last pre with Some c => Some c | None => prev end.

(** A match attempt anchored at a position: the end of the match. *)
Definition matchAt (ignoreCase : bool) (r : Regex) (prev : option N)
    (s : jsstring) : option Pos :=
  matchRegex ignoreCase r (mkPos prev s []) Some.

(** [r.test(s)] for a pattern without the [g] flag: a match attempt at
    every index, from left to right. *)
Fixpoint search (ignoreCase : bool) (r : Regex) (prev : option N)
    (s : jsstring) : bool :=
  match matchAt ignoreCase r prev s with
  | Some _ => true
  | None =>
      match s with
      | c :: s' => search ignoreCase r (Some c) s'
      | [] => false
      end
  end.

Definition test (ignoreCase : bool) (r : Regex) (s : jsstring) : bool :=
  search ignoreCase r None s.

(** [s.replace(r, f)] for a pattern with the [g] flag: the leftmost match
    is replaced by [f] of its captured groups and the scan resumes at its
    end (one unit further after an empty match).  [skip] counts the units
    of the current match that are still to be passed over. *)
Fixpoint replaceAll_go (ignoreCase : bool) (r : Regex)
    (f : list jsstring → jsstring) (prev : option N) (skip : nat)
    (s : jsstring) : jsstring :=
  match skip, s with
  | S n, c :: s' => replaceAll_go ignoreCase r f (Some c) n s'
  | S n, [] => []
  | O, [] =>
      match matchAt ignoreCase r prev [] with
      | Some q => f (caps q)
      | None => []
      end
  | O, c :: s' =>
      match matchAt ignoreCase r prev s with
      | Some q =>
          match (length s - length (rest q))%nat with
          | O => f (caps q) ++ c :: replaceAll_go ignoreCase r f (Some c) O s'
          | S n => f (caps q) ++ replaceAll_go ignoreCase r f (Some c) n s'
          end
      | None => c :: replaceAll_go ignoreCase r f (Some c) O s'
      end
  end.

Definition replaceAll (ignoreCase : bool) (r : Regex)
    (f : list jsstring → jsstring) (s : jsstring) : jsstring :=
  replaceAll_go ignoreCase r f None O s.

(** The replacement string ["$1"]. *)
Definition group1 (groups : list jsstring) : jsstring :=
  default [] (groups !! 0%nat).

(** ** Reading the keyword alternations of the source

    The categorizer's patterns are long alternations of keywords, where a
    keyword is a run of literal units in which [.?] may occur.  They are
    kept as text and read into [Regex]. *)

Fixpoint keyword (s : string) : Regex :=
  match s with
  | EmptyString => Eps
  | String "." (String "?" s') => Cat (Opt Dot) (keyword s')
  | String a s' => Cat (Chr (Lit (N_of_ascii a))) (keyword s')
  end.

(** Splitting at the [|] signs. *)
Fixpoint alternatives (s : string) : list string :=
  match s with
  | EmptyString => [EmptyString]
  | String "|" s' => EmptyString :: alternatives s'
  | String a s' =>
      match alternatives s' with
      | w :: ws => String a w :: ws
      | [] => [String a EmptyString]
      end
  end.

Fixpoint alternation (rs : list Regex) : Regex :=
  match rs with
  | [] => Eps
  | [r] => r
  | r :: rs' => Alt r (alternation rs')
  end.

(** [/\b(w1|w2|...)\b/]. *)
Definition wordPattern (words : string) : Regex :=
  Cat WordB (Cat (Cap (alternation (keyword <$> alternatives words))) WordB).

(** What a keyword pattern says, read directly: a text is an instance of
    a keyword when it spells it unit by unit up to the case of ASCII
    letters, each [.?] of the keyword standing for at most one unit that is
    not a line terminator. *)
Definition isWildcard (a : ascii) (w : string) : bool :=
  match a, w with
  | "."%char, String "?" _ => true
  | _, _ => false
  end.

Inductive instanceOf : string → jsstring → Prop :=
| instance_end :
    instanceOf EmptyString []
| instance_wildcard_one w c s :
    isLineTerminator c = false → instanceOf w s →
    instanceOf (String "." (String "?" w)) (c :: s)
| instance_wildcard_none w s :
    instanceOf w s →
    instanceOf (String "." (String "?" w)) s
| instance_unit a w c s :
    isWildcard a w = false →
    sameUnit true (N_of_ascii a) c = true → instanceOf w s →
    instanceOf (String a w) (c :: s).

(** A word boundary between two neighbouring units (or an end of the
    text): exactly one of them is a word character. *)
Definition isBoundary (before after : option N) : bool :=
  xorb (from_option isWordChar false before) (from_option isWordChar false after).

(** A text contains one of the keywords of an alternation as a word: an
    instance of the keyword with a word boundary on each side. *)
Definition containsKeyword (words : string) (text : jsstring) : Prop :=
  ∃ pre word suf w,
    text = pre ++ word ++ suf
    ∧ w ∈ alternatives words
    ∧ instanceOf w word
    ∧ isBoundary (last pre) (head (word ++ suf)) = true
    ∧ isBoundary (last (pre ++ word)) (head suf) = true.

End RegExp.

(** ** [encodeURIComponent]

    Unreserved units are kept; every other code point is written as the
    percent-escapes of its UTF-8 bytes.  An unpaired surrogate raises
    [URIError], which is [None] here. *)

Module Uri.
Import JsString.

Definition isUnreserved (c : N) : bool :=
  (((65 <=? c) && (c <=? 90)) || ((97 <=? c) && (c <=? 122))
   || ((48 <=? c) && (c <=? 57))
   || existsb (N.eqb c) (js "-_.!~*'()"))%N.

Definition isLeadSurrogate (c : N) : bool := ((55296 <=? c) && (c <=? 56319))%N.
Definition isTrailSurrogate (c : N) : bool := ((56320 <=? c) && (c <=? 57343))%N.

Definition hexDigit (d : N) : N :=
  (if d <? 10 then 48 + d else 55 + d)%N.

Definition percent (byte : N) : jsstring :=
  [37%N; hexDigit (byte / 16); hexDigit (byte mod 16)].

Definition utf8 (cp : N) : list N :=
  (if cp <? 128 then [cp]
   else if cp <? 2048 then
     [N.lor 192 (N.shiftr cp 6); N.lor 128 (N.land cp 63)]
   else if cp <? 65536 then
     [N.lor 224 (N.shiftr cp 12); N.lor 128 (N.land (N.shiftr cp 6) 63);
      N.lor 128 (N.land cp 63)]
   else
     [N.lor 240 (N.shiftr cp 18); N.lor 128 (N.land (N.shiftr cp 12) 63);
      N.lor 128 (N.land (N.shiftr cp 6) 63); N.lor 128 (N.land cp 63)])%N.

Definition escape (cp : N) : jsstring := concat (percent <$> utf8 cp).

Fixpoint encodeURIComponent (s : jsstring) : option jsstring :=
  match s with
  | [] => Some []
  | c :: s' =>
      if isUnreserved c then cons c <$> encodeURIComponent s'
      else if isLeadSurrogate c then
        match s' with
        | d :: s'' =>
            if isTrailSurrogate d then
              app (escape ((c - 55296) * 1024 + (d - 56320) + 65536)%N)
                <$> encodeURIComponent s''
            else None
        | [] => None
        end
      else if isTrailSurrogate c then None
      else app (escape c) <$> encodeURIComponent s'
  end.

End Uri.

(** ** [Map]: insertion-ordered, keyed by strings *)

Module JsMap.

Definition t (V : Type) : Type := list (jsstring * V).

Definition empty {V} : t V := [].

Fixpoint get {V} (k : jsstring) (m : t V) : option V :=
  match m with
  | [] => None
  | (k', v) :: m' => if decide (k' = k) then Some v else get k m'
  end.

Definition has {V} (k : jsstring) (m : t V) : bool :=
  match get k m with Some _ => true | None => false end.

(** [m.set(k, v)]: a present key keeps its place, a new one goes last. *)
Fixpoint set {V} (k : jsstring) (v : V) (m : t V) : t V :=
  match m with
  | [] => [(k, v)]
  | (k', v') :: m' =>
      if decide (k' = k) then (k, v) :: m' else (k', v') :: set k v m'
  end.

Definition keys {V} (m : t V) : list jsstring := m.*1.

Definition entries {V} (m : t V) : list (jsstring * V) := m.

(** [new Map(entries)]. *)
Definition fromEntries {V} (l : list (jsstring * V)) : t V :=
  foldl (λ m kv, set kv.1 kv.2 m) empty l.

End JsMap.

(** ** [Array.prototype.sort], [Object.fromEntries], [Math.max] *)

Module JsArray.

(** [a.sort(cmp)] is a stable sort: an element moves in front of another
    only when the comparator says it is smaller.  Any stable sort gives
    the same array; this one inserts from the right. *)
Fixpoint insertSorted {A} (cmp : A → A → Z) (x : A) (l : list A) : list A :=
  match l with
  | [] => [x]
  | y :: l' => if cmp x y <=? 0 then x :: l else y :: insertSorted cmp x l'
  end.

Definition sort {A} (cmp : A → A → Z) (l : list A) : list A :=
  foldr (insertSorted cmp) [] l.

End JsArray.

Module JsObject.

(** [Object.fromEntries(l)]: later entries overwrite earlier ones. *)
Definition fromEntries {V} (l : list (jsstring * V)) : gmap jsstring V :=
  foldl (λ o kv, <[kv.1 := kv.2]> o) ∅ l.

(** [Object.entries(o)]. *)
Definition entries {V} (o : gmap jsstring V) : list (jsstring * V) :=
  map_to_list o.

(** [obj[key] = value] on a plain object, for a [value] that is a string:
    the own properties afterwards.  The key ["__proto__"] is the accessor
    inherited from [Object.prototype]; its setter ignores a value that is
    neither an object nor null, so the assignment adds no property. *)
Definition assign {V} (key : jsstring) (value : V) (obj : gmap jsstring V)
    : gmap jsstring V :=
  if decide (key = JsString.js "__proto__") then obj else <[key := value]> obj.

End JsObject.

(* ===================================================================== *)
(** * The crawler ([src/crawl.ts], first part)                           *)
(* ===================================================================== *)

Module Crawl.
Import JsString.

Inductive Board := AllTime | Trending | Hot.

Definition BOARDS : list Board := [AllTime; Trending; Hot].
Definition REQUEST_TIMEOUT : Z := 30000.
Definition MAX_RETRIES : Z := 4.

Module ApiSkill.
Record t := mk {
  source : jsstring;
  skillId : jsstring;
  name : jsstring;
  installs : Z
}.
End ApiSkill.

Module SkillIndexItem.
Record t := mk {
  id : jsstring;
  providerId : jsstring;
  source : jsstring;
  skillId : jsstring;
  title : jsstring;
  link : jsstring;
  installsAllTime : Z;
  installsTrending : Z;
  installsHot : Z;
  firstSeenAt : option jsstring;
  description : option jsstring;
  skillMdPath : option jsstring
}.
End SkillIndexItem.

#[global] Instance ApiSkill_eq_dec : EqDecision ApiSkill.t.
Proof. solve_decision. Defined.

#[global] Instance SkillIndexItem_eq_dec : EqDecision SkillIndexItem.t.
Proof. solve_decision. Defined.

Module SkillsIndex.
Record t := mk {
  updatedAt : jsstring;
  sourceUpdatedAt : jsstring;
  providerId : jsstring;
  count : Z;
  items : list SkillIndexItem.t
}.
End SkillsIndex.

(** ** fetchWithRetry

    The network is the sequence of outcomes of the successive calls of
    [fetch]: a response with its status, or a rejection (network error or
    timeout).  The function's observable behaviour is its result and the
    trace of fetches and sleeps it performs. *)

Inductive FetchOutcome :=
| Responded (status : Z)
| Rejected (message : jsstring).

Inductive Error :=
| HttpError (status : Z)          (* Error(`HTTP ${status} for ${url}`) *)
| FetchError (message : jsstring) (* the rejection of [fetch] *)
| Unreachable.                    (* Error("unreachable") *)

Inductive Event :=
| Fetch (attempt : Z)
| Sleep (ms : Z).

Inductive Result :=
| Returned (status : Z)
| Thrown (err : Error).

(** [resp.ok]. *)
Definition ok (status : Z) : bool := (200 <=? status) && (status <=? 299).

Definition after (evs : list Event) (r : Result * list Event)
    : Result * list Event :=
  (r.1, evs ++ r.2).

(** The [for] loop, with [remaining] iterations left at [attempt]. *)
Fixpoint fetchWithRetry_loop (net : nat → FetchOutcome) (remaining : nat)
    (attempt : Z) : Result * list Event :=
  match remaining with
  | O => (Thrown Unreachable, [])
  | S n =>
      let next := fetchWithRetry_loop net n (attempt + 1) in
      (* the [catch] clause *)
      let catch (err : Error) :=
        if attempt =? MAX_RETRIES - 1 then (Thrown err, [])
        else after [Sleep (200 * 2 ^ attempt)] next in
      after [Fetch attempt]
        match net (Z.to_nat attempt) with
        | Responded status =>
            if ok status then (Returned status, [])
            else if (status =? 429) || (500 <=? status) then
              after [Sleep (200 * 2 ^ attempt)] next
            else catch (HttpError status)   (* [throw] inside the [try] *)
        | Rejected message => catch (FetchError message)
        end
  end.

Definition fetchWithRetry (net : nat → FetchOutcome) : Result * list Event :=
  fetchWithRetry_loop net (Z.to_nat MAX_RETRIES) 0.

(** ** fetchBoard

    What [fetchBoard] meets for one board: for each page, the outcomes of
    the successive fetches of the page's URL, and what [resp.json()] yields
    for the response that [fetchWithRetry] returns ([None] when the body is
    not JSON).  The loop has no bound of its own: it ends when a page says
    [hasMore = false] or a call throws.  [fuel] bounds the pages that the
    model follows; running out of it is [Unfinished]. *)

Module ApiResponse.
Record t := mk {
  skills : list ApiSkill.t;
  total : Z;
  hasMore : bool;
  page : Z
}.
End ApiResponse.

Inductive BoardEvent :=
| Page (page : Z) (evs : list Event)   (* fetchWithRetry of one page *)
| Delay (ms : Z).                      (* sleep(DELAY_MS) *)

Inductive BoardResult :=
| Rows (all : list ApiSkill.t)
| Failed (err : Error)                 (* fetchWithRetry threw *)
| Malformed                            (* resp.json() threw *)
| Unfinished.

Fixpoint fetchBoard_loop (DELAY_MS : Z) (net : Z → nat → FetchOutcome)
    (body : Z → option ApiResponse.t) (fuel : nat) (page : Z)
    (all : list ApiSkill.t) : BoardResult * list BoardEvent :=
  match fuel with
  | O => (Unfinished, [])
  | S n =>
      let resp := fetchWithRetry (net page) in
      match resp.1 with
      | Thrown err => (Failed err, [Page page resp.2])
      | Returned _ =>
          match body page with
          | None => (Malformed, [Page page resp.2])
          | Some data =>
              let all := all ++ ApiResponse.skills data in
              if negb (ApiResponse.hasMore data) then (Rows all, [Page page resp.2])
              else
                let rest := fetchBoard_loop DELAY_MS net body n (page + 1) all in
                (rest.1, Page page resp.2 :: Delay DELAY_MS :: rest.2)
          end
      end
  end.

Definition fetchBoard (DELAY_MS : Z) (net : Z → nat → FetchOutcome)
    (body : Z → option ApiResponse.t) (fuel : nat)
    : BoardResult * list BoardEvent :=
  fetchBoard_loop DELAY_MS net body fuel 0 [].

(** ** main *)

(** [`${s.source}/${s.skillId}`] *)
Definition skillKey (s : ApiSkill.t) : jsstring :=
  ApiSkill.source s ++ js "/" ++ ApiSkill.skillId s.

(** One of the three loops that build the install count maps. *)
Definition installsOf (rows : list ApiSkill.t) : gmap jsstring Z :=
  foldl (λ m s,
           let id := skillKey s in
           <[id := Z.max (default 0 (m !! id)) (ApiSkill.installs s)]> m)
        ∅ rows.

(** Collect all unique skills. *)
Definition addSkill (m : JsMap.t ApiSkill.t) (s : ApiSkill.t)
    : JsMap.t ApiSkill.t :=
  let id := skillKey s in
  if negb (JsMap.has id m) then JsMap.set id s m else m.

Definition collectSkills (boardData : Board → list ApiSkill.t)
    : JsMap.t ApiSkill.t :=
  foldl (λ m board, foldl addSkill m (boardData board)) JsMap.empty BOARDS.

(** First-seen timestamps.  The file is a JSON object; a missing or
    unparseable file is [None]. *)
Definition loadFirstSeen (file : option (gmap jsstring jsstring))
    : JsMap.t jsstring :=
  match file with
  | Some obj => JsMap.fromEntries (JsObject.entries obj)
  | None => JsMap.empty
  end.

Definition saveFirstSeen (localeCompare : jsstring → jsstring → Z)
    (map : JsMap.t jsstring) : gmap jsstring jsstring :=
  JsObject.fromEntries
    (JsArray.sort (λ a b, localeCompare a.1 b.1) (JsMap.entries map)).

Definition updateFirstSeen (now : jsstring) (ids : list jsstring)
    (firstSeen : JsMap.t jsstring) : JsMap.t jsstring :=
  foldl (λ fs id, if negb (JsMap.has id fs) then JsMap.set id now fs else fs)
        firstSeen ids.

(** One index item; [None] when [encodeURIComponent] throws. *)
Definition buildItem (installsAllTime installsTrending installsHot : gmap jsstring Z)
    (firstSeen : JsMap.t jsstring) (entry : jsstring * ApiSkill.t)
    : option SkillIndexItem.t :=
  let '(id, skill) := entry in
  src ← Uri.encodeURIComponent (ApiSkill.source skill);
  sid ← Uri.encodeURIComponent (ApiSkill.skillId skill);
  Some {|
    SkillIndexItem.id := id;
    SkillIndexItem.providerId := js "skills.sh";
    SkillIndexItem.source := ApiSkill.source skill;
    SkillIndexItem.skillId := ApiSkill.skillId skill;
    SkillIndexItem.title := ApiSkill.name skill;
    SkillIndexItem.link := js "https://skills.sh/skills/" ++ src ++ js "/" ++ sid;
    SkillIndexItem.installsAllTime := default 0 (installsAllTime !! id);
    SkillIndexItem.installsTrending := default 0 (installsTrending !! id);
    SkillIndexItem.installsHot := default 0 (installsHot !! id);
    SkillIndexItem.firstSeenAt := JsMap.get id firstSeen;
    SkillIndexItem.description := None;
    SkillIndexItem.skillMdPath := None
  |}.

(** [(a, b) => b.installsAllTime - a.installsAllTime] *)
Definition byInstallsDesc (a b : SkillIndexItem.t) : Z :=
  SkillIndexItem.installsAllTime b - SkillIndexItem.installsAllTime a.

(** What a run leaves on disk: the first-seen file, always written, and
    the index, written unless building an item threw. *)
Record Written := mkWritten {
  firstSeenFile : gmap jsstring jsstring;
  indexFile : option SkillsIndex.t
}.

Definition main (localeCompare : jsstring → jsstring → Z)
    (boardData : Board → list ApiSkill.t)
    (firstSeenOnDisk : option (gmap jsstring jsstring))
    (now : jsstring) : Written :=
  let installsAllTime := installsOf (boardData AllTime) in
  let installsTrending := installsOf (boardData Trending) in
  let installsHot := installsOf (boardData Hot) in
  let skillMap := collectSkills boardData in
  let firstSeen :=
    updateFirstSeen now (JsMap.keys skillMap) (loadFirstSeen firstSeenOnDisk) in
  let saved := saveFirstSeen localeCompare firstSeen in
  let built :=
    mapM (buildItem installsAllTime installsTrending installsHot firstSeen)
         (JsMap.entries skillMap) in
  mkWritten saved
    (items ← built;
     let sorted := JsArray.sort byInstallsDesc items in
     Some {|
       SkillsIndex.updatedAt := now;
       SkillsIndex.sourceUpdatedAt := now;
       SkillsIndex.providerId := js "skills.sh";
       SkillsIndex.count := Z.of_nat (length sorted);
       SkillsIndex.items := sorted
     |}).

(** ** The whole run

    [main] from its first line: the boards are fetched one after the other,
    and a board that fails rejects [main] before anything is written.  The
    files are written into the data directory; [saveFirstSeen] comes before
    [mkdirSync], so without the directory its [writeFileSync] throws. *)

Record Api := mkApi {
  network : Board → Z → nat → FetchOutcome;
  bodies : Board → Z → option ApiResponse.t
}.

Record Disk := mkDisk {
  dataDir : bool;                                      (* the directory exists *)
  firstSeenJson : option (gmap jsstring jsstring);     (* skills_first_seen.json *)
  indexJson : option SkillsIndex.t                     (* skills_index.json *)
}.

#[global] Instance Board_eq_dec : EqDecision Board.
Proof. solve_decision. Defined.

Definition setBoard (boardData : Board → list ApiSkill.t) (board : Board)
    (rows : list ApiSkill.t) : Board → list ApiSkill.t :=
  λ b, if decide (b = board) then rows else boardData b.

(** The loop over [BOARDS]: the data of the boards, unless one fails. *)
Fixpoint fetchBoards (DELAY_MS : Z) (api : Api) (fuel : nat)
    (boards : list Board) (boardData : Board → list ApiSkill.t)
    : option (Board → list ApiSkill.t) * list (Board * list BoardEvent) :=
  match boards with
  | [] => (Some boardData, [])
  | board :: boards' =>
      let fetched := fetchBoard DELAY_MS (network api board) (bodies api board) fuel in
      match fetched.1 with
      | Rows all =>
          let rest := fetchBoards DELAY_MS api fuel boards' (setBoard boardData board all) in
          (rest.1, (board, fetched.2) :: rest.2)
      | _ => (None, [(board, fetched.2)])
      end
  end.

Definition run (localeCompare : jsstring → jsstring → Z) (DELAY_MS : Z)
    (api : Api) (fuel : nat) (now : jsstring) (disk : Disk)
    : Disk * list (Board * list BoardEvent) :=
  let fetched := fetchBoards DELAY_MS api fuel BOARDS (λ _, []) in
  match fetched.1 with
  | None => (disk, fetched.2)
  | Some boardData =>
      if negb (dataDir disk) then (disk, fetched.2)
      else
        let written := main localeCompare boardData (firstSeenJson disk) now in
        (mkDisk true (Some (firstSeenFile written))
           (match indexFile written with
            | Some index => Some index
            | None => indexJson disk
            end),
         fetched.2)
  end.

End Crawl.

(* ===================================================================== *)
(** * The description fetcher ([src/crawl.ts], second part)              *)
(* ===================================================================== *)

Module FetchDescriptions.
Import JsString RegExp.

Module SkillIndexItem := Crawl.SkillIndexItem.
Module SkillsIndex := Crawl.SkillsIndex.

(** Truthiness of a [string | null]: neither [null] nor empty. *)
Definition truthy (s : option jsstring) : bool :=
  match s with
  | Some (_ :: _) => true
  | _ => false
  end.

Definition candidatePaths (_source skillId : jsstring) : list jsstring :=
  [ js "skills/" ++ skillId ++ js "/SKILL.md";
    js "skills/" ++ skillId ++ js "/skill.md";
    js ".claude/skills/" ++ skillId ++ js "/SKILL.md";
    js ".claude/skills/" ++ skillId ++ js "/skill.md";
    js ".cursor/skills/" ++ skillId ++ js "/SKILL.md";
    js "SKILL.md";
    js "skill.md" ].

(** ** extractDescription *)

(** [/\[([^\]]+)\]\([^)]+\)/g] *)
Definition linkPattern : Regex :=
  Cat (Chr (Lit 91))
    (Cat (Cap (Many1 (NoneOf [93%N])))
       (Cat (Chr (Lit 93))
          (Cat (Chr (Lit 40))
             (Cat (Many1 (NoneOf [41%N])) (Chr (Lit 41)))))).

(** [/[*_`]/g] *)
Definition emphasisPattern : Regex := Chr (OneOf [42; 95; 96]%N).

(** Strip YAML frontmatter. *)
Definition stripFrontmatter (md : jsstring) : jsstring :=
  if startsWith (js "---") md then
    let end_ := indexOf (js "---") md 3 in
    if negb (end_ =? -1) then trim (sliceFrom md (end_ + 3)) else md
  else md.

(** Skip the first heading: the first loop over [lines], at index [i]. *)
Fixpoint findStart (lines : list jsstring) (i : Z) : Z :=
  match lines with
  | [] => 0
  | l :: ls =>
      if startsWith (js "#") (trim l) then i + 1
      else if (0 <? len (trim l)) && negb (startsWith (js "#") (trim l)) then i
      else findStart ls (i + 1)
  end.

(** Collect the first paragraph: the second loop, over the lines from
    [startIdx] on. *)
Fixpoint collectParagraph (lines : list jsstring)
    (paragraphLines : list jsstring) : list jsstring :=
  match lines with
  | [] => paragraphLines
  | l :: ls =>
      let line := trim l in
      if len line =? 0 then
        if 0 <? Z.of_nat (length paragraphLines) then paragraphLines
        else collectParagraph ls paragraphLines
      else if startsWith (js "#") line || startsWith (js "```") line
              || startsWith (js "- [") line
      then collectParagraph ls paragraphLines
      else collectParagraph ls (paragraphLines ++ [line])
  end.

(** Clean up markdown formatting. *)
Definition cleanMarkdown (desc : jsstring) : jsstring :=
  let desc := replaceAll false linkPattern group1 desc in
  let desc := replaceAll false emphasisPattern (λ _, []) desc in
  trim desc.

(** Truncate to 200 units. *)
Definition truncate (desc : jsstring) : jsstring :=
  if 200 <? len desc then slice desc 0 197 ++ js "..." else desc.

(** The lines of the first paragraph, before they are joined. *)
Definition firstParagraph (md : jsstring) : list jsstring :=
  let body := stripFrontmatter md in
  let lines := split LF body in
  let startIdx := findStart lines 0 in
  collectParagraph (drop (Z.to_nat startIdx) lines) [].

Definition extractDescription (md : jsstring) : option jsstring :=
  let paragraphLines := firstParagraph md in
  if Z.of_nat (length paragraphLines) =? 0 then None
  else
    let desc := truncate (cleanMarkdown (join (js " ") paragraphLines)) in
    if 10 <? len desc then Some desc else None.

(** ** fetchSkillDescription

    The outside world of one call: the cache directory, the cache file at
    a path when it exists, and the text served by the raw-content host for
    a source and a path ([None] for any other status or an error). *)

Record World := mkWorld {
  MD_DIR : jsstring;
  cacheFile : jsstring → option jsstring;
  fetchGitHubRaw : jsstring → jsstring → option jsstring
}.

Record Fetched := mkFetched {
  description : option jsstring;
  mdPath : option jsstring
}.

Definition mdPathOf (item : SkillIndexItem.t) : jsstring :=
  js "data/skills-md/" ++ SkillIndexItem.source item ++ js "/"
    ++ SkillIndexItem.skillId item ++ js "/SKILL.md".

(** Try candidate paths: the first one with content decides. *)
Fixpoint tryPaths (w : World) (item : SkillIndexItem.t)
    (paths : list jsstring) : Fetched :=
  match paths with
  | [] => mkFetched None None
  | path :: paths' =>
      let content := fetchGitHubRaw w (SkillIndexItem.source item) path in
      if truthy content then
        mkFetched (extractDescription (default [] content))
                  (Some (mdPathOf item))
      else tryPaths w item paths'
  end.

Definition fetchSkillDescription (w : World) (item : SkillIndexItem.t)
    : Fetched :=
  let cacheDir :=
    MD_DIR w ++ js "/" ++ SkillIndexItem.source item ++ js "/"
      ++ SkillIndexItem.skillId item in
  let cachePath := cacheDir ++ js "/SKILL.md" in
  let fromGitHub :=
    tryPaths w item
      (candidatePaths (SkillIndexItem.source item) (SkillIndexItem.skillId item)) in
  match cacheFile w cachePath with
  | Some content =>
      let desc := extractDescription content in
      if truthy desc then mkFetched desc (Some (mdPathOf item))
      else fromGitHub
  | None => fromGitHub
  end.

(** The cache file of an item, and the cache once [fetchSkillDescription]
    has returned: the content of the first candidate that had any is
    written to the item's cache file, unless the cache already gave a
    description. *)
Definition cachePathOf (w : World) (item : SkillIndexItem.t) : jsstring :=
  (MD_DIR w ++ js "/" ++ SkillIndexItem.source item ++ js "/"
     ++ SkillIndexItem.skillId item) ++ js "/SKILL.md".

Fixpoint firstContent (w : World) (item : SkillIndexItem.t)
    (paths : list jsstring) : option jsstring :=
  match paths with
  | [] => None
  | path :: paths' =>
      let content := fetchGitHubRaw w (SkillIndexItem.source item) path in
      if truthy content then content else firstContent w item paths'
  end.

Definition cacheWritten (w : World) (item : SkillIndexItem.t) : option jsstring :=
  let fromGitHub :=
    firstContent w item
      (candidatePaths (SkillIndexItem.source item) (SkillIndexItem.skillId item)) in
  match cacheFile w (cachePathOf w item) with
  | Some content =>
      if truthy (extractDescription content) then None else fromGitHub
  | None => fromGitHub
  end.

Definition worldAfter (w : World) (item : SkillIndexItem.t) : World :=
  {| MD_DIR := MD_DIR w;
     cacheFile := λ path,
       if decide (path = cachePathOf w item) then
         match cacheWritten w item with
         | Some content => Some content
         | None => cacheFile w path
         end
       else cacheFile w path;
     fetchGitHubRaw := fetchGitHubRaw w |}.

(** ** processPool

    The result array: every slot is filled as soon as one worker runs;
    with no worker the slots stay empty ([None]). *)
Definition processPool {T R} (items : list T) (concurrency : Z)
    (fn : T → R) : list (option R) :=
  if 0 <? Z.min concurrency (Z.of_nat (length items))
  then Some <$> (fn <$> items)
  else replicate (length items) None.

(** The pool as it runs.  [Math.min(concurrency, items.length)] workers
    share the cursor [nextIdx]; a worker is between two iterations, awaits
    [fn(items[idx])], or has left its loop.  A step is what one worker does
    without being interrupted: taking the next index, leaving the loop, or
    storing the result it awaited. *)
Inductive Worker :=
| Ready
| Running (idx : nat)
| Stopped.

Record Pool (R : Type) := mkPool {
  nextIdx : nat;
  workers : list Worker;
  slots : list (option R)
}.
Arguments mkPool {R}.
Arguments nextIdx {R}.
Arguments workers {R}.
Arguments slots {R}.

Definition poolStart {T R} (items : list T) (concurrency : Z) : Pool R :=
  mkPool 0
    (replicate (Z.to_nat (Z.min concurrency (Z.of_nat (length items)))) Ready)
    (replicate (length items) None).

Inductive poolStep {T R} (items : list T) (fn : T → R) : Pool R → Pool R → Prop :=
| pool_take st w :
    workers st !! w = Some Ready → (nextIdx st < length items)%nat →
    poolStep items fn st
      (mkPool (S (nextIdx st)) (<[w := Running (nextIdx st)]> (workers st)) (slots st))
| pool_stop st w :
    workers st !! w = Some Ready → (length items ≤ nextIdx st)%nat →
    poolStep items fn st
      (mkPool (nextIdx st) (<[w := Stopped]> (workers st)) (slots st))
| pool_done st w idx x :
    workers st !! w = Some (Running idx) → items !! idx = Some x →
    poolStep items fn st
      (mkPool (nextIdx st) (<[w := Ready]> (workers st))
         (<[idx := Some (fn x)]> (slots st))).

(** The states a run of the pool goes through. *)
Inductive poolReaches {T R} (items : list T) (concurrency : Z) (fn : T → R)
    : Pool R → Prop :=
| reaches_start : poolReaches items concurrency fn (poolStart items concurrency)
| reaches_step st st' :
    poolReaches items concurrency fn st → poolStep items fn st st' →
    poolReaches items concurrency fn st'.

Definition isRunning (w : Worker) : bool :=
  match w with Running _ => true | _ => false end.

(** The calls of [fn] that have started and not yet returned. *)
Definition inFlight {R} (st : Pool R) : nat :=
  length (filter (λ w, isRunning w = true) (workers st)).

Definition poolDone {R} (st : Pool R) : Prop :=
  Forall (λ w, w = Stopped) (workers st).

(** ** main *)

Definition setDescription (item : SkillIndexItem.t) (r : Fetched)
    : SkillIndexItem.t :=
  {| SkillIndexItem.id := SkillIndexItem.id item;
     SkillIndexItem.providerId := SkillIndexItem.providerId item;
     SkillIndexItem.source := SkillIndexItem.source item;
     SkillIndexItem.skillId := SkillIndexItem.skillId item;
     SkillIndexItem.title := SkillIndexItem.title item;
     SkillIndexItem.link := SkillIndexItem.link item;
     SkillIndexItem.installsAllTime := SkillIndexItem.installsAllTime item;
     SkillIndexItem.installsTrending := SkillIndexItem.installsTrending item;
     SkillIndexItem.installsHot := SkillIndexItem.installsHot item;
     SkillIndexItem.firstSeenAt := SkillIndexItem.firstSeenAt item;
     SkillIndexItem.description := description r;
     SkillIndexItem.skillMdPath := mdPath r |}.

(** The body of the loop that updates the index with descriptions. *)
Definition patch (descMap : JsMap.t Fetched) (item : SkillIndexItem.t)
    : SkillIndexItem.t :=
  match JsMap.get (SkillIndexItem.id item) descMap with
  | Some result =>
      if truthy (description result) then setDescription item result
      else item
  | None => item
  end.

Definition needsFetch (TOP_N : Z) (index : SkillsIndex.t)
    : list SkillIndexItem.t :=
  filter (λ item, truthy (SkillIndexItem.description item) = false)
         (slice (SkillsIndex.items index) 0 TOP_N).

(** The index written back, or [None] when the run throws before writing:
    [new Map] rejects the empty slots of a pool that had no worker. *)
Definition main (TOP_N CONCURRENCY : Z)
    (fn : SkillIndexItem.t → Fetched) (index : SkillsIndex.t)
    : option SkillsIndex.t :=
  let results :=
    processPool (needsFetch TOP_N index) CONCURRENCY
      (λ item, (SkillIndexItem.id item, fn item)) in
  entries ← mapM (λ r : option (jsstring * Fetched), r) results;
  let descMap := JsMap.fromEntries entries in
  Some {|
    SkillsIndex.updatedAt := SkillsIndex.updatedAt index;
    SkillsIndex.sourceUpdatedAt := SkillsIndex.sourceUpdatedAt index;
    SkillsIndex.providerId := SkillsIndex.providerId index;
    SkillsIndex.count := SkillsIndex.count index;
    SkillsIndex.items := patch descMap <$> SkillsIndex.items index
  |}.

End FetchDescriptions.

(* ===================================================================== *)
(** * The categorizer                                                    *)
(* ===================================================================== *)

Module Categorize.
Import JsString RegExp.

Module SkillIndexItem.
Record t := mk {
  id : jsstring;
  source : jsstring;
  skillId : jsstring;
  title : jsstring
}.
End SkillIndexItem.

Definition CATEGORIES : list (jsstring * Regex) :=
  [
    (js "development-tools",
     wordPattern
       "code|coding|dev|debug|lint|test|git|ci|cd|deploy|docker|k8s|kubernetes|terraform|aws|gcp|azure|api|sdk|cli|compiler|build|webpack|vite|npm|yarn|rust|python|java|typescript|javascript|react|vue|angular|svelte|node|deno|bun|go|swift|kotlin|flutter|android|ios|mobile|web|frontend|backend|fullstack|database|sql|postgres|mongo|redis|graphql|rest|grpc|microservice|devops|infra|cloud|server|lambda|function|endpoint|route|middleware|auth|oauth|jwt|session|cookie|cors|csrf|xss|injection|security|vuln|pentest|ctf|hack|exploit|patch|hotfix|refactor|migrate|upgrade|version|release|changelog|semver|monorepo|workspace");
    (js "data-analysis",
     wordPattern
       "data|analytics|analysis|dashboard|chart|graph|viz|visual|report|metric|kpi|bi|etl|pipeline|warehouse|lake|spark|hadoop|pandas|numpy|scipy|matplotlib|jupyter|notebook|statistics|stat|ml|machine.?learning|ai|model|train|predict|classify|cluster|neural|deep.?learn|llm|gpt|bert|transformer|embed|vector|rag|prompt|fine.?tun|dataset|feature|label|annotate|nlp|sentiment|token|parse|scrape|crawl|extract");
    (js "document-processing",
     wordPattern
       "document|doc|pdf|word|excel|csv|json|xml|yaml|markdown|md|html|latex|template|format|convert|transform|parse|extract|ocr|scan|image|photo|video|audio|media|file|upload|download|compress|archive|zip|encrypt|decrypt|sign|stamp|watermark|merge|split|batch|bulk|process|workflow|automat|pipe");
    (js "creative-media",
     wordPattern
       "design|figma|sketch|photoshop|illustrator|canva|ui|ux|css|style|theme|color|font|typography|layout|responsive|animate|motion|3d|render|game|unity|unreal|godot|pixel|sprite|asset|texture|material|shader|vfx|sfx|music|sound|voice|tts|stt|speech|video|stream|record|edit|cut|trim|subtitle|caption|transcri|podcast|youtube|tiktok|instagram|social|content|blog|post|article|story|creative|art|draw|paint|generate|diffusion|dall|midjourney|stable");
    (js "communication-writing",
     wordPattern
       "write|writing|writer|copywrite|copy|edit|proofread|grammar|spell|translate|translat|i18n|l10n|locale|language|english|chinese|spanish|french|german|japanese|korean|email|mail|letter|memo|proposal|pitch|present|slide|deck|speak|communicat|chat|message|sms|notify|notification|alert|webhook|slack|discord|teams|telegram|bot|assist|help|support|faq|knowledge.?base|wiki|documentation|readme|changelog|guide|tutorial|howto|explain|summariz|tldr|brief|abstract|outline");
    (js "business-marketing",
     wordPattern
       "business|market|marketing|seo|sem|ads|advertis|campaign|funnel|lead|crm|sales|revenue|price|cost|budget|forecast|finance|account|invoice|payment|stripe|paypal|billing|subscri|saas|startup|founder|ceo|cto|product|roadmap|strategy|plan|goal|okr|kpi|growth|retention|churn|conversion|ab.?test|experiment|survey|feedback|review|rating|nps|customer|client|user|persona|segment|cohort|outreach|cold|warm|network|linkedin|twitter");
    (js "productivity",
     wordPattern
       "productiv|todo|task|project|manage|organize|automate|workflow|schedule|calendar|time|track|pomodoro|focus|habit|routine|template|snippet|shortcut|hotkey|macro|script|shell|bash|zsh|terminal|command|alias|dotfile|config|setting|prefer|custom|personal|note|notion|obsidian|roam|logseq|bookmark|save|archive|backup|sync|cloud|storage|drive|dropbox|search|find|filter|sort|tag|label|folder|workspace|desktop|window|tab|split|arrange|clipboard|paste|history");
    (js "collaboration",
     wordPattern
       "collaborat|team|group|share|invite|permission|role|access|admin|member|contributor|reviewer|approve|merge|pull.?request|pr|issue|ticket|bug|feature.?request|board|kanban|agile|scrum|sprint|standup|retro|meeting|call|zoom|google.?meet|pair|mob|live|real.?time|concurrent|conflict|resolve|comment|thread|discuss|vote|poll|decide|consensus");
    (js "security",
     wordPattern
       "security|secure|encrypt|decrypt|hash|salt|password|credential|secret|vault|key|cert|ssl|tls|https|firewall|vpn|proxy|tor|privacy|anonym|gdpr|compliance|audit|log|monitor|alert|incident|response|forensic|malware|virus|phish|spam|block|allow|deny|rule|policy|rbac|iam|sso|mfa|2fa|otp|biometric|zero.?trust")
  ].

(** The [for] loop over the rules. *)
Fixpoint firstMatch (rules : list (jsstring * Regex)) (text : jsstring)
    : jsstring :=
  match rules with
  | [] => js "other"
  | (category, pattern) :: rules' =>
      if test true pattern text then category else firstMatch rules' text
  end.

(** [`${skill.source} ${skill.skillId} ${skill.title}`] *)
Definition searchText (skill : SkillIndexItem.t) : jsstring :=
  SkillIndexItem.source skill ++ js " " ++ SkillIndexItem.skillId skill
    ++ js " " ++ SkillIndexItem.title skill.

Definition categorize (skill : SkillIndexItem.t) : jsstring :=
  firstMatch CATEGORIES (searchText skill).

Record CategoryIndex := mkCategoryIndex {
  updatedAt : jsstring;
  version : Z;
  primaryCategories : list jsstring;
  skillToCategory : gmap jsstring jsstring
}.

Definition main (now : jsstring) (items : list SkillIndexItem.t)
    : CategoryIndex :=
  {| updatedAt := now;
     version := 1;
     primaryCategories := CATEGORIES.*1;
     skillToCategory :=
       foldl (λ m item, JsObject.assign (SkillIndexItem.id item) (categorize item) m)
         ∅ items |}.

End Categorize.

(* ===================================================================== *)
(** * Vocabulary of the specification                                    *)
(* ===================================================================== *)

Module Spec.
Import JsString Crawl.

(** The rows of a run in the order they are scanned: all-time, trending,
    hot. *)
Definition scanned (boardData : Board → list ApiSkill.t) : list ApiSkill.t :=
  boardData AllTime ++ boardData Trending ++ boardData Hot.

(** The rows that bear an id. *)
Definition rowsWith (id : jsstring) (rows : list ApiSkill.t) : list ApiSkill.t :=
  filter (λ s, skillKey s = id) rows.

(** The first row that bears an id, and where it stands. *)
Definition firstRow (id : jsstring) (rows : list ApiSkill.t) : option ApiSkill.t :=
  head (rowsWith id rows).

Definition firstIndex (id : jsstring) (rows : list ApiSkill.t) : option nat :=
  fst <$> list_find (λ s, skillKey s = id) rows.

(** [id1] is met before [id2] when the rows are scanned. *)
Definition metBefore (rows : list ApiSkill.t) (id1 id2 : jsstring) : Prop :=
  ∃ p q, firstIndex id1 rows = Some p ∧ firstIndex id2 rows = Some q ∧ (p < q)%nat.

(** [v] is the maximum of the numbers [l]. *)
Definition IsMax (v : Z) (l : list Z) : Prop :=
  v ∈ l ∧ Forall (λ x, x ≤ v) l.

(** What the first-seen file on disk says about an id. *)
Definition persisted (file : option (gmap jsstring jsstring)) (id : jsstring)
    : option jsstring :=
  obj ← file; obj !! id.

(** The items of an index that bear an id. *)
Definition itemsWith (id : jsstring) (items : list SkillIndexItem.t)
    : list SkillIndexItem.t :=
  filter (λ it, SkillIndexItem.id it = id) items.

(** The link of a row. *)
Definition linkOf (s : ApiSkill.t) : option jsstring :=
  src ← Uri.encodeURIComponent (ApiSkill.source s);
  sid ← Uri.encodeURIComponent (ApiSkill.skillId s);
  Some (js "https://skills.sh/skills/" ++ src ++ js "/" ++ sid).

(** Descending order of all-time installs. *)
Definition installsDesc (a b : SkillIndexItem.t) : Prop :=
  SkillIndexItem.installsAllTime b ≤ SkillIndexItem.installsAllTime a.

(** ** Sample data

    A small run: three boards with a repeated id, a first-seen file that
    already knows one id, and a code-unit comparison standing for
    [localeCompare]. *)

Definition row (source skillId name : string) (installs : Z) : ApiSkill.t :=
  ApiSkill.mk (js source) (js skillId) (js name) installs.

Definition sampleBoards (board : Board) : list ApiSkill.t :=
  match board with
  | AllTime => [row "a" "b" "First" 5; row "c" "d" "Second" 9;
                row "a" "b" "First again" 7]
  | Trending => [row "e" "f" "Third" 2; row "c" "d" "Second renamed" 1]
  | Hot => [row "g" "h" "Fourth" 4; row "e" "f" "Third" 3]
  end.

Definition sampleFirstSeen : option (gmap jsstring jsstring) :=
  Some {[ js "a/b" := js "2024-01-01T00:00:00Z" ]}.

Definition sampleNow : jsstring := js "2025-06-01T12:00:00.000Z".

Fixpoint compareUnits (a b : jsstring) : Z :=
  match a, b with
  | [], [] => 0
  | [], _ :: _ => -1
  | _ :: _, [] => 1
  | x :: a', y :: b' =>
      if (x <? y)%N then -1 else if (y <? x)%N then 1 else compareUnits a' b'
  end.

(** A board with a negative number for a count. *)
Definition negativeRows : list ApiSkill.t := [row "a" "b" "First" (-1)].

(** ** The enrichment pass *)

(** Two items that agree on everything but [description] and
    [skillMdPath]. *)
Definition sameButDescription (a b : SkillIndexItem.t) : Prop :=
  SkillIndexItem.id a = SkillIndexItem.id b
  ∧ SkillIndexItem.providerId a = SkillIndexItem.providerId b
  ∧ SkillIndexItem.source a = SkillIndexItem.source b
  ∧ SkillIndexItem.skillId a = SkillIndexItem.skillId b
  ∧ SkillIndexItem.title a = SkillIndexItem.title b
  ∧ SkillIndexItem.link a = SkillIndexItem.link b
  ∧ SkillIndexItem.installsAllTime a = SkillIndexItem.installsAllTime b
  ∧ SkillIndexItem.installsTrending a = SkillIndexItem.installsTrending b
  ∧ SkillIndexItem.installsHot a = SkillIndexItem.installsHot b
  ∧ SkillIndexItem.firstSeenAt a = SkillIndexItem.firstSeenAt b.

(** The fetch of an item produced a description: the item was among
    those fetched and the result's description is not null (nor empty). *)
Definition fetchedDescription (TOP_N : Z)
    (fn : SkillIndexItem.t → FetchDescriptions.Fetched)
    (index : SkillsIndex.t) (item : SkillIndexItem.t) : Prop :=
  item ∈ FetchDescriptions.needsFetch TOP_N index
  ∧ FetchDescriptions.truthy (FetchDescriptions.description (fn item)) = true.

#[global] Instance fetchedDescription_dec TOP_N fn index item :
  Decision (fetchedDescription TOP_N fn index item).
Proof. unfold fetchedDescription. apply _. Defined.

(** The document of the specification's example for the extractor. *)
Definition exampleDocument : jsstring :=
  js "---" ++ [LF] ++ js "title: x" ++ [LF] ++ js "---" ++ [LF]
    ++ js "# Heading" ++ [LF; LF]
    ++ js "This is **the** description." ++ [LF; LF]
    ++ js "More text.".

(** A document whose first paragraph is longer than 200 units. *)
Definition longDocument : jsstring :=
  js "# Title" ++ [LF] ++ concat (replicate 50 (js "word ")).

(** A sample index of three items, the second of which already has a
    description, and a sample world in which only the first item has a
    document, at its first candidate path. *)
Definition indexItem (source skillId : string) (installs : Z)
    (description : option jsstring) : SkillIndexItem.t :=
  {| SkillIndexItem.id := js source ++ js "/" ++ js skillId;
     SkillIndexItem.providerId := js "skills.sh";
     SkillIndexItem.source := js source;
     SkillIndexItem.skillId := js skillId;
     SkillIndexItem.title := js skillId;
     SkillIndexItem.link := js "https://skills.sh/skills/" ++ js source ++ js "/" ++ js skillId;
     SkillIndexItem.installsAllTime := installs;
     SkillIndexItem.installsTrending := 0;
     SkillIndexItem.installsHot := 0;
     SkillIndexItem.firstSeenAt := Some sampleNow;
     SkillIndexItem.description := description;
     SkillIndexItem.skillMdPath := None |}.

Definition sampleIndex : SkillsIndex.t :=
  {| SkillsIndex.updatedAt := sampleNow;
     SkillsIndex.sourceUpdatedAt := sampleNow;
     SkillsIndex.providerId := js "skills.sh";
     SkillsIndex.count := 3;
     SkillsIndex.items :=
       [ indexItem "a" "b" 9 None;
         indexItem "c" "d" 7 (Some (js "An earlier description."));
         indexItem "e" "f" 5 None ] |}.

Definition sampleWorld : FetchDescriptions.World :=
  {| FetchDescriptions.MD_DIR := js "/data/skills-md";
     FetchDescriptions.cacheFile := λ _, None;
     FetchDescriptions.fetchGitHubRaw := λ source path,
       if decide (source = js "a" ∧ path = js "skills/b/SKILL.md")
       then Some exampleDocument else None |}.

End Spec.

(* ===================================================================== *)
(** * Vocabulary of the further properties                               *)
(* ===================================================================== *)

Module Further.
Import JsString Crawl.

(** ** The retry wrapper *)

(** An outcome that ends the retries with a response. *)
Definition succeeds (o : FetchOutcome) : bool :=
  match o with
  | Responded status => ok status
  | Rejected _ => false
  end.

(** The statuses of the retry branch. *)
Definition retried (status : Z) : bool := (status =? 429) || (500 <=? status).

(** [k] failed attempts, each followed by its backoff wait. *)
Definition backoff (k : nat) : list Event :=
  flat_map (λ i, [Fetch i; Sleep (200 * 2 ^ i)]) (Z.of_nat <$> seq 0 k).

Definition isFetch (e : Event) : bool :=
  match e with Fetch _ => true | Sleep _ => false end.

Definition fetches (evs : list Event) : nat :=
  length (filter (λ e, isFetch e = true) evs).

Definition slept (evs : list Event) : Z :=
  foldr (λ e total, match e with Sleep ms => ms + total | Fetch _ => total end) 0 evs.

(** ** fetchBoard *)

(** The pages requested and the delays slept, in order. *)
Definition requested (evs : list BoardEvent) : list Z :=
  omap (λ e, match e with Page page _ => Some page | Delay _ => None end) evs.

Definition delays (evs : list BoardEvent) : list Z :=
  omap (λ e, match e with Delay ms => Some ms | Page _ _ => None end) evs.

(** The API serves [pages] for the pages 0, 1, ... of a board: each is
    fetched successfully and its body is the page. *)
Definition serves (net : Z → nat → FetchOutcome)
    (body : Z → option ApiResponse.t) (pages : list ApiResponse.t) : Prop :=
  ∀ (i : nat) data, pages !! i = Some data →
    body (Z.of_nat i) = Some data
    ∧ ∃ status, (fetchWithRetry (net (Z.of_nat i))).1 = Returned status.

(** ** The index *)

(** The delimiters of a URL: [/], [?] and [#]. *)
Definition isDelimiter (c : N) : bool := ((c =? 47) || (c =? 63) || (c =? 35))%N.

(** The ids of the rows of a run. *)
Definition idsOf (boardData : Board → list ApiSkill.t) : list jsstring :=
  skillKey <$> Spec.scanned boardData.

(** ** extractDescription *)

(** A trimmed line that the paragraph loop passes over: blank, a heading,
    a code fence or a checklist entry. *)
Definition isSkipped (line : jsstring) : bool :=
  (len line =? 0) || startsWith (js "#") line || startsWith (js "```") line
  || startsWith (js "- [") line.

(** The emphasis and code markers, and the units of a description that
    need not be units of the document. *)
Definition markers : jsstring := js "*_`".
Definition glue : jsstring := js " .".

(** A document of headings, fences and checklist entries only. *)
Definition outlineDocument : jsstring :=
  js "# Title" ++ [LF; LF] ++ js "- [ ] a task" ++ [LF] ++ js "```" ++ [LF]
    ++ js "## More".

(** ** fetchSkillDescription *)

(** The same world with the raw-content host out of reach. *)
Definition offline (w : FetchDescriptions.World) : FetchDescriptions.World :=
  {| FetchDescriptions.MD_DIR := FetchDescriptions.MD_DIR w;
     FetchDescriptions.cacheFile := FetchDescriptions.cacheFile w;
     FetchDescriptions.fetchGitHubRaw := λ _ _, None |}.

(** ** processPool *)

(** The number of workers: [Math.min(concurrency, items.length)], or none
    when that is not positive. *)
Definition poolSize {T} (items : list T) (concurrency : Z) : nat :=
  Z.to_nat (Z.min concurrency (Z.of_nat (length items))).

(** The states that a run of the pool reaches in [n] steps. *)
Inductive poolReachesIn {T R} (items : list T) (concurrency : Z) (fn : T → R)
    : nat → FetchDescriptions.Pool R → Prop :=
| reachesIn_start :
    poolReachesIn items concurrency fn 0
      (FetchDescriptions.poolStart items concurrency)
| reachesIn_step n st st' :
    poolReachesIn items concurrency fn n st →
    FetchDescriptions.poolStep items fn st st' →
    poolReachesIn items concurrency fn (S n) st'.

(** The steps that are left to a worker before it takes an index or
    stops, and to a pool before all its workers have stopped. *)
Definition workerSteps (w : FetchDescriptions.Worker) : nat :=
  match w with
  | FetchDescriptions.Ready => 1
  | FetchDescriptions.Running _ => 2
  | FetchDescriptions.Stopped => 0
  end.

Definition stepsLeft {T R} (items : list T) (st : FetchDescriptions.Pool R) : nat :=
  2 * (length items - FetchDescriptions.nextIdx st)
  + sum_list (workerSteps <$> FetchDescriptions.workers st).

(** What holds in every state of a run: the cursor and the arrays keep
    their bounds; a worker that awaits a call holds an index below the
    cursor whose slot is empty, and no other worker holds it; below the
    cursor a slot is filled or awaited; from the cursor on the slots are
    empty; and a worker stops only past the last item. *)
Definition poolInvariant {T R} (items : list T) (concurrency : Z) (fn : T → R)
    (st : FetchDescriptions.Pool R) : Prop :=
  (FetchDescriptions.nextIdx st ≤ length items)%nat
  ∧ length (FetchDescriptions.slots st) = length items
  ∧ length (FetchDescriptions.workers st) = poolSize items concurrency
  ∧ (∀ w idx,
       FetchDescriptions.workers st !! w = Some (FetchDescriptions.Running idx) →
       (idx < FetchDescriptions.nextIdx st)%nat
       ∧ FetchDescriptions.slots st !! idx = Some None)
  ∧ (∀ w1 w2 idx,
       FetchDescriptions.workers st !! w1 = Some (FetchDescriptions.Running idx) →
       FetchDescriptions.workers st !! w2 = Some (FetchDescriptions.Running idx) →
       w1 = w2)
  ∧ (∀ idx x, (idx < FetchDescriptions.nextIdx st)%nat → items !! idx = Some x →
       FetchDescriptions.slots st !! idx = Some (Some (fn x))
       ∨ ∃ w, FetchDescriptions.workers st !! w
              = Some (FetchDescriptions.Running idx))
  ∧ (∀ idx, (FetchDescriptions.nextIdx st ≤ idx < length items)%nat →
       FetchDescriptions.slots st !! idx = Some None)
  ∧ (∀ w, FetchDescriptions.workers st !! w = Some FetchDescriptions.Stopped →
       (length items ≤ FetchDescriptions.nextIdx st)%nat)
  ∧ ((0 < FetchDescriptions.nextIdx st)%nat →
       (0 < length (FetchDescriptions.workers st))%nat).

(** A pool of two workers over three items, one step after the start and
    when it has finished. *)
Definition sampleItems : list nat := [10; 20; 30]%nat.

Definition sampleJob (n : nat) : nat := S n.

Definition poolAfterTake : FetchDescriptions.Pool nat :=
  FetchDescriptions.mkPool 1
    [FetchDescriptions.Running 0; FetchDescriptions.Ready] [None; None; None].

Definition poolFinished : FetchDescriptions.Pool nat :=
  FetchDescriptions.mkPool 3
    [FetchDescriptions.Stopped; FetchDescriptions.Stopped]
    [Some 11; Some 21; Some 31]%nat.

(** ** The categorizer *)

(** Two texts that differ at most in the case of their ASCII letters. *)
Definition sameUpToCase (a b : jsstring) : Prop :=
  RegExp.canonicalize <$> a = RegExp.canonicalize <$> b.

(** Two positions of a match that differ at most in the case of ASCII
    letters, and in the groups captured so far. *)
Definition alike (p p' : RegExp.Pos) : Prop :=
  RegExp.canonicalize <$> RegExp.prev p = RegExp.canonicalize <$> RegExp.prev p'
  ∧ RegExp.canonicalize <$> RegExp.rest p = RegExp.canonicalize <$> RegExp.rest p'.

(** The items of an index that bear an id, for the categorizer. *)
Definition skillsWith (id : jsstring) (items : list Categorize.SkillIndexItem.t)
    : list Categorize.SkillIndexItem.t :=
  filter (λ item, Categorize.SkillIndexItem.id item = id) items.

Definition titled (title : string) : Categorize.SkillIndexItem.t :=
  Categorize.SkillIndexItem.mk (js "o/r/s") (js "o/r") (js "s") (js title).

(** An item of an index whose id is the name of the prototype accessor. *)
Definition protoItem : Categorize.SkillIndexItem.t :=
  Categorize.SkillIndexItem.mk (js "__proto__") (js "o/r") (js "s") (js "Docker").

(** ** The whole run *)


(** What [fetchBoard(board)] gives against an API. *)
Definition boardFetch (DELAY_MS : Z) (api : Api) (fuel : nat) (board : Board)
    : BoardResult * list BoardEvent :=
  fetchBoard DELAY_MS (network api board) (bodies api board) fuel.

(** A sample API: every fetch is answered with 200; the all-time board has
    two pages, the other boards one, with the rows of [sampleBoards]. *)
Definition samplePage (rows : list ApiSkill.t) (hasMore : bool) (page : Z)
    : ApiResponse.t :=
  {| ApiResponse.skills := rows; ApiResponse.total := 7;
     ApiResponse.hasMore := hasMore; ApiResponse.page := page |}.

Definition samplePages (board : Board) : list ApiResponse.t :=
  match board with
  | AllTime => [samplePage (take 2 (Spec.sampleBoards AllTime)) true 0;
                samplePage (drop 2 (Spec.sampleBoards AllTime)) false 1]
  | _ => [samplePage (Spec.sampleBoards board) false 0]
  end.

Definition sampleApi : Api :=
  {| network := λ _ _ _, Responded 200;
     bodies := λ board page,
       if page <? 0 then None else samplePages board !! Z.to_nat page |}.

(** The same API with the trending board down: every fetch is rejected. *)
Definition brokenApi : Api :=
  {| network := λ board _ _,
       if decide (board = Trending) then Rejected (js "fetch failed")
       else Responded 200;
     bodies := bodies sampleApi |}.

Definition sampleDisk : Disk :=
  {| dataDir := true;
     firstSeenJson := Spec.sampleFirstSeen;
     indexJson := None |}.

End Further.


(* ===================================================================== *)
(** * Facts about the built-ins                                          *)
(* ===================================================================== *)

Section JsMapFacts.
Context {V : Type}.
Implicit Types (m : JsMap.t V) (k : jsstring) (v : V).

Lemma JsMap_has_get k m : JsMap.has k m = true ↔ is_Some (JsMap.get k m).
Proof.
  unfold JsMap.has. destruct (JsMap.get k m); split; intros H; try done.
Qed.

Lemma JsMap_has_false k m : JsMap.has k m = false ↔ JsMap.get k m = None.
Proof. unfold JsMap.has. by destruct (JsMap.get k m). Qed.

Lemma JsMap_get_set k k' v m :
  JsMap.get k' (JsMap.set k v m) = if decide (k = k') then Some v else JsMap.get k' m.
Proof.
  induction m as [|[k0 v0] m IH]; simpl.
  - by destruct (decide (k = k')).
  - destruct (decide (k0 = k)) as [->|Hne]; simpl.
    + by destruct (decide (k = k')).
    + destruct (decide (k0 = k')) as [->|]; [|done].
      by rewrite decide_False.
Qed.

Lemma JsMap_get_None k m : JsMap.get k m = None ↔ k ∉ JsMap.keys m.
Proof.
  unfold JsMap.keys. induction m as [|[k0 v0] m IH]; simpl.
  - split; [intros _; apply not_elem_of_nil | done].
  - rewrite not_elem_of_cons. destruct (decide (k0 = k)) as [->|Hne].
    + split; [done | by intros [? _]].
    + rewrite IH. naive_solver.
Qed.

(** Setting a key that is absent appends it. *)
Lemma JsMap_set_new k v m :
  JsMap.get k m = None → JsMap.set k v m = m ++ [(k, v)].
Proof.
  induction m as [|[k0 v0] m IH]; simpl; [done|].
  destruct (decide (k0 = k)); [done|]. intros H. by rewrite IH.
Qed.

Lemma JsMap_get_elem_of k v m :
  NoDup (JsMap.keys m) → JsMap.get k m = Some v ↔ (k, v) ∈ m.
Proof.
  unfold JsMap.keys. induction m as [|[k0 v0] m IH]; simpl; intros Hnd.
  - split; [done | by intros ?%elem_of_nil].
  - apply NoDup_cons in Hnd as [Hk0 Hnd]. rewrite elem_of_cons.
    destruct (decide (k0 = k)) as [->|Hne].
    + split; [naive_solver|]. intros [?|Hin]; [naive_solver|].
      destruct Hk0. apply list_elem_of_fmap. by exists (k, v).
    + rewrite (IH Hnd). naive_solver.
Qed.

(** [new Map(l)] of entries with distinct keys lists them as they come. *)
Lemma JsMap_fromEntries_NoDup (l : list (jsstring * V)) :
  NoDup l.*1 → JsMap.fromEntries l = l.
Proof.
  unfold JsMap.fromEntries, JsMap.empty.
  induction l as [|[k v] l IH] using rev_ind; [done|].
  rewrite fmap_app, foldl_snoc. simpl. intros Hnd.
  apply NoDup_app in Hnd as (Hl & Hk & _). rewrite (IH Hl).
  apply JsMap_set_new, JsMap_get_None. intros Hin.
  apply (Hk _ Hin). simpl. apply list_elem_of_singleton. done.
Qed.
End JsMapFacts.

Section SortFacts.
Context {A : Type}.
Implicit Types (cmp : A → A → Z) (l : list A).

Lemma insertSorted_Permutation cmp x l : JsArray.insertSorted cmp x l ≡ₚ x :: l.
Proof.
  induction l as [|y l IH]; simpl; [done|].
  destruct (cmp x y <=? 0); [done|].
  rewrite IH. apply Permutation_swap.
Qed.

Lemma sort_Permutation cmp l : JsArray.sort cmp l ≡ₚ l.
Proof.
  unfold JsArray.sort. induction l as [|x l IH]; simpl; [done|].
  by rewrite insertSorted_Permutation, IH.
Qed.

(** Sorting by a numeric key in descending order, [(a, b) => key b - key a]. *)
Section Descending.
Variable key : A → Z.
Let cmp (a b : A) : Z := key b - key a.
Let desc (a b : A) : Prop := key b ≤ key a.

Lemma insertSorted_desc x l :
  StronglySorted desc l → StronglySorted desc (JsArray.insertSorted cmp x l).
Proof.
  induction 1 as [|y l Hl IH Hy]; simpl.
  - repeat constructor.
  - destruct (cmp x y <=? 0) eqn:Hc.
    + apply Z.leb_le in Hc. constructor; [by constructor|].
      constructor; [unfold desc, cmp in *; lia|].
      eapply Forall_impl; [exact Hy|]. unfold desc, cmp in *. intros; lia.
    + apply Z.leb_gt in Hc. constructor; [done|].
      rewrite insertSorted_Permutation. constructor; [|done].
      unfold desc, cmp in *. lia.
Qed.

Lemma sort_desc l : StronglySorted desc (JsArray.sort cmp l).
Proof.
  unfold JsArray.sort. induction l; simpl; [constructor|].
  by apply insertSorted_desc.
Qed.

(** Stability: the items of one key keep their order. *)
Lemma insertSorted_filter_key v x l :
  filter (λ a, key a = v) (JsArray.insertSorted cmp x l)
  = filter (λ a, key a = v) (x :: l).
Proof.
  induction l as [|y l IH]; simpl; [done|].
  destruct (cmp x y <=? 0) eqn:Hc; [done|]. apply Z.leb_gt in Hc.
  rewrite !filter_cons in *. unfold cmp in Hc.
  destruct (decide (key y = v)), (decide (key x = v)); try lia;
    by rewrite IH.
Qed.

Lemma sort_stable v l :
  filter (λ a, key a = v) (JsArray.sort cmp l) = filter (λ a, key a = v) l.
Proof.
  unfold JsArray.sort. induction l as [|x l IH]; simpl; [done|].
  rewrite insertSorted_filter_key, !filter_cons, IH. done.
Qed.
End Descending.
End SortFacts.

Section JsObjectFacts.
Context {V : Type}.

Lemma JsObject_fromEntries_snoc (l : list (jsstring * V)) k v :
  JsObject.fromEntries (l ++ [(k, v)]) = <[k := v]> (JsObject.fromEntries l).
Proof. unfold JsObject.fromEntries. by rewrite foldl_snoc. Qed.

Lemma JsObject_fromEntries_lookup (l : list (jsstring * V)) k v :
  NoDup l.*1 → JsObject.fromEntries l !! k = Some v ↔ (k, v) ∈ l.
Proof.
  induction l as [|[k0 v0] l IH] using rev_ind; intros Hnd.
  - unfold JsObject.fromEntries. simpl. rewrite lookup_empty.
    split; [done | by intros ?%elem_of_nil].
  - rewrite fmap_app in Hnd. apply NoDup_app in Hnd as (Hl & Hk & _).
    rewrite JsObject_fromEntries_snoc, elem_of_app, list_elem_of_singleton.
    destruct (decide (k0 = k)) as [->|Hne].
    + rewrite lookup_insert_eq. split; [naive_solver|].
      intros [Hin|?]; [|naive_solver]. exfalso.
      apply (Hk k); [apply list_elem_of_fmap; by exists (k, v)|].
      simpl. by apply list_elem_of_singleton.
    + rewrite lookup_insert_ne by done. rewrite (IH Hl). naive_solver.
Qed.
End JsObjectFacts.

Section RegExpFacts.
Import JsString RegExp.
Context {A : Type}.
Variable ignoreCase : bool.
Implicit Types (r : Regex) (p q : Pos) (k : Pos → option A).

Lemma many1_is_Some cs k p :
  is_Some (many1 ignoreCase cs (caps p) k (rest p))
  ↔ ∃ q, Matches ignoreCase (Many1 cs) p q ∧ is_Some (k q).
Proof.
  remember (rest p) as s eqn:Hs. revert p Hs.
  induction s as [|c s IH]; intros p Hs; simpl.
  - split; [by intros [? ?]|]. intros (q & Hq & _).
    inversion Hq; congruence.
  - destruct (accepts ignoreCase cs c) eqn:Hc.
    + specialize (IH (mkPos (Some c) s (caps p)) eq_refl). simpl in IH.
      destruct (many1 ignoreCase cs (caps p) k s) as [x|] eqn:Hm.
      * split; [intros _ | by eauto].
        destruct (proj1 IH) as (q & Hq & Hk); [by eauto|].
        exists q. split; [|done]. by eapply Matches_Many1_more.
      * split.
        -- intros Hk. eexists. split; [|exact Hk]. by eapply Matches_Many1_one.
        -- intros (q & Hq & Hk). inversion Hq; subst; simplify_eq.
           ++ replace c0 with c in * by congruence.
              replace s0 with s in * by congruence. done.
           ++ replace c0 with c in * by congruence.
              replace s0 with s in * by congruence.
              destruct (proj2 IH) as [? ?]; [by eauto | done].
    + split; [by intros [? ?]|]. intros (q & Hq & _).
      inversion Hq; subst; congruence.
Qed.

(** The matcher succeeds exactly when some match of the pattern is
    accepted by the continuation. *)
Lemma matchRegex_is_Some r p k :
  is_Some (matchRegex ignoreCase r p k)
  ↔ ∃ q, Matches ignoreCase r p q ∧ is_Some (k q).
Proof.
  revert p k. induction r as [|cs|cs|cs| |r1 IH1 r2 IH2|r1 IH1 r2 IH2|r IH];
    intros p k; simpl.
  - split; [by eauto using Matches|]. intros (q & Hq & Hk). by inversion Hq; subst.
  - destruct (rest p) as [|c s] eqn:Hp.
    + split; [by intros [? ?]|]. intros (q & Hq & _). inversion Hq; congruence.
    + destruct (accepts ignoreCase cs c) eqn:Hc.
      * split; [by eauto using Matches|]. intros (q & Hq & Hk).
        inversion Hq; subst. congruence.
      * split; [by intros [? ?]|]. intros (q & Hq & _).
        inversion Hq; subst. congruence.
  - destruct (rest p) as [|c s] eqn:Hp.
    + split; [by eauto using Matches|]. intros (q & Hq & Hk).
      inversion Hq; subst; [congruence | done].
    + destruct (accepts ignoreCase cs c) eqn:Hc.
      * destruct (k (mkPos (Some c) s (caps p))) as [x|] eqn:Hk1.
        -- split; [intros _ | by eauto].
           eexists. split; [by eapply Matches_Opt_one|]. by rewrite Hk1.
        -- split; [by eauto using Matches|]. intros (q & Hq & Hk).
           inversion Hq; subst; [|done].
           replace c0 with c in * by congruence.
           replace s0 with s in * by congruence.
           rewrite Hk1 in Hk. by destruct Hk.
      * split; [by eauto using Matches|]. intros (q & Hq & Hk).
        inversion Hq; subst; [congruence | done].
  - apply many1_is_Some.
  - destruct (xorb (wordBefore p) (wordAfter p)) eqn:Hb.
    + split; [by eauto using Matches|]. intros (q & Hq & Hk). by inversion Hq; subst.
    + split; [by intros [? ?]|]. intros (q & Hq & _). inversion Hq; congruence.
  - rewrite IH1. split.
    + intros (q & Hq & (t & Ht & Hk)%IH2). eauto using Matches.
    + intros (t & Ht & Hk). inversion Ht; subst.
      eexists. split; [eassumption|]. apply IH2. eauto.
  - destruct (matchRegex ignoreCase r1 p k) as [x|] eqn:H1.
    + split; [intros _ | by eauto].
      destruct (proj1 (IH1 p k)) as (q & Hq & Hk); [by rewrite H1; eauto|].
      eauto using Matches.
    + rewrite IH2. split.
      * intros (q & Hq & Hk). eauto using Matches.
      * intros (q & Hq & Hk). inversion Hq; subst; [|by eauto].
        destruct (proj2 (IH1 p k)) as [? ?]; [by eauto | congruence].
  - rewrite IH. split.
    + intros (q & Hq & Hk). eauto using Matches.
    + intros (q & Hq & Hk). inversion Hq; subst. eauto.
Qed.
End RegExpFacts.

Section RegExpSearch.
Import JsString RegExp.

Lemma matchAt_is_Some ignoreCase r prev s :
  is_Some (matchAt ignoreCase r prev s)
  ↔ ∃ q, Matches ignoreCase r (mkPos prev s []) q.
Proof.
  unfold matchAt. rewrite matchRegex_is_Some. split.
  - intros (q & Hq & _). eauto.
  - intros (q & Hq). eauto.
Qed.

Lemma unitBefore_cons prev c pre : unitBefore prev (c :: pre) = unitBefore (Some c) pre.
Proof.
  unfold unitBefore. destruct pre as [|d pre]; [done|].
  change (last (c :: d :: pre)) with (last (d :: pre)).
  destruct (last (d :: pre)) eqn:Hl; [done|].
  by apply last_None in Hl.
Qed.

(** [test]: the pattern has a match that starts somewhere in the text. *)
Lemma search_true ignoreCase r prev s :
  search ignoreCase r prev s = true
  ↔ ∃ pre suf q,
      s = pre ++ suf
      ∧ Matches ignoreCase r (mkPos (unitBefore prev pre) suf []) q.
Proof.
  revert prev. induction s as [|c s IH]; intros prev; simpl.
  - destruct (matchAt ignoreCase r prev []) as [q|] eqn:Hm.
    + split; [intros _ | done].
      destruct (proj1 (matchAt_is_Some ignoreCase r prev [])) as [q' Hq']; [by rewrite Hm|].
      by exists [], [], q'.
    + split; [done|]. intros (pre & suf & q & Heq & Hq).
      symmetry in Heq. apply app_eq_nil in Heq as [-> ->].
      destruct (proj2 (matchAt_is_Some ignoreCase r prev [])) as [? ?]; [by eauto|congruence].
  - destruct (matchAt ignoreCase r prev (c :: s)) as [q|] eqn:Hm.
    + split; [intros _ | done].
      destruct (proj1 (matchAt_is_Some ignoreCase r prev (c :: s))) as [q' Hq'];
        [by rewrite Hm|].
      by exists [], (c :: s), q'.
    + rewrite IH. split.
      * intros (pre & suf & q & -> & Hq). exists (c :: pre), suf, q.
        split; [done|]. by rewrite unitBefore_cons.
      * intros (pre & suf & q & Heq & Hq). destruct pre as [|c' pre].
        -- simpl in Heq. subst suf.
           destruct (proj2 (matchAt_is_Some ignoreCase r prev (c :: s))) as [? ?];
             [by eauto | congruence].
        -- injection Heq as -> ->. rewrite unitBefore_cons in Hq. eauto.
Qed.

Lemma test_true ignoreCase r s :
  test ignoreCase r s = true
  ↔ ∃ pre suf q,
      s = pre ++ suf ∧ Matches ignoreCase r (mkPos (last pre) suf []) q.
Proof.
  unfold test. rewrite search_true.
  assert (∀ pre, unitBefore None pre = last pre) as Hu
    by (intros pre; unfold unitBefore; by destruct (last pre)).
  by setoid_rewrite Hu.
Qed.
End RegExpSearch.

Section WordPatterns.
Import JsString RegExp.

Lemma keyword_unfold a w :
  keyword (String a w)
  = if isWildcard a w
    then match w with
         | String _ w' => Cat (Opt Dot) (keyword w')
         | EmptyString => Eps
         end
    else Cat (Chr (Lit (N_of_ascii a))) (keyword w).
Proof.
  destruct a as [[] [] [] [] [] [] [] []]; try reflexivity.
  destruct w as [|[[] [] [] [] [] [] [] []] w]; reflexivity.
Qed.

Lemma isWildcard_true a w :
  isWildcard a w = true → a = "."%char ∧ ∃ w', w = String "?" w'.
Proof.
  destruct a as [[] [] [] [] [] [] [] []]; try discriminate.
  destruct w as [|[[] [] [] [] [] [] [] []] w]; try discriminate. eauto.
Qed.

Lemma unitBefore_app prev a b :
  unitBefore (unitBefore prev a) b = unitBefore prev (a ++ b).
Proof.
  revert prev. induction a as [|c a IH]; intros prev; [done|].
  rewrite <- app_comm_cons, !unitBefore_cons. apply IH.
Qed.

(** The matches of a keyword are its instances. *)
Lemma keyword_Matches w p q :
  Matches true (keyword w) p q
  ↔ ∃ word,
      rest p = word ++ rest q ∧ instanceOf w word
      ∧ prev q = unitBefore (prev p) word ∧ caps q = caps p.
Proof.
  revert p q. remember (String.length w) as n eqn:Hn. revert w Hn.
  induction n as [n IHn] using lt_wf_ind. intros w Hn.
  assert (∀ w', (String.length w' < String.length w)%nat →
            ∀ p q, Matches true (keyword w') p q
              ↔ ∃ word, rest p = word ++ rest q ∧ instanceOf w' word
                  ∧ prev q = unitBefore (prev p) word ∧ caps q = caps p) as IH
    by (intros w' Hlt; apply (IHn (String.length w')); [lia | done]).
  clear IHn Hn. intros p q. destruct w as [|a w].
  - simpl. split.
    + intros H. inversion H; subst. exists []. repeat split. constructor.
    + intros (word & Hr & Hi & Hp & Hc). inversion Hi; subst.
      destruct p, q; simpl in *; subst. constructor.
  - rewrite keyword_unfold. destruct (isWildcard a w) eqn:Hw.
    + apply isWildcard_true in Hw as [-> [w' ->]].
      assert (∀ p q, Matches true (keyword w') p q
                ↔ ∃ word, rest p = word ++ rest q ∧ instanceOf w' word
                    ∧ prev q = unitBefore (prev p) word ∧ caps q = caps p) as IH'
        by (apply IH; simpl; lia).
      split.
      * intros H. inversion H as [| | | | | | |r1 r2 p0 m t Hopt Hrest| | |]; subst.
        apply IH' in Hrest as (word & Hr & Hi & Hp & Hc).
        inversion Hopt; subst; simpl in *.
        -- exists (c :: word). rewrite unitBefore_cons.
           repeat split; [simpl; congruence | | done..].
           apply instance_wildcard_one; [|done].
           simpl in *. by apply negb_true_iff.
        -- exists word. repeat split; try done. by apply instance_wildcard_none.
      * intros (word & Hr & Hi & Hp & Hc).
        inversion Hi as [|w0 c s Hlt Hi'|w0 s Hi'|a0 w0 c s Hnw _ _]; subst.
        -- eapply Matches_Cat.
           ++ eapply Matches_Opt_one; [exact Hr|]. simpl. by rewrite Hlt.
           ++ apply IH'. exists s. rewrite unitBefore_cons in Hp. by repeat split.
        -- eapply Matches_Cat; [apply Matches_Opt_none|].
           apply IH'. exists word. by repeat split.
        -- discriminate.
    + split.
      * intros H. inversion H as [| | | | | | |r1 r2 p0 m t Hchr Hrest| | |]; subst.
        apply (IH w) in Hrest as (word & Hr & Hi & Hp & Hc); [|simpl; lia].
        inversion Hchr; subst; simpl in *.
        exists (c :: word). rewrite unitBefore_cons.
        repeat split; [simpl; congruence | | done..].
        by apply instance_unit.
      * intros (word & Hr & Hi & Hp & Hc).
        inversion Hi as [|w0 c s Hlt Hi'|w0 s Hi'|a0 w0 c s Hnw Hsame Hi']; subst;
          try discriminate.
        eapply Matches_Cat.
        -- eapply Matches_Chr; [exact Hr | exact Hsame].
        -- apply (IH w); [simpl; lia|]. exists s.
           rewrite unitBefore_cons in Hp. by repeat split.
Qed.

Lemma alternation_Matches ignoreCase rs p q :
  rs ≠ [] →
  Matches ignoreCase (alternation rs) p q
  ↔ ∃ r, r ∈ rs ∧ Matches ignoreCase r p q.
Proof.
  induction rs as [|r rs IH]; intros Hne; [done|].
  destruct rs as [|r' rs].
  - simpl. split; [intros H; exists r; split; [left | done]|].
    by intros (r0 & ->%list_elem_of_singleton & H).
  - change (alternation (r :: r' :: rs)) with (Alt r (alternation (r' :: rs))). split.
    + intros H. inversion H; subst.
      * exists r. split; [left | done].
      * apply IH in H4 as (r0 & Hin & Hm); [|done]. exists r0. split; [by right | done].
    + intros (r0 & [->|Hin]%elem_of_cons & Hm).
      * by apply Matches_Alt_l.
      * apply Matches_Alt_r, IH; [done|]. eauto.
Qed.

Lemma alternatives_nonempty s : alternatives s ≠ [].
Proof.
  induction s as [|a s IH]; [done|]. simpl.
  destruct a as [[] [] [] [] [] [] [] []]; try done;
    by destruct (alternatives s).
Qed.

Lemma keywords_nonempty s : keyword <$> alternatives s ≠ [].
Proof. intros Hnil%fmap_nil_inv. by apply alternatives_nonempty in Hnil. Qed.

Lemma wordBefore_unit p : wordBefore p = from_option isWordChar false (prev p).
Proof. unfold wordBefore. by destruct (prev p). Qed.

Lemma wordAfter_unit p : wordAfter p = from_option isWordChar false (head (rest p)).
Proof. unfold wordAfter. by destruct (rest p). Qed.

(** A word pattern [/\b(w1|w2|...)\b/i] matches a text exactly when the
    text contains one of the keywords as a word. *)
Lemma wordPattern_test words text :
  test true (wordPattern words) text = true ↔ containsKeyword words text.
Proof.
  rewrite test_true. unfold wordPattern, containsKeyword, isBoundary. split.
  - intros (pre & suf & q & -> & H).
    inversion H as [| | | | | | |r1 r2 p0 m t Hb1 H'| | |]; subst.
    inversion Hb1 as [| | | | | |p0 Hx1| | | |]; subst.
    inversion H' as [| | | | | | |r1 r2 p0 m t Hcap Hb2| | |]; subst.
    inversion Hcap as [| | | | | | | | | |r p0 m' Halt]; subst.
    inversion Hb2 as [| | | | | |p0 Hx2| | | |]; subst.
    apply alternation_Matches in Halt as (r & Hr & Hm); [|apply keywords_nonempty].
    apply list_elem_of_fmap in Hr as (w & -> & Hw).
    apply keyword_Matches in Hm as (word & Hr & Hi & Hp & Hc). simpl in *.
    exists pre, word, (rest m'), w. subst suf.
    rewrite wordBefore_unit, wordAfter_unit in Hx1, Hx2. simpl in *.
    repeat split; [done..| |]; [done|].
    rewrite Hp in Hx2. unfold unitBefore in Hx2 at 1.
    rewrite last_app. destruct (last word); [done|]. by destruct (last pre).
  - intros (pre & word & suf & w & -> & Hw & Hi & Hb1 & Hb2).
    exists pre, (word ++ suf).
    eexists. split; [done|].
    eapply Matches_Cat; [apply Matches_WordB|].
    { by rewrite wordBefore_unit, wordAfter_unit. }
    eapply Matches_Cat.
    + apply Matches_Cap, alternation_Matches; [apply keywords_nonempty|].
      exists (keyword w). split; [by apply list_elem_of_fmap_2|].
      apply (keyword_Matches w (mkPos (last pre) (word ++ suf) [])
               (mkPos (unitBefore (last pre) word) suf [])).
      exists word. by repeat split.
    + apply Matches_WordB. rewrite wordBefore_unit, wordAfter_unit. simpl.
      rewrite last_app in Hb2. unfold unitBefore.
      destruct (last word); [done|]. by destruct (last pre).
Qed.
End WordPatterns.

(* ===================================================================== *)
(** * The retry wrapper                                                  *)
(* ===================================================================== *)

Section FetchWithRetry.
Import Crawl.

(** A response that is neither ok nor 429 nor 5xx is thrown inside the
    [try] block, so the [catch] clause of the same iteration receives it:
    unless it is the last attempt, the loop sleeps and fetches again. *)
Lemma fetchWithRetry_client_error_retried (net : nat → FetchOutcome) (status : Z) :
  net 0%nat = Responded status →
  400 ≤ status ≤ 499 → status ≠ 429 →
  ∃ r evs, fetchWithRetry net = (r, Fetch 0 :: Sleep 200 :: Fetch 1 :: evs).
Proof.
  intros Hnet Hrange Hne. unfold fetchWithRetry.
  change (Z.to_nat MAX_RETRIES) with 4%nat.
  cbn [fetchWithRetry_loop]. change (Z.to_nat 0) with 0%nat. rewrite Hnet.
  replace (ok status) with false by (unfold ok; lia).
  replace ((status =? 429) || (500 <=? status)) with false by lia.
  change (0 =? MAX_RETRIES - 1) with false. cbn [after fst snd app].
  destruct (net (Z.to_nat (0 + 1))) as [s|msg].
  all: repeat match goal with
       | |- context [if ?b then _ else _] => destruct b
       end; cbn [after fst snd app]; eauto.
Qed.

(** C1 fails on the code: when every response is the same 4xx status
    other than 429 (404, say), the wrapper does not fail on the first
    response.  It makes all four attempts, with backoff waits of 200, 400
    and 800 ms between them, and only then does the error reach the
    caller. *)
Theorem fetchWithRetry_client_error_exhausts_retries
    (net : nat → FetchOutcome) (status : Z) :
  (∀ n, net n = Responded status) →
  400 ≤ status ≤ 499 → status ≠ 429 →
  fetchWithRetry net
  = (Thrown (HttpError status),
     [Fetch 0; Sleep 200; Fetch 1; Sleep 400; Fetch 2; Sleep 800; Fetch 3]).
Proof.
  intros Hnet Hrange Hne. unfold fetchWithRetry.
  change (Z.to_nat MAX_RETRIES) with 4%nat.
  cbn [fetchWithRetry_loop]. rewrite !Hnet.
  replace (ok status) with false by (unfold ok; lia).
  replace ((status =? 429) || (500 <=? status)) with false by lia.
  reflexivity.
Qed.

Lemma fetchWithRetry_client_error_exhausts_retries_witness :
  fetchWithRetry (λ _, Responded 404)
  = (Thrown (HttpError 404),
     [Fetch 0; Sleep 200; Fetch 1; Sleep 400; Fetch 2; Sleep 800; Fetch 3]).
Proof.
  apply fetchWithRetry_client_error_exhausts_retries; [reflexivity | lia | lia].
Defined.

(** The retry policy on a server that answers 503 twice and then 200. *)
Example fetchWithRetry_503_503_200 :
  fetchWithRetry (λ n, if decide (n < 2)%nat then Responded 503 else Responded 200)
  = (Returned 200, [Fetch 0; Sleep 200; Fetch 1; Sleep 400; Fetch 2]).
Proof. reflexivity. Qed.
End FetchWithRetry.

(* ===================================================================== *)
(** * The description extractor                                          *)
(* ===================================================================== *)

Section ExtractDescription.
Import JsString FetchDescriptions Spec.

(** C7: on the example document the front matter and the heading are
    dropped, the paragraph stops at the blank line, the emphasis marks go,
    and the result is exactly "This is the description.". *)
Theorem extractDescription_example :
  stripFrontmatter exampleDocument
    = js "# Heading" ++ [LF; LF] ++ js "This is **the** description."
        ++ [LF; LF] ++ js "More text."
  ∧ findStart (split LF (stripFrontmatter exampleDocument)) 0 = 1
  ∧ firstParagraph exampleDocument = [js "This is **the** description."]
  ∧ extractDescription exampleDocument = Some (js "This is the description.").
Proof. repeat split; vm_compute; reflexivity. Qed.

Lemma len_app (a b : jsstring) : len (a ++ b) = len a + len b.
Proof. unfold len. rewrite length_app. lia. Qed.

Lemma truncate_long (desc : jsstring) :
  200 < len desc →
  truncate desc = take 197 desc ++ js "..." ∧ len (truncate desc) = 200.
Proof.
  intros Hlong. unfold truncate. rewrite (proj2 (Z.ltb_lt _ _) Hlong).
  assert (slice desc 0 197 = take 197 desc) as ->.
  { unfold slice, clampIndex. unfold len in Hlong. simpl.
    rewrite (Z.min_l 197) by lia. rewrite (Z.min_l 0) by lia. done. }
  split; [done|]. rewrite len_app. unfold len in *.
  rewrite length_take. change (Z.of_nat (length (js "..."))) with 3. lia.
Qed.

Lemma truncate_short (desc : jsstring) :
  len desc ≤ 200 → truncate desc = desc.
Proof. intros H. unfold truncate. by rewrite (proj2 (Z.ltb_ge _ _) H). Qed.

Lemma truncate_len (desc : jsstring) : len (truncate desc) ≤ 200.
Proof.
  destruct (decide (200 < len desc)) as [H|H].
  - destruct (truncate_long desc H) as [_ ->]. lia.
  - rewrite truncate_short; lia.
Qed.

(** C8: a description that is returned has between 11 and 200 code
    units.  With [desc] the cleaned paragraph: if it has fewer than 11
    units the result is null, if it has more than 200 the result is its
    first 197 units followed by "...", 200 units in all, and otherwise it
    is returned as it is. *)
Theorem extractDescription_length (md : jsstring) :
  (∀ d, extractDescription md = Some d → 11 ≤ len d ≤ 200)
  ∧ (firstParagraph md = [] → extractDescription md = None)
  ∧ let desc := cleanMarkdown (join (js " ") (firstParagraph md)) in
    firstParagraph md ≠ [] →
      (len desc < 11 → extractDescription md = None)
      ∧ (11 ≤ len desc ≤ 200 → extractDescription md = Some desc)
      ∧ (200 < len desc →
           extractDescription md = Some (take 197 desc ++ js "...")
           ∧ len (take 197 desc ++ js "...") = 200).
Proof.
  unfold extractDescription. split; [|split].
  - intros d. destruct (_ =? 0); [done|].
    destruct (10 <? len _) eqn:Hlen; [|done].
    intros Heq. apply (inj Some) in Heq. rewrite <- Heq.
    apply Z.ltb_lt in Hlen.
    pose proof (truncate_len (cleanMarkdown (join (js " ") (firstParagraph md)))).
    lia.
  - by intros ->.
  - cbv zeta. intros Hne.
    set (desc := cleanMarkdown (join (js " ") (firstParagraph md))).
    replace (Z.of_nat (length (firstParagraph md)) =? 0) with false
      by (destruct (firstParagraph md); [done | simpl; lia]).
    split; [|split].
    + intros Hs. rewrite truncate_short by lia.
      by rewrite (proj2 (Z.ltb_ge _ _)) by lia.
    + intros Hs. rewrite truncate_short by lia.
      by rewrite (proj2 (Z.ltb_lt _ _)) by lia.
    + intros Hs. destruct (truncate_long desc Hs) as [Ht Hl].
      rewrite Ht in Hl. rewrite Ht, Hl. done.
Qed.
Lemma extractDescription_length_witness :
  11 ≤ len (js "This is the description.") ≤ 200
  ∧ extractDescription (js "# Title") = None
  ∧ extractDescription (js "Hi.") = None
  ∧ extractDescription exampleDocument = Some (js "This is the description.")
  ∧ len (take 197 (cleanMarkdown (join (js " ") (firstParagraph longDocument)))
           ++ js "...") = 200.
Proof.
  split; [|split; [|split; [|split]]].
  - apply (proj1 (extractDescription_length exampleDocument)).
    vm_compute. reflexivity.
  - apply (proj1 (proj2 (extractDescription_length (js "# Title")))).
    vm_compute. reflexivity.
  - apply (proj2 (proj2 (extractDescription_length (js "Hi.")))).
    + vm_compute. discriminate.
    + vm_compute. reflexivity.
  - apply (proj2 (proj2 (extractDescription_length exampleDocument))).
    + vm_compute. discriminate.
    + vm_compute. split; discriminate.
  - apply (proj2 (proj2 (extractDescription_length longDocument))).
    + vm_compute. discriminate.
    + vm_compute. reflexivity.
Defined.
End ExtractDescription.

(* ===================================================================== *)
(** * The crawler                                                        *)
(* ===================================================================== *)

Section CollectSkills.
Import JsString Crawl Spec.
Implicit Types (rows : list ApiSkill.t) (m : JsMap.t ApiSkill.t) (id : jsstring).

Lemma collectSkills_scanned boardData :
  collectSkills boardData = foldl addSkill JsMap.empty (scanned boardData).
Proof. unfold collectSkills, scanned. simpl. by rewrite !foldl_app. Qed.

Lemma addSkill_unfold m s :
  addSkill m s
  = match JsMap.get (skillKey s) m with
    | Some _ => m
    | None => m ++ [(skillKey s, s)]
    end.
Proof.
  unfold addSkill, JsMap.has.
  destruct (JsMap.get (skillKey s) m) eqn:Hget; simpl; [done|].
  by apply JsMap_set_new.
Qed.

Lemma rowsWith_snoc id rows s :
  rowsWith id (rows ++ [s])
  = rowsWith id rows ++ (if decide (skillKey s = id) then [s] else []).
Proof.
  unfold rowsWith. by rewrite filter_app.
Qed.

Lemma keys_snoc {V} (m : JsMap.t V) k v : JsMap.keys (m ++ [(k, v)]) = JsMap.keys m ++ [k].
Proof. unfold JsMap.keys. by rewrite fmap_app. Qed.

Lemma get_snoc {V} (m : JsMap.t V) k v id :
  JsMap.get id (m ++ [(k, v)])
  = match JsMap.get id m with
    | Some x => Some x
    | None => if decide (k = id) then Some v else None
    end.
Proof.
  induction m as [|[k0 v0] m IH]; simpl; [done|].
  by destruct (decide (k0 = id)).
Qed.

(** The skill map holds, for every id, the first row that bears it. *)
Lemma collected_get id rows :
  JsMap.get id (foldl addSkill JsMap.empty rows) = firstRow id rows.
Proof.
  unfold firstRow. induction rows as [|s rows IH] using rev_ind; [done|].
  rewrite foldl_snoc, rowsWith_snoc, head_app, <- IH, addSkill_unfold.
  destruct (JsMap.get (skillKey s) _) eqn:Hs.
  - destruct (JsMap.get id _) eqn:Hid; [done|].
    destruct (decide (skillKey s = id)); [congruence | done].
  - rewrite get_snoc. destruct (JsMap.get id _); [done|].
    by destruct (decide (skillKey s = id)).
Qed.

Lemma firstRow_None id rows : firstRow id rows = None ↔ id ∉ skillKey <$> rows.
Proof.
  unfold firstRow, rowsWith. rewrite head_None. split.
  - intros Hnil (s & -> & Hin)%list_elem_of_fmap.
    assert (s ∈ filter (λ s0, skillKey s0 = skillKey s) rows) as Hs
      by (by apply list_elem_of_filter).
    rewrite Hnil in Hs. by apply elem_of_nil in Hs.
  - intros Hnot. destruct (filter _ rows) as [|s l] eqn:Hf; [done|]. exfalso.
    assert (s ∈ filter (λ s0, skillKey s0 = id) rows) as Hs
      by (rewrite Hf; left).
    apply list_elem_of_filter in Hs as [<- Hin].
    apply Hnot, list_elem_of_fmap. eauto.
Qed.

Lemma firstRow_Some id rows s :
  firstRow id rows = Some s → skillKey s = id ∧ s ∈ rows.
Proof.
  unfold firstRow. intros Hs%head_Some_elem_of.
  by apply list_elem_of_filter in Hs.
Qed.

Lemma collected_keys id rows :
  id ∈ JsMap.keys (foldl addSkill JsMap.empty rows) ↔ id ∈ skillKey <$> rows.
Proof.
  pose proof (JsMap_get_None id (foldl addSkill JsMap.empty rows)) as H1.
  pose proof (firstRow_None id rows) as H2.
  rewrite collected_get in H1.
  destruct (decide (id ∈ JsMap.keys (foldl addSkill JsMap.empty rows)));
    destruct (decide (id ∈ skillKey <$> rows)); naive_solver.
Qed.

Lemma collected_NoDup rows : NoDup (JsMap.keys (foldl addSkill JsMap.empty rows)).
Proof.
  induction rows as [|s rows IH] using rev_ind; [constructor|].
  rewrite foldl_snoc, addSkill_unfold.
  destruct (JsMap.get (skillKey s) _) eqn:Hs; [done|].
  rewrite keys_snoc. apply NoDup_app. split; [done|]. split.
  - intros k Hk ->%list_elem_of_singleton. by apply JsMap_get_None in Hs.
  - apply NoDup_singleton.
Qed.

Lemma collected_entry id s rows :
  (id, s) ∈ foldl addSkill JsMap.empty rows → firstRow id rows = Some s.
Proof.
  intros Hin. rewrite <- collected_get.
  apply JsMap_get_elem_of; [apply collected_NoDup | done].
Qed.

Lemma firstIndex_snoc_old id rows s p :
  firstIndex id rows = Some p → firstIndex id (rows ++ [s]) = Some p.
Proof.
  unfold firstIndex. intros ([i x] & Hf & ->)%fmap_Some.
  by rewrite (list_find_app_l _ _ _ _ _ Hf).
Qed.

Lemma firstIndex_is_Some id rows :
  id ∈ skillKey <$> rows → ∃ p, firstIndex id rows = Some p ∧ (p < length rows)%nat.
Proof.
  intros (s & -> & Hin)%list_elem_of_fmap. unfold firstIndex.
  destruct (list_find_elem_of (λ s0, skillKey s0 = skillKey s) rows s Hin eq_refl)
    as [[i x] Hf].
  rewrite Hf. exists i. split; [done|].
  apply list_find_Some in Hf as (Hl & _). by apply lookup_lt_Some in Hl.
Qed.

Lemma firstIndex_snoc_new rows s :
  skillKey s ∉ skillKey <$> rows →
  firstIndex (skillKey s) (rows ++ [s]) = Some (length rows).
Proof.
  intros Hnew. unfold firstIndex. rewrite list_find_app_r.
  - simpl. rewrite decide_True by done. done.
  - apply list_find_None, Forall_forall. intros x Hx Heq.
    apply Hnew, list_elem_of_fmap. eauto.
Qed.

(** The skill map lists the ids in the order in which they are first met. *)
Lemma collected_order rows :
  StronglySorted (metBefore rows) (JsMap.keys (foldl addSkill JsMap.empty rows)).
Proof.
  induction rows as [|s rows IH] using rev_ind; [constructor|].
  assert (StronglySorted (metBefore (rows ++ [s]))
            (JsMap.keys (foldl addSkill JsMap.empty rows))) as IH'.
  { clear -IH. induction IH as [|k l Hl IHl Hk]; constructor; [done|].
    eapply Forall_impl; [exact Hk|].
    intros k' (p & q & Hp & Hq & Hlt). exists p, q.
    eauto using firstIndex_snoc_old. }
  rewrite foldl_snoc, addSkill_unfold.
  destruct (JsMap.get (skillKey s) _) eqn:Hs; [done|].
  rewrite keys_snoc. apply StronglySorted_app_2; [|done|repeat constructor].
  intros k1 k2 Hk1 ->%list_elem_of_singleton.
  apply JsMap_get_None in Hs.
  assert (skillKey s ∉ skillKey <$> rows) as Hnew by (by rewrite <- collected_keys).
  apply collected_keys, firstIndex_is_Some in Hk1 as (p & Hp & Hlt).
  exists p, (length rows). eauto using firstIndex_snoc_old, firstIndex_snoc_new.
Qed.
End CollectSkills.

Section FirstSeen.
Import JsString Crawl Spec.
Implicit Types (fs : JsMap.t jsstring) (id now : jsstring).

Lemma updateFirstSeen_get now ids fs id :
  JsMap.get id (updateFirstSeen now ids fs)
  = match JsMap.get id fs with
    | Some t => Some t
    | None => if decide (id ∈ ids) then Some now else None
    end.
Proof.
  unfold updateFirstSeen. revert fs.
  induction ids as [|k ids IH]; intros fs; cbn [foldl].
  - destruct (JsMap.get id fs); [done|].
    by destruct (decide (id ∈ [])) as [?%elem_of_nil|].
  - rewrite IH. destruct (JsMap.has k fs) eqn:Hk; cbn [negb].
    + apply JsMap_has_get in Hk as [t Hk].
      destruct (JsMap.get id fs) eqn:Hid; [done|].
      assert (id ≠ k) by congruence.
      repeat case_decide; try done; set_solver.
    + rewrite JsMap_get_set. apply JsMap_has_false in Hk.
      destruct (decide (k = id)) as [->|Hne].
      * rewrite Hk. destruct (decide (id ∈ id :: ids)) as [|Hn]; [done|]. destruct Hn. left.
      * destruct (JsMap.get id fs); [done|].
        repeat case_decide; try done; set_solver.
Qed.

Lemma updateFirstSeen_NoDup now ids fs :
  NoDup (JsMap.keys fs) → NoDup (JsMap.keys (updateFirstSeen now ids fs)).
Proof.
  unfold updateFirstSeen. revert fs.
  induction ids as [|k ids IH]; intros fs Hnd; simpl; [done|].
  apply IH. destruct (JsMap.has k fs) eqn:Hk; simpl; [done|].
  apply JsMap_has_false in Hk. rewrite (JsMap_set_new _ _ _ Hk), keys_snoc.
  apply NoDup_app. split; [done|]. split; [|apply NoDup_singleton].
  intros k' Hk' ->%list_elem_of_singleton. by apply JsMap_get_None in Hk.
Qed.

Lemma loadFirstSeen_NoDup file : NoDup (JsMap.keys (loadFirstSeen file)).
Proof.
  destruct file as [obj|]; simpl; [|constructor].
  unfold JsObject.entries.
  rewrite JsMap_fromEntries_NoDup; apply NoDup_fst_map_to_list.
Qed.

(** The loaded map holds what the file holds. *)
Lemma loadFirstSeen_get file id :
  JsMap.get id (loadFirstSeen file) = persisted file id.
Proof.
  destruct file as [obj|]; simpl; [|done].
  apply option_eq. intros t.
  rewrite JsMap_get_elem_of by apply (loadFirstSeen_NoDup (Some obj)).
  unfold JsObject.entries.
  rewrite JsMap_fromEntries_NoDup by apply NoDup_fst_map_to_list.
  apply elem_of_map_to_list.
Qed.

(** The saved file holds what the map holds, whatever the comparison. *)
Lemma saveFirstSeen_lookup localeCompare fs id :
  NoDup (JsMap.keys fs) →
  saveFirstSeen localeCompare fs !! id = JsMap.get id fs.
Proof.
  intros Hnd. apply option_eq. intros t. unfold saveFirstSeen, JsMap.entries.
  set (cmp := λ a b : jsstring * jsstring, localeCompare a.1 b.1).
  rewrite JsObject_fromEntries_lookup.
  - rewrite (sort_Permutation cmp fs). symmetry. by apply JsMap_get_elem_of.
  - unfold JsMap.keys in Hnd. by rewrite (sort_Permutation cmp fs).
Qed.

(** The first-seen file after a run, id by id. *)
Lemma firstSeenFile_lookup localeCompare boardData file now id :
  firstSeenFile (main localeCompare boardData file now) !! id
  = match persisted file id with
    | Some t => Some t
    | None => if decide (id ∈ skillKey <$> scanned boardData) then Some now else None
    end.
Proof.
  unfold main. cbn [firstSeenFile].
  rewrite saveFirstSeen_lookup
    by apply updateFirstSeen_NoDup, loadFirstSeen_NoDup.
  rewrite updateFirstSeen_get, loadFirstSeen_get.
  destruct (persisted file id); [done|].
  rewrite collectSkills_scanned.
  destruct (decide (id ∈ JsMap.keys _)) as [Hin|Hin];
    rewrite collected_keys in Hin.
  - by rewrite decide_True.
  - by rewrite decide_False.
Qed.

(** C2: an id that the first-seen file held before the run keeps its
    timestamp in the file written by the run, and an id met during the
    run that the file did not hold gets the timestamp of the run. *)
Theorem firstSeen_append_only localeCompare boardData file now :
  let saved := firstSeenFile (main localeCompare boardData file now) in
  (∀ id t, persisted file id = Some t → saved !! id = Some t)
  ∧ (∀ id, id ∈ skillKey <$> scanned boardData →
           persisted file id = None → saved !! id = Some now).
Proof.
  cbv zeta. split.
  - intros id t Hp. by rewrite firstSeenFile_lookup, Hp.
  - intros id Hin Hp. rewrite firstSeenFile_lookup, Hp.
    by rewrite decide_True.
Qed.

Lemma firstSeen_append_only_witness :
  firstSeenFile (main compareUnits sampleBoards sampleFirstSeen sampleNow)
    !! js "a/b" = Some (js "2024-01-01T00:00:00Z")
  ∧ firstSeenFile (main compareUnits sampleBoards sampleFirstSeen sampleNow)
    !! js "c/d" = Some sampleNow.
Proof.
  split.
  - apply (proj1 (firstSeen_append_only compareUnits sampleBoards
                    sampleFirstSeen sampleNow)).
    vm_compute. reflexivity.
  - apply (proj2 (firstSeen_append_only compareUnits sampleBoards
                    sampleFirstSeen sampleNow)).
    + vm_compute. right. left.
    + vm_compute. reflexivity.
Defined.
End FirstSeen.

Section Installs.
Import JsString Crawl Spec.

Lemma installsOf_snoc rows s :
  installsOf (rows ++ [s])
  = <[skillKey s := Z.max (default 0 (installsOf rows !! skillKey s)) (ApiSkill.installs s)]>
      (installsOf rows).
Proof. unfold installsOf. by rewrite foldl_snoc. Qed.

Lemma IsMax_snoc v x l : IsMax v l → IsMax (Z.max v x) (l ++ [x]).
Proof.
  intros [Hin Hle]. split.
  - destruct (Z.max_spec v x) as [[_ ->]|[_ ->]]; set_solver.
  - apply Forall_app. split.
    + eapply Forall_impl; [exact Hle|]. simpl. intros; lia.
    + constructor; [lia | constructor].
Qed.

Lemma IsMax_unique v w l : IsMax v l → IsMax w l → v = w.
Proof.
  intros [Hv Hlv] [Hw Hlw]. rewrite Forall_forall in Hlv, Hlw.
  apply Hlw in Hv. apply Hlv in Hw. lia.
Qed.

(** The install count map of a board, id by id. *)
Lemma installsOf_lookup rows id :
  match installsOf rows !! id with
  | None => rowsWith id rows = []
  | Some v =>
      rowsWith id rows ≠ []
      ∧ IsMax v (0 :: (ApiSkill.installs <$> rowsWith id rows))
  end.
Proof.
  induction rows as [|s rows IH] using rev_ind; [done|].
  rewrite installsOf_snoc, rowsWith_snoc.
  destruct (decide (skillKey s = id)) as [->|Hne].
  - rewrite lookup_insert_eq. split; [by destruct (rowsWith _ rows)|].
    rewrite fmap_app. simpl.
    apply (IsMax_snoc _ _ (0 :: (ApiSkill.installs <$> rowsWith id rows))).
    destruct (installsOf rows !! id) as [v|]; simpl.
    + by destruct IH.
    + rewrite IH. split; [left | constructor; [lia | constructor]].
  - rewrite lookup_insert_ne by done. by rewrite app_nil_r.
Qed.

(** When one of the rows of an id has a count that is not negative, the
    recorded count is the maximum over the rows of that id. *)
Lemma installs_max_nonnegative rows id v :
  (∃ s, s ∈ rowsWith id rows ∧ 0 ≤ ApiSkill.installs s) →
  installsOf rows !! id = Some v →
  IsMax v (ApiSkill.installs <$> rowsWith id rows).
Proof.
  intros (s & Hs & Hpos) Hv. pose proof (installsOf_lookup rows id) as H.
  rewrite Hv in H. destruct H as [_ [Hin Hle]].
  apply Forall_cons in Hle as [H0 Hle]. split; [|done].
  apply elem_of_cons in Hin as [->|Hin]; [|done].
  rewrite Forall_forall in Hle.
  assert (ApiSkill.installs s ≤ 0) as Hs0
    by (apply Hle, list_elem_of_fmap; eauto).
  replace 0 with (ApiSkill.installs s) by lia.
  apply list_elem_of_fmap; eauto.
Qed.

(** C3, as amended: on each board, the count recorded for an id is the
    maximum of 0 and the installs of the rows of that board with that id,
    and so the maximum of the installs of those rows as soon as one of
    them is not negative; an id without a row on the board has no
    entry. *)
Theorem installs_max_merge (boardData : Board → list ApiSkill.t) (board : Board)
    (id : jsstring) :
  let rows := boardData board in
  (rowsWith id rows = [] → installsOf rows !! id = None)
  ∧ (rowsWith id rows ≠ [] →
     ∃ v, installsOf rows !! id = Some v
          ∧ IsMax v (0 :: (ApiSkill.installs <$> rowsWith id rows))
          ∧ (Exists (λ s, 0 ≤ ApiSkill.installs s) (rowsWith id rows) →
             IsMax v (ApiSkill.installs <$> rowsWith id rows))).
Proof.
  cbv zeta.
  pose proof (installsOf_lookup (boardData board) id) as H.
  destruct (installsOf (boardData board) !! id) as [v|] eqn:Hv; split; try done.
  - intros Hnil. by destruct H.
  - intros Hne. exists v. split; [done|]. split; [by destruct H|].
    intros (s & Hs & Hpos)%Exists_exists.
    apply (installs_max_nonnegative (boardData board)); [by exists s | done].
Qed.

Lemma installs_max_merge_witness :
  installsOf (sampleBoards Hot) !! js "a/b" = None
  ∧ ∃ v, installsOf (sampleBoards AllTime) !! js "a/b" = Some v
         ∧ IsMax v (ApiSkill.installs <$> rowsWith (js "a/b") (sampleBoards AllTime)).
Proof.
  split.
  - apply (proj1 (installs_max_merge sampleBoards Hot (js "a/b"))).
    vm_compute. reflexivity.
  - destruct (proj2 (installs_max_merge sampleBoards AllTime (js "a/b")))
      as (v & Hv & _ & Hmax); [vm_compute; discriminate|].
    exists v. split; [exact Hv|]. apply Hmax.
    vm_compute. left. discriminate.
Defined.

(** The default 0 of the merge takes part in the maximum: a row with a
    negative number is recorded as 0. *)
Example installsOf_negative_row :
  installsOf negativeRows !! js "a/b" = Some 0.
Proof. vm_compute. reflexivity. Qed.

(** C3, as the claim states it, fails on a board whose only row of an id
    carries a negative number: the count recorded for the id is 0, while
    the maximum of the installs of its rows is -1. *)
Lemma installs_max_merge_counterexample :
  installsOf negativeRows !! js "a/b" = Some 0
  ∧ ApiSkill.installs <$> rowsWith (js "a/b") negativeRows = [-1]
  ∧ ¬ (∃ v, installsOf negativeRows !! js "a/b" = Some v
            ∧ IsMax v (ApiSkill.installs <$> rowsWith (js "a/b") negativeRows)).
Proof.
  split; [vm_compute; reflexivity|]. split; [vm_compute; reflexivity|].
  intros (v & Hv & Hin & _). vm_compute in Hv. apply (inj Some) in Hv. subst v.
  vm_compute in Hin. apply elem_of_cons in Hin as [Hin|Hin]; [discriminate|].
  by apply elem_of_nil in Hin.
Qed.
End Installs.

Section ListOrder.
Context {A : Type}.

Lemma sublist_filter_mono (P : A → Prop) `{!∀ x, Decision (P x)} (l1 l2 : list A) :
  l1 `sublist_of` l2 → filter P l1 `sublist_of` filter P l2.
Proof.
  induction 1 as [|x l1 l2 Hl IH|x l1 l2 Hl IH]; [constructor| |];
    rewrite ?filter_cons; destruct (decide (P x)); eauto using sublist.
Qed.

Lemma StronglySorted_sublist (R : relation A) (l1 l2 : list A) :
  l1 `sublist_of` l2 → StronglySorted R l2 → StronglySorted R l1.
Proof.
  induction 1 as [|x l1 l2 Hl IH|x l1 l2 Hl IH]; intros Hs; [done| |].
  - apply StronglySorted_cons in Hs as [Hx Hs].
    apply StronglySorted_cons. split; [|auto].
    rewrite Forall_forall in *. eauto using elem_of_sublist.
  - apply StronglySorted_cons in Hs as [_ Hs]. auto.
Qed.

(** Two positions of a list, in their order, form a sublist. *)
Lemma sublist_of_lookups (l : list A) (i j : nat) (a b : A) :
  l !! i = Some a → l !! j = Some b → (i < j)%nat → [a; b] `sublist_of` l.
Proof.
  revert i j. induction l as [|x l IH]; intros i j Hi Hj Hlt; [done|].
  destruct i as [|i]; simpl in Hi.
  - injection Hi as ->. destruct j as [|j]; [lia|]. simpl in Hj.
    apply sublist_skip, singleton_sublist_l. by eapply list_elem_of_lookup_2.
  - destruct j as [|j]; [lia|]. simpl in Hj.
    apply sublist_cons, (IH i j); [done..|lia].
Qed.

Lemma StronglySorted_lookups (R : relation A) (l : list A) (i j : nat) (a b : A) :
  StronglySorted R l → l !! i = Some a → l !! j = Some b → (i < j)%nat → R a b.
Proof.
  intros Hs Hi Hj Hlt.
  pose proof (StronglySorted_sublist R _ _ (sublist_of_lookups l i j a b Hi Hj Hlt) Hs) as H.
  apply StronglySorted_cons in H as [H _]. by apply Forall_cons in H as [H _].
Qed.

(** In a list without two elements of the same key, an element is the
    only one with its key. *)
Lemma filter_key_NoDup {K} `{EqDecision K} (f : A → K) (l : list A) (x : A) :
  NoDup (f <$> l) → x ∈ l → filter (λ y, f y = f x) l = [x].
Proof.
  induction l as [|y l IH]; intros Hnd Hin; [by apply elem_of_nil in Hin|].
  rewrite fmap_cons in Hnd. apply NoDup_cons in Hnd as [Hy Hnd].
  rewrite filter_cons. apply elem_of_cons in Hin as [->|Hin].
  - rewrite decide_True by done. f_equal.
    destruct (filter _ l) as [|z l'] eqn:Hf; [done|]. exfalso.
    assert (z ∈ filter (λ y0, f y0 = f y) l) as Hz by (rewrite Hf; left).
    apply list_elem_of_filter in Hz as [Hz1 Hz2].
    apply Hy. rewrite <- Hz1. by apply list_elem_of_fmap_2.
  - rewrite decide_False; [by apply IH|].
    intros Heq. apply Hy. rewrite Heq. by apply list_elem_of_fmap_2.
Qed.
End ListOrder.

Section Index.
Import JsString Crawl Spec.

Variable localeCompare : jsstring → jsstring → Z.
Variable boardData : Board → list ApiSkill.t.
Variable firstSeenOnDisk : option (gmap jsstring jsstring).
Variable now : jsstring.

Let rows := scanned boardData.
Let written := main localeCompare boardData firstSeenOnDisk now.

(** What [buildItem] puts in an item. *)
Lemma buildItem_Some ia it ih fs id s item :
  buildItem ia it ih fs (id, s) = Some item →
  SkillIndexItem.id item = id
  ∧ SkillIndexItem.source item = ApiSkill.source s
  ∧ SkillIndexItem.skillId item = ApiSkill.skillId s
  ∧ SkillIndexItem.title item = ApiSkill.name s
  ∧ linkOf s = Some (SkillIndexItem.link item)
  ∧ SkillIndexItem.installsAllTime item = default 0 (ia !! id)
  ∧ SkillIndexItem.installsTrending item = default 0 (it !! id)
  ∧ SkillIndexItem.installsHot item = default 0 (ih !! id)
  ∧ SkillIndexItem.firstSeenAt item = JsMap.get id fs
  ∧ SkillIndexItem.description item = None
  ∧ SkillIndexItem.skillMdPath item = None.
Proof.
  unfold buildItem, linkOf.
  destruct (Uri.encodeURIComponent (ApiSkill.source s)) as [src|]; [|done].
  destruct (Uri.encodeURIComponent (ApiSkill.skillId s)) as [sid|]; [|done].
  cbn [mbind option_bind]. intros Heq. apply (inj Some) in Heq. subst item.
  repeat split.
Qed.

(** The index of a run that wrote one: the items built from the skill
    map, in its order, then sorted. *)
Lemma index_written idx :
  indexFile written = Some idx →
  ∃ built,
    Forall2 (λ e item,
               buildItem (installsOf (boardData AllTime))
                 (installsOf (boardData Trending)) (installsOf (boardData Hot))
                 (updateFirstSeen now (JsMap.keys (collectSkills boardData))
                    (loadFirstSeen firstSeenOnDisk)) e = Some item)
            (foldl addSkill JsMap.empty rows) built
    ∧ SkillsIndex.items idx = JsArray.sort byInstallsDesc built.
Proof.
  unfold written, main. cbv zeta. cbn [indexFile].
  intros H. apply bind_Some in H as (built & Hbuilt & Hidx).
  apply (inj Some) in Hidx. subst idx. exists built. split; [|done].
  apply mapM_Some_1 in Hbuilt. unfold JsMap.entries in Hbuilt.
  unfold rows. by rewrite <- collectSkills_scanned.
Qed.

Lemma built_ids (built : list SkillIndexItem.t) ia it ih fs (m : JsMap.t ApiSkill.t) :
  Forall2 (λ e item, buildItem ia it ih fs e = Some item) m built →
  SkillIndexItem.id <$> built = JsMap.keys m.
Proof.
  unfold JsMap.keys. induction 1 as [|[id s] item m built Hb _ IH]; [done|].
  rewrite !fmap_cons, IH. f_equal. by apply buildItem_Some in Hb as [-> _].
Qed.

(** The ids of the index are unique: the invariant on which the
    enrichment pass relies. *)
Lemma index_ids_unique idx :
  indexFile written = Some idx →
  NoDup (SkillIndexItem.id <$> SkillsIndex.items idx).
Proof.
  intros (built & Hbuilt & Hitems)%index_written.
  rewrite Hitems, (sort_Permutation byInstallsDesc built).
  rewrite (built_ids _ _ _ _ _ _ Hbuilt). apply collected_NoDup.
Qed.

(** C4: for every id that occurs in a row of some board, the index has
    exactly one item with that id, and its title, source, skillId and
    link are those of the first row with that id in the scan of the
    boards all-time, trending, hot. *)
Theorem index_one_item_per_id idx id :
  indexFile written = Some idx →
  id ∈ skillKey <$> scanned boardData →
  ∃ item s,
    itemsWith id (SkillsIndex.items idx) = [item]
    ∧ firstRow id (scanned boardData) = Some s
    ∧ SkillIndexItem.title item = ApiSkill.name s
    ∧ SkillIndexItem.source item = ApiSkill.source s
    ∧ SkillIndexItem.skillId item = ApiSkill.skillId s
    ∧ linkOf s = Some (SkillIndexItem.link item).
Proof.
  intros (built & Hbuilt & Hitems)%index_written Hid. fold rows in Hid |- *.
  pose proof (built_ids _ _ _ _ _ _ Hbuilt) as Hids.
  apply collected_keys, list_elem_of_fmap in Hid as ([id' s] & -> & Hin).
  simpl. apply list_elem_of_lookup in Hin as [i Hi].
  destruct (Forall2_lookup_l _ _ _ _ _ Hbuilt Hi) as (item & Hitem & Hb).
  apply buildItem_Some in Hb as (Hid & Hsrc & Hsid & Htitle & Hlink & _).
  exists item, s. split; [|split].
  - unfold itemsWith. rewrite Hitems. apply Permutation_singleton_r.
    rewrite (sort_Permutation byInstallsDesc built), <- Hid.
    rewrite (filter_key_NoDup SkillIndexItem.id built item); [done| |].
    + rewrite Hids. apply collected_NoDup.
    + by eapply list_elem_of_lookup_2.
  - apply collected_entry. by eapply list_elem_of_lookup_2.
  - done.
Qed.

Lemma index_items_desc idx :
  indexFile written = Some idx →
  StronglySorted installsDesc (SkillsIndex.items idx).
Proof.
  intros (built & Hbuilt & Hitems)%index_written. rewrite Hitems.
  apply (sort_desc SkillIndexItem.installsAllTime).
Qed.

(** C5: the items are in descending order of [installsAllTime], and of
    two items with the same [installsAllTime] the one that comes first is
    the one whose id is met first in the scan of the boards. *)
Theorem index_sorted_stable idx :
  indexFile written = Some idx →
  StronglySorted installsDesc (SkillsIndex.items idx)
  ∧ ∀ i j a b,
      SkillsIndex.items idx !! i = Some a →
      SkillsIndex.items idx !! j = Some b →
      (i < j)%nat →
      SkillIndexItem.installsAllTime a = SkillIndexItem.installsAllTime b →
      metBefore (scanned boardData) (SkillIndexItem.id a) (SkillIndexItem.id b).
Proof.
  intros Hidx. split; [by apply index_items_desc|].
  destruct (index_written idx Hidx) as (built & Hbuilt & Hitems). rewrite Hitems.
  intros i j a b Hi Hj Hlt Heq.
  pose proof (sublist_of_lookups _ _ _ _ _ Hi Hj Hlt) as Hsub.
  pose proof (sort_stable SkillIndexItem.installsAllTime
                (SkillIndexItem.installsAllTime a) built) as Hstable.
  apply (sublist_filter_mono
           (λ x, SkillIndexItem.installsAllTime x = SkillIndexItem.installsAllTime a))
    in Hsub.
  unfold byInstallsDesc in Hsub. rewrite Hstable in Hsub.
  rewrite !filter_cons, filter_nil in Hsub.
  rewrite decide_True in Hsub by done. rewrite decide_True in Hsub by done.
  assert ([a; b] `sublist_of` built) as Hsub'
    by (etrans; [exact Hsub | apply sublist_filter]).
  apply (fmap_sublist SkillIndexItem.id) in Hsub'.
  rewrite (built_ids _ _ _ _ _ _ Hbuilt) in Hsub'.
  pose proof (StronglySorted_sublist _ _ _ Hsub' (collected_order rows)) as Hs.
  apply StronglySorted_cons in Hs as [Hs _]. by apply Forall_cons in Hs as [Hs _].
Qed.

Lemma rowsWith_nil id l : id ∉ skillKey <$> l → rowsWith id l = [].
Proof. intros H%firstRow_None. by apply head_None. Qed.

Lemma installs_absent id l : id ∉ skillKey <$> l → default 0 (installsOf l !! id) = 0.
Proof.
  intros Hnil%rowsWith_nil. pose proof (installsOf_lookup l id) as H.
  destruct (installsOf l !! id); [by destruct H | done].
Qed.

(** C10: an item whose id has no row on a board has the count 0 for that
    board; hence an item whose id has no all-time row stands after every
    item with at least one all-time install. *)
Theorem absent_board_counts_zero idx :
  indexFile written = Some idx →
  (∀ item, item ∈ SkillsIndex.items idx →
     (SkillIndexItem.id item ∉ skillKey <$> boardData AllTime →
      SkillIndexItem.installsAllTime item = 0)
     ∧ (SkillIndexItem.id item ∉ skillKey <$> boardData Trending →
        SkillIndexItem.installsTrending item = 0)
     ∧ (SkillIndexItem.id item ∉ skillKey <$> boardData Hot →
        SkillIndexItem.installsHot item = 0))
  ∧ (∀ i j a b,
       SkillsIndex.items idx !! i = Some a →
       SkillsIndex.items idx !! j = Some b →
       1 ≤ SkillIndexItem.installsAllTime a →
       SkillIndexItem.id b ∉ skillKey <$> boardData AllTime →
       (i < j)%nat).
Proof.
  intros Hidx.
  assert (∀ item, item ∈ SkillsIndex.items idx →
     (SkillIndexItem.id item ∉ skillKey <$> boardData AllTime →
      SkillIndexItem.installsAllTime item = 0)
     ∧ (SkillIndexItem.id item ∉ skillKey <$> boardData Trending →
        SkillIndexItem.installsTrending item = 0)
     ∧ (SkillIndexItem.id item ∉ skillKey <$> boardData Hot →
        SkillIndexItem.installsHot item = 0)) as Hzero.
  { destruct (index_written idx Hidx) as (built & Hbuilt & Hitems).
    intros item Hin. rewrite Hitems, (sort_Permutation byInstallsDesc built) in Hin.
    apply list_elem_of_lookup in Hin as [i Hi].
    destruct (Forall2_lookup_r _ _ _ _ _ Hbuilt Hi) as ([id s] & _ & Hb).
    apply buildItem_Some in Hb as (-> & _ & _ & _ & _ & -> & -> & -> & _).
    auto using installs_absent. }
  split; [done|]. intros i j a b Hi Hj Ha Hb.
  assert (SkillIndexItem.installsAllTime b = 0) as Hb0.
  { apply Hzero; [|done]. by eapply list_elem_of_lookup_2. }
  pose proof (index_items_desc idx Hidx) as Hsorted.
  destruct (decide (i < j)%nat) as [|Hge]; [done|]. exfalso.
  destruct (decide (i = j)) as [->|Hne].
  - assert (a = b) by congruence. subst. lia.
  - pose proof (StronglySorted_lookups _ _ j i b a Hsorted Hj Hi ltac:(lia)) as H.
    unfold installsDesc in H. lia.
Qed.
End Index.

Section IndexWitnesses.
Import JsString Crawl Spec.

Lemma index_one_item_per_id_witness :
  ∃ idx,
    indexFile (main compareUnits sampleBoards sampleFirstSeen sampleNow) = Some idx
    ∧ ∃ item s,
        itemsWith (js "a/b") (SkillsIndex.items idx) = [item]
        ∧ firstRow (js "a/b") (scanned sampleBoards) = Some s
        ∧ SkillIndexItem.title item = ApiSkill.name s
        ∧ SkillIndexItem.source item = ApiSkill.source s
        ∧ SkillIndexItem.skillId item = ApiSkill.skillId s
        ∧ linkOf s = Some (SkillIndexItem.link item).
Proof.
  eexists. split; [vm_compute; reflexivity|].
  apply (index_one_item_per_id compareUnits sampleBoards sampleFirstSeen sampleNow).
  - vm_compute. reflexivity.
  - vm_compute. left.
Defined.

Lemma index_sorted_stable_witness :
  ∃ idx a b,
    indexFile (main compareUnits sampleBoards sampleFirstSeen sampleNow) = Some idx
    ∧ SkillsIndex.items idx !! 2%nat = Some a
    ∧ SkillsIndex.items idx !! 3%nat = Some b
    ∧ StronglySorted installsDesc (SkillsIndex.items idx)
    ∧ metBefore (scanned sampleBoards) (SkillIndexItem.id a) (SkillIndexItem.id b).
Proof.
  eexists _, _, _. split; [vm_compute; reflexivity|].
  split; [vm_compute; reflexivity|]. split; [vm_compute; reflexivity|].
  pose proof (index_sorted_stable compareUnits sampleBoards sampleFirstSeen
                sampleNow _ ltac:(vm_compute; reflexivity)) as [Hsorted Hstable].
  split; [exact Hsorted|].
  eapply (Hstable 2%nat 3%nat);
    [vm_compute; reflexivity | vm_compute; reflexivity | lia | vm_compute; reflexivity].
Defined.

Lemma absent_board_counts_zero_witness :
  ∃ idx a b,
    indexFile (main compareUnits sampleBoards sampleFirstSeen sampleNow) = Some idx
    ∧ SkillsIndex.items idx !! 0%nat = Some a
    ∧ SkillsIndex.items idx !! 2%nat = Some b
    ∧ SkillIndexItem.installsAllTime b = 0
    ∧ (0 < 2)%nat.
Proof.
  eexists _, _, _. split; [vm_compute; reflexivity|].
  split; [vm_compute; reflexivity|]. split; [vm_compute; reflexivity|].
  pose proof (absent_board_counts_zero compareUnits sampleBoards sampleFirstSeen
                sampleNow _ ltac:(vm_compute; reflexivity)) as [Hzero Horder].
  split.
  - apply Hzero.
    + vm_compute. right. right. left.
    + vm_compute. intros H. repeat (apply elem_of_cons in H as [H|H]; [discriminate|]).
      by apply elem_of_nil in H.
  - eapply (Horder 0%nat 2%nat);
      [vm_compute; reflexivity | vm_compute; reflexivity | vm_compute; discriminate |].
    vm_compute. intros H. repeat (apply elem_of_cons in H as [H|H]; [discriminate|]).
    by apply elem_of_nil in H.
Defined.
End IndexWitnesses.

(* ===================================================================== *)
(** * The enrichment pass                                                *)
(* ===================================================================== *)

Section Enrichment.
Import JsString Spec FetchDescriptions.

Lemma slice_sublist {A} (l : list A) (from to : Z) : slice l from to `sublist_of` l.
Proof. unfold slice. etrans; [apply sublist_take | apply sublist_drop]. Qed.

Lemma needsFetch_sublist TOP_N index :
  needsFetch TOP_N index `sublist_of` SkillsIndex.items index.
Proof. unfold needsFetch. etrans; [apply sublist_filter | apply slice_sublist]. Qed.

Lemma NoDup_fmap_eq {A K} (f : A → K) (l : list A) (x y : A) :
  NoDup (f <$> l) → x ∈ l → y ∈ l → f x = f y → x = y.
Proof.
  induction l as [|z l IH]; intros Hnd Hx Hy Heq; [by apply elem_of_nil in Hx|].
  rewrite fmap_cons in Hnd. apply NoDup_cons in Hnd as [Hz Hnd].
  apply elem_of_cons in Hx as [->|Hx]; apply elem_of_cons in Hy as [->|Hy]; auto.
  - destruct Hz. rewrite Heq. by apply list_elem_of_fmap_2.
  - destruct Hz. rewrite <- Heq. by apply list_elem_of_fmap_2.
Qed.

(** A pool without a worker leaves holes, on which [new Map] throws;
    otherwise every item to fetch has its result. *)
Lemma pool_results {T R} (items : list T) (concurrency : Z) (fn : T → R) entries :
  mapM (λ r : option R, r) (processPool items concurrency fn) = Some entries →
  entries = fn <$> items.
Proof.
  unfold processPool. destruct (0 <? _).
  - rewrite mapM_fmap_Some by done. congruence.
  - destruct items; cbn; [|done]. intros Heq. by apply (inj Some) in Heq.
Qed.

Section Run.
Variables (TOP_N CONCURRENCY : Z) (fn : SkillIndexItem.t → Fetched).
Variables (index index' : SkillsIndex.t).
Hypothesis unique_ids : NoDup (SkillIndexItem.id <$> SkillsIndex.items index).
Hypothesis run : main TOP_N CONCURRENCY fn index = Some index'.

Let descMap : JsMap.t Fetched :=
  (λ item, (SkillIndexItem.id item, fn item)) <$> needsFetch TOP_N index.

Lemma main_items :
  SkillsIndex.items index' = patch descMap <$> SkillsIndex.items index.
Proof.
  unfold main in run. apply bind_Some in run as (entries & Hpool & Hidx).
  apply (inj Some) in Hidx. subst index'. cbn [SkillsIndex.items].
  apply pool_results in Hpool. subst entries.
  rewrite JsMap_fromEntries_NoDup; [done|].
  rewrite <- list_fmap_compose.
  eapply sublist_NoDup; [exact unique_ids|].
  apply fmap_sublist, needsFetch_sublist.
Qed.

Lemma descMap_NoDup : NoDup (JsMap.keys descMap).
Proof.
  unfold JsMap.keys, descMap. rewrite <- list_fmap_compose.
  eapply sublist_NoDup; [exact unique_ids|].
  apply fmap_sublist, needsFetch_sublist.
Qed.

(** The result found for an item is the result of its own fetch. *)
Lemma descMap_get item :
  item ∈ SkillsIndex.items index →
  JsMap.get (SkillIndexItem.id item) descMap
  = if decide (item ∈ needsFetch TOP_N index) then Some (fn item) else None.
Proof.
  intros Hitem. destruct (decide (item ∈ needsFetch TOP_N index)) as [Hin|Hout].
  - apply JsMap_get_elem_of; [apply descMap_NoDup|].
    unfold descMap. apply list_elem_of_fmap. eauto.
  - apply JsMap_get_None. unfold JsMap.keys, descMap.
    rewrite <- list_fmap_compose.
    intros (x & Hid & Hx)%list_elem_of_fmap. simpl in Hid.
    assert (item = x) as ->; [|done].
    eapply NoDup_fmap_eq; [exact unique_ids | done | | done].
    eapply elem_of_sublist; [exact Hx | apply needsFetch_sublist].
Qed.

Lemma patch_item item :
  item ∈ SkillsIndex.items index →
  patch descMap item
  = if decide (fetchedDescription TOP_N fn index item)
    then setDescription item (fn item) else item.
Proof.
  intros Hitem. unfold patch. rewrite (descMap_get _ Hitem).
  destruct (decide (fetchedDescription TOP_N fn index item)) as [[Hin Ht]|Hn].
  - rewrite decide_True by done. by rewrite Ht.
  - destruct (decide (item ∈ needsFetch TOP_N index)) as [Hin|Hout]; [|done].
    destruct (truthy (description (fn item))) eqn:Ht; [|done]. by destruct Hn.
Qed.

Lemma needsFetch_no_description item :
  item ∈ needsFetch TOP_N index → truthy (SkillIndexItem.description item) = false.
Proof. unfold needsFetch. by intros [? _]%list_elem_of_filter. Qed.

(** C6: in an index whose ids are unique, the pass leaves every item
    in its place; an item whose fetch produced a description gets that
    description and its path and keeps all other fields; every other
    item, in particular one whose fetch produced none and one that
    already had a description, is written back as it was; and no
    description becomes null. *)
Theorem enrichment_frame (i : nat) (item : SkillIndexItem.t) :
  SkillsIndex.items index !! i = Some item →
  ∃ item',
    SkillsIndex.items index' !! i = Some item'
    ∧ sameButDescription item item'
    ∧ (fetchedDescription TOP_N fn index item →
         SkillIndexItem.description item' = description (fn item)
         ∧ SkillIndexItem.skillMdPath item' = mdPath (fn item))
    ∧ (¬ fetchedDescription TOP_N fn index item → item' = item)
    ∧ (truthy (description (fn item)) = false → item' = item)
    ∧ (truthy (SkillIndexItem.description item) = true → item' = item)
    ∧ (SkillIndexItem.description item' = None →
         SkillIndexItem.description item = None).
Proof.
  intros Hi. exists (patch descMap item).
  assert (item ∈ SkillsIndex.items index) as Hitem
    by (by eapply list_elem_of_lookup_2).
  split; [by rewrite main_items, list_lookup_fmap, Hi|].
  rewrite (patch_item _ Hitem).
  destruct (decide (fetchedDescription TOP_N fn index item)) as [Hf|Hf].
  - destruct Hf as [Hin Ht].
    pose proof (needsFetch_no_description _ Hin) as Hnone.
    split; [by repeat split|]. split; [done|]. split; [by intros []|].
    split; [congruence|]. split; [congruence|].
    cbn [setDescription SkillIndexItem.description]. intros Hd.
    rewrite Hd in Ht. done.
  - split; [by repeat split|]. split; [done|]. by repeat split.
Qed.
End Run.

Lemma enrichment_frame_witness :
  ∃ index' a,
    main 2000 8 (fetchSkillDescription sampleWorld) sampleIndex = Some index'
    ∧ SkillsIndex.items index' !! 0%nat = Some a
    ∧ SkillIndexItem.description a = Some (js "This is the description.")
    ∧ SkillIndexItem.skillMdPath a = Some (js "data/skills-md/a/b/SKILL.md")
    ∧ SkillsIndex.items index' !! 1%nat = SkillsIndex.items sampleIndex !! 1%nat
    ∧ SkillsIndex.items index' !! 2%nat = SkillsIndex.items sampleIndex !! 2%nat.
Proof.
  assert (NoDup (SkillIndexItem.id <$> SkillsIndex.items sampleIndex)) as Hnd.
  { apply (bool_decide_unpack
             (NoDup (SkillIndexItem.id <$> SkillsIndex.items sampleIndex))).
    vm_compute. exact I. }
  eexists _, _. split; [vm_compute; reflexivity|].
  pose proof (enrichment_frame 2000 8 (fetchSkillDescription sampleWorld)
                sampleIndex _ Hnd ltac:(vm_compute; reflexivity)) as Hframe.
  destruct (Hframe 0%nat _ eq_refl) as (a' & Ha & _ & Hfetched & _).
  destruct (Hframe 1%nat _ eq_refl) as (c' & Hc & _ & _ & _ & _ & Hkept & _).
  destruct (Hframe 2%nat _ eq_refl) as (e' & He & _ & _ & _ & Hfailed & _).
  split; [vm_compute; reflexivity|].
  vm_compute in Ha. apply (inj Some) in Ha. subst a'.
  destruct Hfetched as [Hdesc Hpath].
  { split; [vm_compute; left | vm_compute; reflexivity]. }
  split; [rewrite Hdesc; vm_compute; reflexivity|].
  split; [rewrite Hpath; vm_compute; reflexivity|].
  split.
  - rewrite Hc, Hkept; [reflexivity | vm_compute; reflexivity].
  - rewrite He, Hfailed; [reflexivity | vm_compute; reflexivity].
Defined.
End Enrichment.

(* ===================================================================== *)
(** * The categorizer                                                    *)
(* ===================================================================== *)

Section Categorizer.
Import JsString RegExp Categorize.

Lemma search_unfold ignoreCase r prev s :
  search ignoreCase r prev s
  = match matchAt ignoreCase r prev s with
    | Some _ => true
    | None =>
        match s with
        | c :: s' => search ignoreCase r (Some c) s'
        | [] => false
        end
    end.
Proof. by destruct s. Qed.

(** A match found in a suffix, whatever precedes the suffix, is found in
    the whole text. *)
Lemma search_suffix ignoreCase r prev pre s :
  (∀ prev', search ignoreCase r prev' s = true) →
  search ignoreCase r prev (pre ++ s) = true.
Proof.
  intros Hs. revert prev. induction pre as [|c pre IH]; intros prev; [apply Hs|].
  rewrite search_unfold. destruct (matchAt _ _ _ _); [done|]. apply IH.
Qed.

Lemma firstMatch_at rules text i category pattern :
  rules !! i = Some (category, pattern) →
  test true pattern text = true →
  (∀ j c p, (j < i)%nat → rules !! j = Some (c, p) → test true p text = false) →
  firstMatch rules text = category.
Proof.
  revert i. induction rules as [|[c p] rules IH]; intros i Hi Ht Hbefore; [done|].
  destruct i as [|i]; simpl in Hi.
  - injection Hi as -> ->. simpl. by rewrite Ht.
  - simpl. rewrite (Hbefore 0%nat c p); [|lia|done].
    apply (IH i); [done..|]. intros j c' p' Hj Hl.
    apply (Hbefore (S j) c' p'); [lia | done].
Qed.

Lemma firstMatch_none rules text :
  (∀ c p, (c, p) ∈ rules → test true p text = false) →
  firstMatch rules text = js "other".
Proof.
  induction rules as [|[c p] rules IH]; intros Hnone; [done|].
  simpl. rewrite (Hnone c p) by left. apply IH.
  intros c' p' Hin. apply (Hnone c' p'). by right.
Qed.

(** The first rule matches every text that ends with a space followed by
    the title "Docker CI pipeline". *)
Lemma docker_matches_first_rule category pattern rules pre :
  CATEGORIES = (category, pattern) :: rules →
  test true pattern (pre ++ js " Docker CI pipeline") = true.
Proof.
  intros Hrules. unfold CATEGORIES in Hrules.
  injection Hrules as <- <- _. unfold test.
  apply search_suffix. intros prev'.
  change (js " Docker CI pipeline") with (32%N :: js "Docker CI pipeline").
  rewrite search_unfold. destruct (matchAt _ _ _ _); [done|].
  vm_compute. reflexivity.
Qed.

(** C9: the category depends only on source, skillId and title; it is
    the category of the first rule of [CATEGORIES] whose pattern matches
    the search text, and "other" when no rule matches; the pattern of a
    rule matches a text exactly when the text contains one of the rule's
    keywords as a word, letter case apart; an item with the title
    "Docker CI pipeline" is in development-tools whatever its source and
    skillId, and an item without any keyword is in "other". *)
Theorem categorize_first_match :
  (∀ a b,
     SkillIndexItem.source a = SkillIndexItem.source b →
     SkillIndexItem.skillId a = SkillIndexItem.skillId b →
     SkillIndexItem.title a = SkillIndexItem.title b →
     categorize a = categorize b)
  ∧ (∀ skill i category pattern,
       CATEGORIES !! i = Some (category, pattern) →
       test true pattern (searchText skill) = true →
       (∀ j c p, (j < i)%nat → CATEGORIES !! j = Some (c, p) →
                 test true p (searchText skill) = false) →
       categorize skill = category)
  ∧ (∀ skill,
       (∀ c p, (c, p) ∈ CATEGORIES → test true p (searchText skill) = false) →
       categorize skill = js "other")
  ∧ (∀ c p, (c, p) ∈ CATEGORIES →
       ∃ words, p = wordPattern words
                ∧ ∀ text, test true p text = true ↔ containsKeyword words text)
  ∧ (∀ id source skillId,
       categorize (SkillIndexItem.mk id source skillId (js "Docker CI pipeline"))
       = js "development-tools")
  ∧ categorize (SkillIndexItem.mk (js "acme/things/random") (js "acme/things")
                  (js "random") (js "Random unrelated tool"))
    = js "other".
Proof.
  split; [|split; [|split; [|split; [|split]]]].
  - intros a b Hs Hi Ht. unfold categorize, searchText. by rewrite Hs, Hi, Ht.
  - intros skill i category pattern. apply firstMatch_at.
  - intros skill. apply firstMatch_none.
  - intros c p Hin. unfold CATEGORIES in Hin.
    repeat (apply elem_of_cons in Hin as [Hin|Hin];
            [injection Hin as -> ->; eexists; split;
             [reflexivity | intros text; apply wordPattern_test]|]).
    by apply elem_of_nil in Hin.
  - intros id source skillId. unfold categorize.
    eapply (firstMatch_at CATEGORIES _ 0%nat); [reflexivity| |intros; lia].
    unfold searchText. cbn [SkillIndexItem.source SkillIndexItem.skillId SkillIndexItem.title].
    rewrite !(assoc_L (++)), <- (assoc_L (++) _ (js " ") (js "Docker CI pipeline")).
    by eapply docker_matches_first_rule.
  - vm_compute. reflexivity.
Qed.

Lemma categorize_first_match_witness :
  categorize (SkillIndexItem.mk (js "x/y/etl") (js "x/y") (js "etl") (js "Nightly loads"))
  = js "data-analysis"
  ∧ categorize (SkillIndexItem.mk (js "acme/things/random") (js "acme/things")
                  (js "random") (js "Random unrelated tool"))
    = js "other"
  ∧ categorize (SkillIndexItem.mk (js "a") (js "b") (js "c") (js "t"))
    = categorize (SkillIndexItem.mk (js "z") (js "b") (js "c") (js "t")).
Proof.
  destruct categorize_first_match as (Hpure & Hfirst & Hnone & _ & _).
  split; [|split].
  - eapply (Hfirst _ 1%nat); [reflexivity | vm_compute; reflexivity|].
    intros j c p Hj Hl. destruct j as [|j]; [|lia].
    injection Hl as <- <-. vm_compute. reflexivity.
  - apply Hnone. intros c p Hin. unfold CATEGORIES in Hin.
    repeat (apply elem_of_cons in Hin as [Hin|Hin];
            [injection Hin as -> ->; vm_compute; reflexivity|]).
    by apply elem_of_nil in Hin.
  - apply Hpure; reflexivity.
Defined.
End Categorizer.

(* ===================================================================== *)
(** * Further properties: the retry wrapper                              *)
(* ===================================================================== *)

Section RetryPolicy.
Import Crawl Further.
Implicit Types (net : nat → FetchOutcome).

(** One iteration of the loop, by the outcome of its fetch. *)
Lemma loop_returns net n attempt status :
  net (Z.to_nat attempt) = Responded status → ok status = true →
  fetchWithRetry_loop net (S n) attempt = (Returned status, [Fetch attempt]).
Proof. intros Hnet Hok. simpl. by rewrite Hnet, Hok. Qed.

Lemma loop_retries net n attempt :
  succeeds (net (Z.to_nat attempt)) = false → attempt ≠ MAX_RETRIES - 1 →
  fetchWithRetry_loop net (S n) attempt
  = after [Fetch attempt; Sleep (200 * 2 ^ attempt)]
      (fetchWithRetry_loop net n (attempt + 1)).
Proof.
  intros Hfail Hlast. cbn [fetchWithRetry_loop].
  apply Z.eqb_neq in Hlast. rewrite Hlast.
  destruct (net (Z.to_nat attempt)) as [status|message]; simpl in Hfail.
  - rewrite Hfail. by destruct ((status =? 429) || (500 <=? status)).
  - done.
Qed.

Lemma loop_last net n :
  succeeds (net 3%nat) = false →
  fetchWithRetry_loop net (S n) 3
  = match net 3%nat with
    | Responded status =>
        if retried status
        then after [Fetch 3; Sleep 1600] (fetchWithRetry_loop net n 4)
        else (Thrown (HttpError status), [Fetch 3])
    | Rejected message => (Thrown (FetchError message), [Fetch 3])
    end.
Proof.
  intros Hfail. cbn [fetchWithRetry_loop]. change (Z.to_nat 3) with 3%nat.
  destruct (net 3%nat) as [status|message]; simpl in Hfail; [|done].
  rewrite Hfail. unfold retried.
  by destruct ((status =? 429) || (500 <=? status)).
Qed.

(** The loop after [k <= 3] failed attempts. *)
Lemma retry_unroll net (k : nat) :
  (k ≤ 3)%nat →
  (∀ i, (i < k)%nat → succeeds (net i) = false) →
  fetchWithRetry net
  = after (backoff k) (fetchWithRetry_loop net (4 - k) (Z.of_nat k)).
Proof.
  intros Hk Hfail. unfold fetchWithRetry. change (Z.to_nat MAX_RETRIES) with 4%nat.
  assert (∀ r : Result * list Event, r = after [] r) as Hnil by (by intros []).
  destruct k as [|[|[|[|k]]]]; [| | | |lia].
  - apply Hnil.
  - by rewrite (loop_retries net 3 0) by (first [apply (Hfail 0%nat); lia | done]).
  - rewrite (loop_retries net 3 0) by (first [apply (Hfail 0%nat); lia | done]).
    by rewrite (loop_retries net 2 (0 + 1)) by (first [apply (Hfail 1%nat); lia | done]).
  - rewrite (loop_retries net 3 0) by (first [apply (Hfail 0%nat); lia | done]).
    rewrite (loop_retries net 2 (0 + 1)) by (first [apply (Hfail 1%nat); lia | done]).
    by rewrite (loop_retries net 1 (0 + 1 + 1)) by (first [apply (Hfail 2%nat); lia | done]).
Qed.

Lemma retry_returns net (k : nat) (status : Z) :
  (k ≤ 3)%nat →
  (∀ i, (i < k)%nat → succeeds (net i) = false) →
  net k = Responded status → ok status = true →
  fetchWithRetry net = (Returned status, backoff k ++ [Fetch (Z.of_nat k)]).
Proof.
  intros Hk Hfail Hnet Hok. rewrite (retry_unroll net k Hk Hfail).
  replace (4 - k)%nat with (S (3 - k)) by lia.
  by rewrite (loop_returns net _ _ status) by (by rewrite ?Nat2Z.id).
Qed.

Lemma retry_throws net :
  (∀ i, (i < 4)%nat → succeeds (net i) = false) →
  fetchWithRetry net
  = match net 3%nat with
    | Responded status =>
        if retried status then (Thrown Unreachable, backoff 4)
        else (Thrown (HttpError status), backoff 3 ++ [Fetch 3])
    | Rejected message => (Thrown (FetchError message), backoff 3 ++ [Fetch 3])
    end.
Proof.
  intros Hfail. rewrite (retry_unroll net 3) by (auto with lia).
  change (4 - 3)%nat with 1%nat. change (Z.of_nat 3) with 3.
  rewrite (loop_last net 0) by (apply Hfail; lia).
  destruct (net 3%nat) as [status|message]; [|done].
  by destruct (retried status).
Qed.

(** X1: when the first [k] attempts fail (whatever the failure: a status
    that is not ok, or a rejected fetch) and attempt [k <= 3] gets an ok
    response, that response is returned after exactly [k] backoff waits of
    200, 400, ... ms, one after each failed attempt. *)
Theorem fetchWithRetry_succeeds_after net (k : nat) (status : Z) :
  (k ≤ 3)%nat →
  (∀ i, (i < k)%nat → succeeds (net i) = false) →
  net k = Responded status → ok status = true →
  (fetchWithRetry net).1 = Returned status
  ∧ (fetchWithRetry net).2 = backoff k ++ [Fetch (Z.of_nat k)]
  ∧ slept (fetchWithRetry net).2 = 200 * (2 ^ Z.of_nat k - 1).
Proof.
  intros Hk Hfail Hnet Hok. rewrite (retry_returns net k status) by done.
  split; [done|]. split; [done|].
  destruct k as [|[|[|[|k]]]]; [reflexivity..|lia].
Qed.

Lemma fetchWithRetry_succeeds_after_witness :
  (fetchWithRetry (λ n, if decide (n < 2)%nat then Responded 503 else Responded 200)).1
  = Returned 200
  ∧ (fetchWithRetry (λ n, if decide (n < 2)%nat then Responded 503 else Responded 200)).2
    = backoff 2 ++ [Fetch 2]
  ∧ slept (fetchWithRetry
             (λ n, if decide (n < 2)%nat then Responded 503 else Responded 200)).2
    = 200 * (2 ^ 2 - 1).
Proof.
  apply (fetchWithRetry_succeeds_after _ 2 200); [lia | | reflexivity | reflexivity].
  intros i Hi. destruct i as [|[|i]]; [reflexivity | reflexivity | lia].
Defined.

(** X2: when all four attempts fail, the error depends on the last one
    alone.  A rejected fetch or a status outside the retry branch is thrown
    as it is, after three waits.  A last 429 or 5xx is followed by a fourth
    wait of 1600 ms and the error "unreachable": the status is lost. *)
Theorem fetchWithRetry_exhausted net :
  (∀ i, (i < 4)%nat → succeeds (net i) = false) →
  (∀ message, net 3%nat = Rejected message →
     fetchWithRetry net = (Thrown (FetchError message), backoff 3 ++ [Fetch 3]))
  ∧ (∀ status, net 3%nat = Responded status → retried status = false →
       fetchWithRetry net = (Thrown (HttpError status), backoff 3 ++ [Fetch 3]))
  ∧ (∀ status, net 3%nat = Responded status → retried status = true →
       fetchWithRetry net = (Thrown Unreachable, backoff 3 ++ [Fetch 3; Sleep 1600])).
Proof.
  intros Hfail. rewrite (retry_throws net Hfail). split; [|split].
  - by intros message ->.
  - by intros status -> ->.
  - by intros status -> ->.
Qed.

Lemma fetchWithRetry_exhausted_witness :
  fetchWithRetry (λ _, Responded 503)
  = (Thrown Unreachable, backoff 3 ++ [Fetch 3; Sleep 1600])
  ∧ fetchWithRetry (λ _, Rejected []) = (Thrown (FetchError []), backoff 3 ++ [Fetch 3]).
Proof.
  split.
  - apply (proj2 (proj2 (fetchWithRetry_exhausted (λ _, Responded 503)
                           ltac:(intros; reflexivity))) 503); reflexivity.
  - apply (proj1 (fetchWithRetry_exhausted (λ _, Rejected [])
                    ltac:(intros; reflexivity)) []); reflexivity.
Defined.

(** The shape of every trace: failed attempts with their waits, then
    either one last fetch or nothing. *)
Lemma fetchWithRetry_trace net :
  ∃ k, (k ≤ 4)%nat
       ∧ ((fetchWithRetry net).2 = backoff k ++ [Fetch (Z.of_nat k)] ∧ (k ≤ 3)%nat
          ∨ (fetchWithRetry net).2 = backoff 4 ∧ k = 4%nat)
       ∧ (∀ status, (fetchWithRetry net).1 = Returned status →
            net k = Responded status ∧ ok status = true ∧ (k ≤ 3)%nat).
Proof.
  destruct (succeeds (net 0%nat)) eqn:H0.
  { exists 0%nat. destruct (net 0%nat) as [s|m] eqn:E; [|done]. simpl in H0.
    rewrite (retry_returns net 0 s); [|lia|intros; lia|done..].
    split; [lia|]. split; [left; split; [done|lia]|].
    intros status [= <-]. repeat split; (done || lia). }
  destruct (succeeds (net 1%nat)) eqn:H1.
  { exists 1%nat. destruct (net 1%nat) as [s|m] eqn:E; [|done]. simpl in H1.
    rewrite (retry_returns net 1 s); [|lia| |done..].
    - split; [lia|]. split; [left; split; [done|lia]|].
      intros status [= <-]. repeat split; (done || lia).
    - intros i Hi. by replace i with 0%nat by lia. }
  destruct (succeeds (net 2%nat)) eqn:H2.
  { exists 2%nat. destruct (net 2%nat) as [s|m] eqn:E; [|done]. simpl in H2.
    rewrite (retry_returns net 2 s); [|lia| |done..].
    - split; [lia|]. split; [left; split; [done|lia]|].
      intros status [= <-]. repeat split; (done || lia).
    - intros i Hi. destruct i as [|[|i]]; [done | done | lia]. }
  destruct (succeeds (net 3%nat)) eqn:H3.
  { exists 3%nat. destruct (net 3%nat) as [s|m] eqn:E; [|done]. simpl in H3.
    rewrite (retry_returns net 3 s); [|lia| |done..].
    - split; [lia|]. split; [left; split; [done|lia]|].
      intros status [= <-]. repeat split; (done || lia).
    - intros i Hi. destruct i as [|[|[|i]]]; [done | done | done | lia]. }
  rewrite retry_throws.
  2: { intros i Hi. destruct i as [|[|[|[|i]]]]; [done..|lia]. }
  destruct (net 3%nat) as [s|m] eqn:E.
  - destruct (retried s).
    + exists 4%nat. split; [lia|]. split; [by right|]. by intros status [=].
    + exists 3%nat. split; [lia|]. split; [left; split; [done|lia]|]. by intros status [=].
  - exists 3%nat. split; [lia|]. split; [left; split; [done|lia]|]. by intros status [=].
Qed.

(** X3: whatever the network does, one call makes at most 4 fetches and
    sleeps at most 3000 ms in all. *)
Theorem fetchWithRetry_bounded net :
  (fetches (fetchWithRetry net).2 ≤ 4)%nat ∧ slept (fetchWithRetry net).2 ≤ 3000.
Proof.
  destruct (fetchWithRetry_trace net) as (k & Hk & [[-> Hk3]|[-> ->]] & _).
  - destruct k as [|[|[|[|k]]]]; [vm_compute; split; [lia | discriminate]..|lia].
  - vm_compute. split; [lia | discriminate].
Qed.

(** X4: a response is returned only if it is ok, and it is the response of
    the last attempt made; no response with another status is ever handed
    to the caller. *)
Theorem fetchWithRetry_returns_ok net (status : Z) :
  (fetchWithRetry net).1 = Returned status →
  ok status = true
  ∧ ∃ k, (k ≤ 3)%nat ∧ net k = Responded status
         ∧ (fetchWithRetry net).2 = backoff k ++ [Fetch (Z.of_nat k)].
Proof.
  intros Hret. destruct (fetchWithRetry_trace net) as (k & Hk & Htrace & Hres).
  destruct (Hres status Hret) as (Hnet & Hok & Hk3). split; [done|].
  exists k. split; [done|]. split; [done|].
  destruct Htrace as [[Ht _]|[_ ->]]; [done | lia].
Qed.

Lemma fetchWithRetry_returns_ok_witness :
  ok 204 = true
  ∧ ∃ k, (k ≤ 3)%nat
         ∧ (λ n, if decide (n < 1)%nat then Rejected [] else Responded 204) k
           = Responded 204
         ∧ (fetchWithRetry
              (λ n, if decide (n < 1)%nat then Rejected [] else Responded 204)).2
           = backoff k ++ [Fetch (Z.of_nat k)].
Proof.
  apply (fetchWithRetry_returns_ok
           (λ n, if decide (n < 1)%nat then Rejected [] else Responded 204) 204).
  reflexivity.
Defined.
End RetryPolicy.

(* ===================================================================== *)
(** * Further properties: fetching the boards                            *)
(* ===================================================================== *)

Section FetchBoard.
Import Crawl Further.
Implicit Types (net : Z → nat → FetchOutcome) (body : Z → option ApiResponse.t).

Lemma requested_page page evs t : requested (Page page evs :: t) = page :: requested t.
Proof. done. Qed.

Lemma requested_delay ms t : requested (Delay ms :: t) = requested t.
Proof. done. Qed.

Lemma delays_page page evs t : delays (Page page evs :: t) = delays t.
Proof. done. Qed.

Lemma delays_delay ms t : delays (Delay ms :: t) = ms :: delays t.
Proof. done. Qed.

Lemma pages_upto (n : nat) :
  Z.of_nat <$> seq 0 (S n) = ((λ i : nat, 0 + Z.of_nat i) <$> seq 0 n) ++ [Z.of_nat n].
Proof.
  rewrite seq_S, fmap_app. done.
Qed.

(** The loop from page [start] on, when the API serves [pages] from there,
    all of them with [hasMore]. *)
Lemma fetchBoard_loop_pages DELAY_MS net body (pages : list ApiResponse.t) :
  ∀ (fuel : nat) (start : Z) (all : list ApiSkill.t),
  (∀ (i : nat) data, pages !! i = Some data →
     body (start + Z.of_nat i) = Some data
     ∧ ∃ status, (fetchWithRetry (net (start + Z.of_nat i))).1 = Returned status) →
  Forall (λ data, ApiResponse.hasMore data = true) pages →
  (length pages ≤ fuel)%nat →
  let r := fetchBoard_loop DELAY_MS net body fuel start all in
  let r' := fetchBoard_loop DELAY_MS net body (fuel - length pages)
              (start + Z.of_nat (length pages))
              (all ++ concat (ApiResponse.skills <$> pages)) in
  r.1 = r'.1
  ∧ requested r.2 = ((λ i : nat, start + Z.of_nat i) <$> seq 0 (length pages))
                    ++ requested r'.2
  ∧ delays r.2 = replicate (length pages) DELAY_MS ++ delays r'.2.
Proof.
  induction pages as [|data pages IH]; intros fuel start all Hserves Hmore Hfuel.
  - simpl. rewrite Nat.sub_0_r, Z.add_0_r, app_nil_r. done.
  - apply Forall_cons in Hmore as [Hdata Hmore].
    destruct fuel as [|fuel]; [simpl in Hfuel; lia|].
    destruct (Hserves 0%nat data eq_refl) as [Hbody [status Hresp]].
    rewrite Z.add_0_r in Hbody, Hresp.
    cbn [fetchBoard_loop]. rewrite Hresp, Hbody, Hdata. cbn [negb fst snd].
    specialize (IH fuel (start + 1) (all ++ ApiResponse.skills data)).
    destruct IH as (IH1 & IH2 & IH3); [|done|simpl in Hfuel; lia|].
    { intros i d Hi. replace (start + 1 + Z.of_nat i) with (start + Z.of_nat (S i)) by lia.
      by apply Hserves. }
    cbn [length]. rewrite Nat.sub_succ.
    replace (start + Z.of_nat (S (length pages)))
      with (start + 1 + Z.of_nat (length pages)) by lia.
    rewrite fmap_cons, concat_cons, (assoc_L (++)).
    split; [exact IH1|]. split.
    + rewrite requested_page, requested_delay, IH2.
      cbn [seq]. rewrite fmap_cons, Z.add_0_r, <- app_comm_cons. f_equal. f_equal.
      rewrite <- seq_shift, <- list_fmap_compose. apply list_fmap_ext.
      intros ? i _. simpl. lia.
    + by rewrite delays_page, delays_delay, IH3.
Qed.



(** X6: when the pages before page p are served with [hasMore] and the
    fetch of page p throws, or its body is not JSON, [fetchBoard] ends with
    that failure: the rows of the pages already fetched are not returned,
    and no page after p is requested. *)
Theorem fetchBoard_failing_page DELAY_MS net body
    (pages : list ApiResponse.t) (fuel : nat) :
  serves net body pages →
  Forall (λ data, ApiResponse.hasMore data = true) pages →
  (length pages < fuel)%nat →
  let p := Z.of_nat (length pages) in
  let r := fetchBoard DELAY_MS net body fuel in
  (∀ err, (fetchWithRetry (net p)).1 = Thrown err →
     r.1 = Failed err ∧ requested r.2 = Z.of_nat <$> seq 0 (S (length pages)))
  ∧ (∀ status, (fetchWithRetry (net p)).1 = Returned status → body p = None →
       r.1 = Malformed ∧ requested r.2 = Z.of_nat <$> seq 0 (S (length pages))).
Proof.
  intros Hserves Hmore Hfuel. cbv zeta. unfold fetchBoard.
  destruct (fetchBoard_loop_pages DELAY_MS net body pages fuel 0 [])
    as (H1 & H2 & H3); [|done|lia|].
  { intros i data Hi. rewrite Z.add_0_l. by apply Hserves. }
  rewrite H1, H2, pages_upto. clear H1 H2 H3.
  destruct (fuel - length pages)%nat as [|n] eqn:Hn; [lia|].
  cbn [fetchBoard_loop]. rewrite Z.add_0_l. split.
  - intros err ->. done.
  - intros status -> ->. done.
Qed.

Lemma fetchBoard_failing_page_witness :
  (boardFetch 50 brokenApi 5 Trending).1 = Failed (FetchError (JsString.js "fetch failed"))
  ∧ requested (boardFetch 50 brokenApi 5 Trending).2 = [0].
Proof.
  apply (proj1 (fetchBoard_failing_page 50 (network brokenApi Trending)
                  (bodies brokenApi Trending) [] 5
                  ltac:(intros i data Hi; done) ltac:(constructor) ltac:(simpl; lia))).
  reflexivity.
Defined.
End FetchBoard.

Section WholeRun.
Import Crawl Further.

Variable localeCompare : jsstring → jsstring → Z.
Variable DELAY_MS : Z.
Variable api : Api.
Variable fuel : nat.

(** [main] looks at the board data board by board. *)
Lemma main_ext (bd1 bd2 : Board → list ApiSkill.t) file now :
  (∀ b, bd1 b = bd2 b) →
  main localeCompare bd1 file now = main localeCompare bd2 file now.
Proof.
  intros Hext. unfold main, collectSkills. simpl. by rewrite !Hext.
Qed.

Lemma fetchBoards_unfold board boards bd :
  fetchBoards DELAY_MS api fuel (board :: boards) bd
  = match (boardFetch DELAY_MS api fuel board).1 with
    | Rows all =>
        let rest := fetchBoards DELAY_MS api fuel boards (setBoard bd board all) in
        (rest.1, (board, (boardFetch DELAY_MS api fuel board).2) :: rest.2)
    | _ => (None, [(board, (boardFetch DELAY_MS api fuel board).2)])
    end.
Proof. done. Qed.

(** When every board yields rows, the loop gathers them. *)
Lemma fetchBoards_rows (rows : Board → list ApiSkill.t) (boards : list Board) :
  (∀ b, b ∈ boards → (boardFetch DELAY_MS api fuel b).1 = Rows (rows b)) →
  ∀ bd, ∃ bd',
    (fetchBoards DELAY_MS api fuel boards bd).1 = Some bd'
    ∧ (∀ b, bd' b = if decide (b ∈ boards) then rows b else bd b)
    ∧ (fetchBoards DELAY_MS api fuel boards bd).2.*1 = boards.
Proof.
  induction boards as [|board boards IH]; intros Hrows bd.
  - exists bd. split; [done|]. split; [|done]. intros b.
    by destruct (decide (b ∈ [])) as [?%elem_of_nil|].
  - rewrite fetchBoards_unfold, (Hrows board) by left. cbv zeta. cbn [fst snd].
    destruct (IH (λ b Hb, Hrows b (list_elem_of_further _ _ _ Hb))
                 (setBoard bd board (rows board))) as (bd' & H1 & H2 & H3).
    exists bd'. split; [done|]. split; [|by rewrite fmap_cons, H3].
    intros b. rewrite H2. unfold setBoard.
    destruct (decide (b ∈ boards)) as [Hin|Hout].
    + rewrite decide_True; [done | by right].
    + destruct (decide (b = board)) as [->|Hne].
      * rewrite decide_True; [done | left].
      * rewrite decide_False; [done|]. by intros [?|?]%elem_of_cons.
Qed.



(** X8: when every board yields rows and the data directory exists, the
    run is [main] on those rows: it writes the first-seen file that [main]
    computes from the one on disk, and the index unless building it threw,
    in which case the old index stays. *)
Theorem run_writes_main now disk (rows : Board → list ApiSkill.t) :
  (∀ b, (boardFetch DELAY_MS api fuel b).1 = Rows (rows b)) →
  dataDir disk = true →
  let written := main localeCompare rows (firstSeenJson disk) now in
  (run localeCompare DELAY_MS api fuel now disk).1
  = mkDisk true (Some (firstSeenFile written))
      (match indexFile written with
       | Some index => Some index
       | None => indexJson disk
       end)
  ∧ (run localeCompare DELAY_MS api fuel now disk).2.*1 = BOARDS.
Proof.
  intros Hrows Hdir. cbv zeta. unfold run.
  destruct (fetchBoards_rows rows BOARDS (λ b _, Hrows b) (λ _, []))
    as (bd' & H1 & H2 & H3).
  rewrite H1, Hdir. cbn [negb fst snd]. split; [|done].
  rewrite (main_ext bd' rows); [done|].
  intros b. rewrite H2. rewrite decide_True; [done|].
  destruct b; unfold BOARDS; set_solver.
Qed.
End WholeRun.

Section WholeRunWitnesses.
Import Crawl Further.


Lemma run_writes_main_witness :
  (run Spec.compareUnits 50 sampleApi 5 Spec.sampleNow sampleDisk).1
  = mkDisk true
      (Some (firstSeenFile (main Spec.compareUnits Spec.sampleBoards
                              (firstSeenJson sampleDisk) Spec.sampleNow)))
      (match indexFile (main Spec.compareUnits Spec.sampleBoards
                          (firstSeenJson sampleDisk) Spec.sampleNow) with
       | Some index => Some index
       | None => indexJson sampleDisk
       end)
  ∧ (run Spec.compareUnits 50 sampleApi 5 Spec.sampleNow sampleDisk).2.*1 = BOARDS.
Proof.
  apply (run_writes_main Spec.compareUnits 50 sampleApi 5 Spec.sampleNow sampleDisk
           Spec.sampleBoards).
  - intros b. destruct b; reflexivity.
  - reflexivity.
Defined.
End WholeRunWitnesses.

(* ===================================================================== *)
(** * Further properties: the index and the first-seen file              *)
(* ===================================================================== *)

Section UriFacts.
Import JsString Uri Further.

Lemma hexDigit_no_delimiter d : isDelimiter (hexDigit d) = false.
Proof.
  unfold isDelimiter, hexDigit. rewrite !orb_false_iff, !N.eqb_neq.
  destruct (d <? 10)%N eqn:Hd.
  - apply N.ltb_lt in Hd. lia.
  - apply N.ltb_ge in Hd. lia.
Qed.

Lemma escape_no_delimiter cp : Forall (λ c, isDelimiter c = false) (escape cp).
Proof.
  unfold escape. apply Forall_concat, Forall_fmap, Forall_forall. intros byte _.
  simpl. repeat constructor; apply hexDigit_no_delimiter.
Qed.

Lemma isUnreserved_no_delimiter c : isUnreserved c = true → isDelimiter c = false.
Proof.
  unfold isDelimiter. intros H. rewrite !orb_false_iff, !N.eqb_neq.
  repeat split; intros ->; discriminate.
Qed.

(** An encoded component holds no [/], [?] or [#]. *)
Lemma encodeURIComponent_no_delimiter s e :
  encodeURIComponent s = Some e → Forall (λ c, isDelimiter c = false) e.
Proof.
  remember (length s) as n eqn:Hn. revert s e Hn.
  induction n as [n IH] using lt_wf_ind. intros s e Hn.
  destruct s as [|c s]; simpl.
  - intros [= <-]. constructor.
  - destruct (isUnreserved c) eqn:Hc.
    + intros (e' & He' & ->)%fmap_Some. constructor.
      * by apply isUnreserved_no_delimiter.
      * apply (IH (length s)) with (s := s); simpl in *; [lia | done | done].
    + destruct (isLeadSurrogate c).
      * destruct s as [|d s]; [done|]. destruct (isTrailSurrogate d); [|done].
        intros (e' & He' & ->)%fmap_Some. apply Forall_app. split.
        -- apply escape_no_delimiter.
        -- apply (IH (length s)) with (s := s); simpl in *; [lia | done | done].
      * destruct (isTrailSurrogate c); [done|].
        intros (e' & He' & ->)%fmap_Some. apply Forall_app. split.
        -- apply escape_no_delimiter.
        -- apply (IH (length s)) with (s := s); simpl in *; [lia | done | done].
Qed.
End UriFacts.

Section IndexContents.
Import JsString Crawl Spec Further.

Variable localeCompare : jsstring → jsstring → Z.
Variable boardData : Board → list ApiSkill.t.
Variable firstSeenOnDisk : option (gmap jsstring jsstring).
Variable now : jsstring.

Let written := main localeCompare boardData firstSeenOnDisk now.

(** Every item of the index is built from an entry of the skill map. *)
Lemma index_item_built idx item :
  indexFile written = Some idx → item ∈ SkillsIndex.items idx →
  ∃ s, firstRow (SkillIndexItem.id item) (scanned boardData) = Some s
       ∧ buildItem (installsOf (boardData AllTime)) (installsOf (boardData Trending))
           (installsOf (boardData Hot))
           (updateFirstSeen now (JsMap.keys (collectSkills boardData))
              (loadFirstSeen firstSeenOnDisk))
           (SkillIndexItem.id item, s) = Some item.
Proof.
  intros Hidx Hin.
  destruct (index_written localeCompare boardData firstSeenOnDisk now idx Hidx)
    as (built & Hbuilt & Hitems).
  rewrite Hitems, (sort_Permutation byInstallsDesc built) in Hin.
  apply list_elem_of_lookup in Hin as [i Hi].
  destruct (Forall2_lookup_r _ _ _ _ _ Hbuilt Hi) as ([id s] & He & Hb).
  pose proof (buildItem_Some _ _ _ _ _ _ _ Hb) as [Hid _]. subst id.
  exists s. split; [|done].
  apply collected_entry. by eapply list_elem_of_lookup_2.
Qed.

(** X9: the ids of the items are the ids of the fetched rows, each once:
    no item is made up, and [count] is the number of distinct ids. *)
Theorem index_ids_are_row_ids idx :
  indexFile written = Some idx →
  SkillIndexItem.id <$> SkillsIndex.items idx ≡ₚ remove_dups (idsOf boardData)
  ∧ SkillsIndex.count idx = Z.of_nat (length (remove_dups (idsOf boardData)))
  ∧ SkillsIndex.count idx = Z.of_nat (length (SkillsIndex.items idx)).
Proof.
  intros Hidx.
  destruct (index_written localeCompare boardData firstSeenOnDisk now idx Hidx)
    as (built & Hbuilt & Hitems).
  assert (SkillIndexItem.id <$> SkillsIndex.items idx ≡ₚ remove_dups (idsOf boardData))
    as Hperm.
  { rewrite Hitems, (sort_Permutation byInstallsDesc built).
    rewrite (built_ids _ _ _ _ _ _ Hbuilt).
    apply NoDup_Permutation; [apply collected_NoDup | apply NoDup_remove_dups|].
    intros id. rewrite elem_of_remove_dups. apply collected_keys. }
  assert (SkillsIndex.count idx = Z.of_nat (length (SkillsIndex.items idx))) as Hcount.
  { unfold written, main in Hidx. cbv zeta in Hidx. cbn [indexFile] in Hidx.
    apply bind_Some in Hidx as (items & _ & Hidx).
    apply (inj Some) in Hidx. by subst idx. }
  split; [done|]. split; [|done].
  by rewrite Hcount, <- (Permutation_length Hperm), length_fmap.
Qed.

(** X10: every item carries a first-seen timestamp, never null: the one
    the file on disk had for its id, or else the timestamp of the run; it
    is the timestamp that the run writes for the id in the first-seen
    file. *)
Theorem index_firstSeenAt idx item :
  indexFile written = Some idx → item ∈ SkillsIndex.items idx →
  SkillIndexItem.firstSeenAt item
  = Some (default now (persisted firstSeenOnDisk (SkillIndexItem.id item)))
  ∧ firstSeenFile written !! SkillIndexItem.id item = SkillIndexItem.firstSeenAt item.
Proof.
  intros Hidx Hin. destruct (index_item_built idx item Hidx Hin) as (s & Hs & Hb).
  apply buildItem_Some in Hb as (_ & _ & _ & _ & _ & _ & _ & _ & Hfs & _).
  assert (SkillIndexItem.id item ∈ skillKey <$> scanned boardData) as Hid.
  { apply firstRow_Some in Hs as [<- Hs]. by apply list_elem_of_fmap_2. }
  unfold written. rewrite firstSeenFile_lookup, Hfs, updateFirstSeen_get, loadFirstSeen_get.
  rewrite collectSkills_scanned.
  destruct (persisted firstSeenOnDisk (SkillIndexItem.id item)); [done|].
  rewrite !decide_True; [done | done | by apply collected_keys].
Qed.

(** X11: each of the three counters of an item is the largest of 0 and the
    installs of the rows of its board that bear the item's id: 0 when there
    is none, and never negative, whatever the API sent. *)
Theorem index_counters idx item :
  indexFile written = Some idx → item ∈ SkillsIndex.items idx →
  let counted board :=
    0 :: (ApiSkill.installs <$> rowsWith (SkillIndexItem.id item) (boardData board)) in
  IsMax (SkillIndexItem.installsAllTime item) (counted AllTime)
  ∧ IsMax (SkillIndexItem.installsTrending item) (counted Trending)
  ∧ IsMax (SkillIndexItem.installsHot item) (counted Hot).
Proof.
  intros Hidx Hin. cbv zeta.
  destruct (index_item_built idx item Hidx Hin) as (s & Hs & Hb).
  apply buildItem_Some in Hb as (_ & _ & _ & _ & _ & -> & -> & -> & _).
  assert (∀ rows, IsMax (default 0 (installsOf rows !! SkillIndexItem.id item))
                    (0 :: (ApiSkill.installs <$> rowsWith (SkillIndexItem.id item) rows)))
    as Hmax.
  { intros rows. pose proof (installsOf_lookup rows (SkillIndexItem.id item)) as H.
    destruct (installsOf rows !! SkillIndexItem.id item) as [v|]; simpl.
    - by destruct H.
    - rewrite H. split; [left | constructor; [lia | constructor]]. }
  auto.
Qed.

(** X12: the link of an item is the fixed prefix followed by two path
    segments, the encoded source and the encoded skillId, and neither
    segment holds a [/], [?] or [#]: a source such as "owner/repo" stays in
    one segment. *)
Theorem index_link_segments idx item :
  indexFile written = Some idx → item ∈ SkillsIndex.items idx →
  ∃ src sid,
    Uri.encodeURIComponent (SkillIndexItem.source item) = Some src
    ∧ Uri.encodeURIComponent (SkillIndexItem.skillId item) = Some sid
    ∧ SkillIndexItem.link item = js "https://skills.sh/skills/" ++ src ++ js "/" ++ sid
    ∧ Forall (λ c, isDelimiter c = false) src
    ∧ Forall (λ c, isDelimiter c = false) sid.
Proof.
  intros Hidx Hin. destruct (index_item_built idx item Hidx Hin) as (s & Hs & Hb).
  apply buildItem_Some in Hb as (_ & -> & -> & _ & Hlink & _).
  unfold linkOf in Hlink.
  destruct (Uri.encodeURIComponent (ApiSkill.source s)) as [src|] eqn:Hsrc; [|done].
  destruct (Uri.encodeURIComponent (ApiSkill.skillId s)) as [sid|] eqn:Hsid; [|done].
  simpl in Hlink. apply (inj Some) in Hlink. exists src, sid.
  split_and!; [done | done | by rewrite <- Hlink | |];
    by eapply encodeURIComponent_no_delimiter.
Qed.

(** X13: once the rows of the boards are fetched, building the items of
    the index throws, so that [main] has no index to write, exactly when
    [encodeURIComponent] throws on the source or the skillId of a skill
    (the first row of some id); otherwise the index is built. *)
Theorem index_written_iff :
  indexFile written = None
  ↔ ∃ id s, firstRow id (scanned boardData) = Some s ∧ linkOf s = None.
Proof.
  unfold written, main. cbv zeta. cbn [indexFile].
  rewrite collectSkills_scanned. unfold JsMap.entries. split.
  - intros H. destruct (mapM _ _) as [items|] eqn:Hm; [done|].
    apply mapM_None_1, Exists_exists in Hm as ([id s] & Hin & Hb).
    exists id, s. split; [by apply collected_entry|].
    unfold buildItem in Hb. unfold linkOf.
    destruct (Uri.encodeURIComponent (ApiSkill.source s)); [|done].
    by destruct (Uri.encodeURIComponent (ApiSkill.skillId s)).
  - intros (id & s & Hs & Hlink).
    rewrite (mapM_None_2 _ (foldl addSkill JsMap.empty (scanned boardData))); [done|].
    apply Exists_exists. exists (id, s). split.
    + apply JsMap_get_elem_of; [apply collected_NoDup|]. by rewrite collected_get.
    + unfold buildItem. unfold linkOf in Hlink.
      destruct (Uri.encodeURIComponent (ApiSkill.source s)); [|done].
      by destruct (Uri.encodeURIComponent (ApiSkill.skillId s)).
Qed.

End IndexContents.

Section IndexContentsWitnesses.
Import JsString Crawl Spec Further.

Lemma index_ids_are_row_ids_witness :
  ∃ idx,
    indexFile (main compareUnits sampleBoards sampleFirstSeen sampleNow) = Some idx
    ∧ SkillsIndex.count idx = 4.
Proof.
  eexists. split; [vm_compute; reflexivity|].
  rewrite (proj1 (proj2 (index_ids_are_row_ids compareUnits sampleBoards
                           sampleFirstSeen sampleNow _ ltac:(vm_compute; reflexivity)))).
  vm_compute. reflexivity.
Defined.

Lemma index_firstSeenAt_witness :
  ∃ idx item,
    indexFile (main compareUnits sampleBoards sampleFirstSeen sampleNow) = Some idx
    ∧ SkillsIndex.items idx !! 1%nat = Some item
    ∧ SkillIndexItem.firstSeenAt item = Some (js "2024-01-01T00:00:00Z").
Proof.
  eexists _, _. split; [vm_compute; reflexivity|]. split; [vm_compute; reflexivity|].
  rewrite (proj1 (index_firstSeenAt compareUnits sampleBoards sampleFirstSeen sampleNow
                    _ _ ltac:(vm_compute; reflexivity)
                    ltac:(vm_compute; right; left))).
  vm_compute. reflexivity.
Defined.

Lemma index_counters_witness :
  ∃ idx item,
    indexFile (main compareUnits sampleBoards sampleFirstSeen sampleNow) = Some idx
    ∧ SkillsIndex.items idx !! 1%nat = Some item
    ∧ IsMax (SkillIndexItem.installsAllTime item) [0; 5; 7].
Proof.
  eexists _, _. split; [vm_compute; reflexivity|]. split; [vm_compute; reflexivity|].
  apply (proj1 (index_counters compareUnits sampleBoards sampleFirstSeen sampleNow
                  _ _ ltac:(vm_compute; reflexivity) ltac:(vm_compute; right; left))).
Defined.

Lemma index_link_segments_witness :
  ∃ idx item,
    indexFile (main compareUnits (λ _, [row "owner/repo" "my skill" "N" 1]) None sampleNow)
    = Some idx
    ∧ SkillsIndex.items idx !! 0%nat = Some item
    ∧ SkillIndexItem.link item = js "https://skills.sh/skills/owner%2Frepo/my%20skill".
Proof.
  eexists _, _. split; [vm_compute; reflexivity|]. split; [vm_compute; reflexivity|].
  destruct (index_link_segments compareUnits (λ _, [row "owner/repo" "my skill" "N" 1])
              None sampleNow _ _ ltac:(vm_compute; reflexivity) ltac:(vm_compute; left))
    as (src & sid & Hsrc & Hsid & Hlink & _).
  vm_compute in Hsrc, Hsid. apply (inj Some) in Hsrc, Hsid. subst src sid.
  exact Hlink.
Defined.

Lemma index_written_iff_witness :
  indexFile (main compareUnits
               (λ _, [ApiSkill.mk [55357%N] (js "s") (js "n") 1]) None sampleNow)
  = None.
Proof.
  apply (index_written_iff compareUnits
           (λ _, [ApiSkill.mk [55357%N] (js "s") (js "n") 1]) None sampleNow).
  exists [55357; 47; 115]%N, (ApiSkill.mk [55357%N] (js "s") (js "n") 1).
  split; vm_compute; reflexivity.
Defined.

End IndexContentsWitnesses.

Section FirstSeenFile.
Import JsString Crawl Spec Further.

Variable localeCompare : jsstring → jsstring → Z.

(** X14: the first-seen file after a run holds the ids that the file held
    before and the ids of the fetched rows, and no other. *)
Theorem firstSeen_keys boardData file now :
  dom (firstSeenFile (main localeCompare boardData file now))
  = dom (default ∅ file) ∪ list_to_set (idsOf boardData).
Proof.
  apply set_eq. intros id.
  rewrite elem_of_dom, firstSeenFile_lookup, elem_of_union, elem_of_dom, elem_of_list_to_set.
  unfold persisted, idsOf. destruct file as [obj|]; simpl.
  - destruct (obj !! id) eqn:Hid.
    + split; [by left | by eauto].
    + destruct (decide (id ∈ skillKey <$> scanned boardData)) as [Hin|Hout].
      * split; [by right | by eauto].
      * split; [by intros [? ?] | intros [[? ?]|?]; done].
  - rewrite lookup_empty.
    destruct (decide (id ∈ skillKey <$> scanned boardData)) as [Hin|Hout].
    + split; [by right | by eauto].
    + split; [by intros [? ?] | intros [[? ?]|?]; done].
Qed.

(** X15: a second run that meets no id that the first run had not met
    writes the first-seen file that it found: the run is idempotent on the
    file, whatever the timestamp of the second run. *)
Theorem firstSeen_rerun boardData1 boardData2 file now1 now2 :
  (∀ id, id ∈ idsOf boardData2 → id ∈ idsOf boardData1) →
  let saved := firstSeenFile (main localeCompare boardData1 file now1) in
  firstSeenFile (main localeCompare boardData2 (Some saved) now2) = saved.
Proof.
  intros Hsub saved. apply map_eq. intros id.
  rewrite firstSeenFile_lookup.
  change (persisted (Some saved) id) with (saved !! id).
  destruct (saved !! id) eqn:Hid; [done|].
  subst saved. rewrite firstSeenFile_lookup in Hid.
  destruct (persisted file id); [done|].
  destruct (decide (id ∈ skillKey <$> scanned boardData1)) as [|Hout]; [done|].
  rewrite decide_False; [done|]. intros Hin. by apply Hout, Hsub.
Qed.

(** X16: what [saveFirstSeen] writes, [loadFirstSeen] reads back: the map
    of a run, saved and loaded again, gives every id the timestamp it
    had. *)
Theorem firstSeen_save_load now ids file id :
  let firstSeen := updateFirstSeen now ids (loadFirstSeen file) in
  JsMap.get id (loadFirstSeen (Some (saveFirstSeen localeCompare firstSeen)))
  = JsMap.get id firstSeen.
Proof.
  cbv zeta. rewrite loadFirstSeen_get. unfold persisted. simpl.
  apply saveFirstSeen_lookup, updateFirstSeen_NoDup, loadFirstSeen_NoDup.
Qed.
End FirstSeenFile.

Section FirstSeenFileWitnesses.
Import JsString Crawl Spec Further.

Lemma firstSeen_rerun_witness :
  firstSeenFile
    (main compareUnits sampleBoards
       (Some (firstSeenFile (main compareUnits sampleBoards sampleFirstSeen sampleNow)))
       (js "2030-01-01T00:00:00.000Z"))
  = firstSeenFile (main compareUnits sampleBoards sampleFirstSeen sampleNow).
Proof.
  apply (firstSeen_rerun compareUnits sampleBoards sampleBoards). auto.
Defined.
End FirstSeenFileWitnesses.

(* ===================================================================== *)
(** * Further properties: the description extractor                      *)
(* ===================================================================== *)

Section RegExpSound.
Import JsString RegExp.
Context {A : Type}.
Variable ignoreCase : bool.
Implicit Types (r : Regex) (p q : Pos) (k : Pos → option A).

Lemma many1_Some cs k p x :
  many1 ignoreCase cs (caps p) k (rest p) = Some x →
  ∃ q, Matches ignoreCase (Many1 cs) p q ∧ k q = Some x.
Proof.
  remember (rest p) as s eqn:Hs. revert p Hs.
  induction s as [|c s IH]; intros p Hs; simpl; [done|].
  destruct (accepts ignoreCase cs c) eqn:Hc; [|done].
  destruct (many1 ignoreCase cs (caps p) k s) as [y|] eqn:Hm.
  - intros [= ->].
    destruct (IH (mkPos (Some c) s (caps p)) eq_refl Hm) as (q & Hq & Hk).
    exists q. split; [|done]. by eapply Matches_Many1_more.
  - intros Hk. eexists. split; [|exact Hk]. by eapply Matches_Many1_one.
Qed.

(** What the matcher returns is what the continuation returns at the end
    of some match of the pattern. *)
Lemma matchRegex_Some r p k x :
  matchRegex ignoreCase r p k = Some x →
  ∃ q, Matches ignoreCase r p q ∧ k q = Some x.
Proof.
  revert p k. induction r as [|cs|cs|cs| |r1 IH1 r2 IH2|r1 IH1 r2 IH2|r IH];
    intros p k; simpl.
  - eauto using Matches.
  - destruct (rest p) as [|c s] eqn:Hp; [done|].
    destruct (accepts ignoreCase cs c) eqn:Hc; [|done]. eauto using Matches.
  - destruct (rest p) as [|c s] eqn:Hp; [by eauto using Matches|].
    destruct (accepts ignoreCase cs c) eqn:Hc; [|by eauto using Matches].
    destruct (k (mkPos (Some c) s (caps p))) eqn:Hk.
    + intros [= ->]. eauto using Matches.
    + eauto using Matches.
  - apply many1_Some.
  - destruct (xorb _ _) eqn:Hx; [|done]. eauto using Matches.
  - intros H. apply IH1 in H as (q & Hq & H). apply IH2 in H as (t & Ht & H).
    eauto using Matches.
  - destruct (matchRegex ignoreCase r1 p k) eqn:H1.
    + intros [= ->]. apply IH1 in H1 as (q & Hq & H). eauto using Matches.
    + intros H. apply IH2 in H as (q & Hq & H). eauto using Matches.
  - intros H. apply IH in H as (q & Hq & H). eauto using Matches.
Qed.
End RegExpSound.

Section ReplaceFacts.
Import JsString RegExp.

Lemma Matches_suffix ignoreCase r p q :
  Matches ignoreCase r p q → rest q `suffix_of` rest p.
Proof.
  induction 1 as [ |cs p c s Hp|cs p c s Hp| |cs p c s Hp|cs p c s q Hp Hc Hq IH| |
                   r1 r2 p q t H1 IH1 H2 IH2| | |r p q Hq IH]; simpl; try done.
  - rewrite Hp. by apply suffix_cons_r.
  - rewrite Hp. by apply suffix_cons_r.
  - rewrite Hp. by apply suffix_cons_r.
  - rewrite Hp. by apply suffix_cons_r.
  - by etrans.
Qed.

(** The groups of a match are pieces of the input. *)
Lemma Matches_units (P : N → Prop) ignoreCase r p q :
  Matches ignoreCase r p q →
  Forall P (rest p) → Forall (Forall P) (caps p) → Forall (Forall P) (caps q).
Proof.
  induction 1 as [ |cs p c s Hp|cs p c s Hp| |cs p c s Hp|cs p c s q Hp Hc Hq IH| |
                   r1 r2 p q t H1 IH1 H2 IH2| | |r p q Hq IH];
    intros Hr Hcaps; simpl; try done; try by auto.
  - apply IH; simpl; [|done]. rewrite Hp in Hr. by inversion Hr.
  - apply IH2; [|by apply IH1].
    destruct (Matches_suffix _ _ _ _ H1) as [pre Hpre].
    rewrite Hpre in Hr. by apply Forall_app in Hr as [_ ?].
  - apply Forall_app. split; [by apply IH|].
    constructor; [by apply Forall_take | constructor].
Qed.

(** Replacing every match by its first group only keeps units of the
    input. *)
Lemma replaceAll_group1_units (P : N → Prop) ignoreCase r s :
  Forall P s → Forall P (replaceAll ignoreCase r group1 s).
Proof.
  assert (∀ prev s q, Forall P s → matchAt ignoreCase r prev s = Some q →
                      Forall P (group1 (caps q))) as Hg.
  { intros prev s' q Hs Hm. unfold matchAt in Hm.
    apply matchRegex_Some in Hm as (q' & Hq' & Heq). apply (inj Some) in Heq. subst q'.
    pose proof (Matches_units P _ _ _ _ Hq' Hs (Forall_nil_2 _)) as Hc.
    unfold group1. destruct (caps q !! 0%nat) as [g|] eqn:H0; simpl; [|constructor].
    by eapply (Forall_lookup_1 _ _ _ _ Hc). }
  unfold replaceAll. generalize (@None N) as prev. generalize 0%nat as skip.
  induction s as [|c s IH]; intros skip prev Hs.
  - destruct skip; cbn [replaceAll_go]; [|constructor].
    destruct (matchAt ignoreCase r prev []) eqn:Hm; [apply (Hg _ _ _ Hs Hm) | constructor].
  - pose proof (Forall_inv Hs) as Hc. pose proof (Forall_inv_tail Hs) as Hs'.
    destruct skip as [|n]; cbn [replaceAll_go]; [|by apply IH].
    destruct (matchAt ignoreCase r prev (c :: s)) as [q|] eqn:Hm.
    + destruct (length (c :: s) - length (rest q))%nat.
      * apply Forall_app. split; [apply (Hg _ _ _ Hs Hm)|]. constructor; [done | by apply IH].
      * apply Forall_app. split; [apply (Hg _ _ _ Hs Hm) | by apply IH].
    + constructor; [done | by apply IH].
Qed.

(** Replacing every emphasis or code marker by nothing removes them and
    nothing else. *)
Lemma replaceAll_emphasis s :
  replaceAll false FetchDescriptions.emphasisPattern (λ _, []) s
  = filter (λ c, c ∉ Further.markers) s.
Proof.
  unfold replaceAll. generalize (@None N) as prev.
  induction s as [|c s IH]; intros prev; [done|].
  cbn [replaceAll_go]. unfold matchAt, FetchDescriptions.emphasisPattern.
  cbn [matchRegex rest caps accepts existsb sameUnit].
  rewrite filter_cons. change Further.markers with [42; 95; 96]%N.
  destruct (decide (c ∉ [42; 95; 96]%N)) as [Hout|Hin].
  - assert ((42 =? c)%N || ((95 =? c)%N || ((96 =? c)%N || false)) = false) as ->.
    { rewrite !orb_false_iff, !N.eqb_neq. set_solver. }
    by rewrite IH.
  - assert ((42 =? c)%N || ((95 =? c)%N || ((96 =? c)%N || false)) = true) as ->.
    { apply dec_stable in Hin. rewrite !orb_true_iff, !N.eqb_eq. set_solver. }
    cbn [rest]. replace (length (c :: s) - length s)%nat with 1%nat by (simpl; lia).
    by rewrite IH.
Qed.
End ReplaceFacts.

Section StringFacts.
Import JsString.

Lemma trimStart_suffix s : trimStart s `suffix_of` s.
Proof.
  induction s as [|c s IH]; simpl; [done|].
  destruct (isTrimmed c); [by apply suffix_cons_r | done].
Qed.

Lemma trimEnd_prefix s : trimEnd s `prefix_of` s.
Proof.
  unfold trimEnd. destruct (trimStart_suffix (reverse s)) as [k Hk].
  exists (reverse k). by rewrite <- reverse_app, <- Hk, reverse_involutive.
Qed.

Lemma trimStart_head s c : head (trimStart s) = Some c → isTrimmed c = false.
Proof.
  induction s as [|a s IH]; simpl; [done|].
  destruct (isTrimmed a) eqn:Ha; [done|]. simpl. by intros [= <-].
Qed.

Lemma trim_units (P : N → Prop) s : Forall P s → Forall P (trim s).
Proof.
  intros Hs. destruct (trimStart_suffix s) as [k Hk].
  destruct (trimEnd_prefix (trimStart s)) as [k' Hk']. fold (trim s) in Hk'.
  rewrite Hk, Hk' in Hs. apply Forall_app in Hs as [_ Hs].
  by apply Forall_app in Hs as [? _].
Qed.

Lemma trim_head s c : head (trim s) = Some c → isTrimmed c = false.
Proof.
  intros Hc. apply (trimStart_head s).
  destruct (trimEnd_prefix (trimStart s)) as [k Hk]. fold (trim s) in Hk.
  rewrite Hk, head_app, Hc. done.
Qed.

Lemma trim_last s c : last (trim s) = Some c → isTrimmed c = false.
Proof.
  unfold trim, trimEnd. rewrite last_reverse. apply trimStart_head.
Qed.

Lemma slice_units {A} (P : A → Prop) (s : list A) from to :
  Forall P s → Forall P (slice s from to).
Proof. intros Hs. unfold slice. by apply Forall_take, Forall_drop. Qed.

Lemma split_nonempty sep s : split sep s ≠ [].
Proof.
  destruct s as [|c s]; simpl; [done|].
  destruct (c =? sep)%N; [done|]. by destruct (split sep s).
Qed.

Lemma split_units (P : N → Prop) sep s :
  Forall P s → Forall (Forall P) (split sep s).
Proof.
  induction 1 as [|c s Hc Hs IH]; simpl; [by repeat constructor|].
  destruct (c =? sep)%N; [by constructor|].
  destruct (split sep s) as [|l ls]; [by repeat constructor|].
  inversion IH; subst. by repeat constructor.
Qed.

Lemma split_no_sep sep s : Forall (Forall (λ c, c ≠ sep)) (split sep s).
Proof.
  induction s as [|c s IH]; simpl; [by repeat constructor|].
  destruct (c =? sep)%N eqn:Hc; [by constructor|]. apply N.eqb_neq in Hc.
  destruct (split sep s) as [|l ls]; [by repeat constructor|].
  inversion IH; subst. by repeat constructor.
Qed.

Lemma split_app sep a b :
  split sep (a ++ sep :: b) = split sep a ++ split sep b.
Proof.
  induction a as [|c a IH]; simpl; [by rewrite N.eqb_refl|].
  destruct (c =? sep)%N; [by rewrite IH|]. rewrite IH.
  pose proof (split_nonempty sep a). by destruct (split sep a).
Qed.

Lemma join_units (P : N → Prop) sep l :
  Forall P sep → Forall (Forall P) l → Forall P (join sep l).
Proof.
  intros Hsep. induction 1 as [|x l Hx Hl IH]; simpl; [done|].
  destruct l; [done|]. by rewrite !Forall_app.
Qed.

Lemma startsWith_app p s c t :
  startsWith p s = false → c ∉ p → startsWith p (s ++ c :: t) = false.
Proof.
  revert s. induction p as [|a p IH]; intros s; [done|].
  intros Hs Hc. apply not_elem_of_cons in Hc as [Hne Hc].
  destruct s as [|b s]; simpl in *.
  - apply andb_false_iff. left. apply N.eqb_neq. congruence.
  - apply andb_false_iff in Hs as [Hs|Hs]; apply andb_false_iff; [by left|].
    right. by apply IH.
Qed.
End StringFacts.

Section Extractor.
Import JsString RegExp FetchDescriptions Spec Further.

Lemma stripFrontmatter_units (P : N → Prop) md :
  Forall P md → Forall P (stripFrontmatter md).
Proof.
  intros Hmd. unfold stripFrontmatter.
  destruct (startsWith _ md); [|done].
  destruct (negb _); [|done]. by apply trim_units, slice_units.
Qed.

Lemma collectParagraph_units (P : N → Prop) lines acc :
  Forall (Forall P) lines → Forall (Forall P) acc →
  Forall (Forall P) (collectParagraph lines acc).
Proof.
  intros Hl. revert acc. induction Hl as [|l ls Hline Hls IH]; intros acc Hacc;
    cbn [collectParagraph]; [done|]. cbv zeta.
  destruct (len (trim l) =? 0).
  - destruct (0 <? _); [done | by apply IH].
  - destruct (_ || _); [by apply IH|].
    apply IH, Forall_app. split; [done|]. constructor; [by apply trim_units | done].
Qed.

Lemma firstParagraph_units (P : N → Prop) md :
  Forall (Forall P) (split LF (stripFrontmatter md)) →
  Forall (Forall P) (firstParagraph md).
Proof.
  intros H. unfold firstParagraph. cbv zeta.
  apply collectParagraph_units; [by apply Forall_drop | done].
Qed.

Lemma truncate_units (P : N → Prop) desc :
  P 46%N → Forall P desc → Forall P (truncate desc).
Proof.
  intros Hdot Hd. unfold truncate. destruct (200 <? len desc); [|done].
  apply Forall_app. split; [by apply slice_units|]. by repeat constructor.
Qed.

Lemma extractDescription_Some md d :
  extractDescription md = Some d →
  d = truncate (cleanMarkdown (join (js " ") (firstParagraph md)))
  ∧ firstParagraph md ≠ [] ∧ 10 < len d.
Proof.
  unfold extractDescription. cbv zeta.
  destruct (Z.of_nat (length (firstParagraph md)) =? 0) eqn:Hn; [done|].
  destruct (10 <? len _) eqn:Hlen; [|done].
  intros Hd. apply (inj Some) in Hd.
  split; [done|]. split.
  - intros Hnil. by rewrite Hnil in Hn.
  - subst d. by apply Z.ltb_lt.
Qed.

(** X17: the description is one line of the document's own text without
    markers: none of its units is a line feed or one of the markers
    [*], [_] and the backtick, and each is a unit of the document, or a
    space or a full stop (the joints between lines and the ellipsis). *)
Theorem extractDescription_units md d :
  extractDescription md = Some d →
  Forall (λ c, (c ∉ markers) ∧ c ≠ LF ∧ (c ∈ md ∨ c ∈ glue)) d.
Proof.
  intros (-> & _ & _)%extractDescription_Some.
  set (P := λ c : N, c ≠ LF ∧ (c ∈ md ∨ c ∈ glue)).
  assert (Forall P (join (js " ") (firstParagraph md))) as Hjoin.
  { apply join_units.
    - constructor; [|constructor]. split; [done|]. right. unfold glue. simpl. set_solver.
    - apply firstParagraph_units, Forall_forall. intros l Hl.
      apply Forall_forall. intros c Hc. split.
      + pose proof (split_no_sep LF (stripFrontmatter md)) as H.
        rewrite Forall_forall in H. specialize (H l Hl).
        rewrite Forall_forall in H. by apply H.
      + left.
        assert (Forall (Forall (λ c, c ∈ md)) (split LF (stripFrontmatter md))) as H
          by (by apply split_units, stripFrontmatter_units, Forall_forall).
        rewrite Forall_forall in H. specialize (H l Hl).
        rewrite Forall_forall in H. by apply H. }
  assert (P 46%N) as Hdot.
  { split; [done|]. right. unfold glue. simpl. set_solver. }
  assert (46%N ∉ markers) as Hdot' by (unfold markers; simpl; set_solver).
  unfold cleanMarkdown. cbv zeta. rewrite replaceAll_emphasis.
  apply Forall_and. split.
  - apply truncate_units, trim_units; [done|].
    apply Forall_forall. by intros c [? _]%list_elem_of_filter.
  - apply (truncate_units P), trim_units; [done|].
    apply Forall_forall. intros c [_ Hc]%list_elem_of_filter. revert c Hc.
    by apply Forall_forall, replaceAll_group1_units.
Qed.

Lemma extractDescription_units_witness :
  extractDescription exampleDocument = Some (js "This is the description.")
  ∧ Forall (λ c, (c ∉ markers) ∧ c ≠ LF ∧ (c ∈ exampleDocument ∨ c ∈ glue))
      (js "This is the description.").
Proof.
  split; [vm_compute; reflexivity|].
  apply extractDescription_units. vm_compute. reflexivity.
Defined.

(** X18: the description neither starts nor ends with white space or a
    line terminator. *)
Theorem extractDescription_trimmed md d :
  extractDescription md = Some d →
  ∃ first last_,
    head d = Some first ∧ last d = Some last_
    ∧ isTrimmed first = false ∧ isTrimmed last_ = false.
Proof.
  intros (Hd & _ & Hlen)%extractDescription_Some.
  set (desc := cleanMarkdown (join (js " ") (firstParagraph md))) in *.
  assert (∀ c, head desc = Some c → isTrimmed c = false) as Hhead
    by (intros c; apply trim_head).
  assert (∀ c, last desc = Some c → isTrimmed c = false) as Hlast
    by (intros c; apply trim_last).
  clearbody desc. destruct (decide (200 < len desc)) as [Hlong|Hshort].
  - destruct (truncate_long desc Hlong) as [Ht _]. rewrite Ht in Hd.
    unfold len in Hlong. destruct desc as [|c rest_]; [simpl in Hlong; lia|].
    exists c, 46%N. subst d. split; [done|]. split; [|split; [by apply Hhead | done]].
    change (js "...") with ([46; 46] ++ [46])%N. by rewrite app_assoc, last_snoc.
  - rewrite truncate_short in Hd by lia. subst d. unfold len in Hlen.
    destruct (head desc) as [c|] eqn:Hc;
      [|apply head_None in Hc; rewrite Hc in Hlen; simpl in Hlen; lia].
    destruct (last desc) as [c'|] eqn:Hc';
      [|apply last_None in Hc'; rewrite Hc' in Hlen; simpl in Hlen; lia].
    exists c, c'. auto.
Qed.

Lemma extractDescription_trimmed_witness :
  ∃ first last_,
    head (js "This is the description.") = Some first
    ∧ last (js "This is the description.") = Some last_
    ∧ isTrimmed first = false ∧ isTrimmed last_ = false.
Proof.
  apply (extractDescription_trimmed exampleDocument). vm_compute. reflexivity.
Defined.

Lemma collectParagraph_skipped lines :
  Forall (λ l, isSkipped (trim l) = true) lines → collectParagraph lines [] = [].
Proof.
  induction 1 as [|l ls Hl Hls IH]; cbn [collectParagraph]; [done|]. cbv zeta.
  destruct (len (trim l) =? 0) eqn:Hblank; [done|].
  unfold isSkipped in Hl. rewrite Hblank in Hl. cbn [orb] in Hl. by rewrite Hl.
Qed.

(** X19: a document in which every line (after the front matter) is blank,
    a heading, a code fence or a checklist entry has no description. *)
Theorem extractDescription_nothing md :
  Forall (λ l, isSkipped (trim l) = true) (split LF (stripFrontmatter md)) →
  extractDescription md = None.
Proof.
  intros H. unfold extractDescription, firstParagraph. cbv zeta.
  by rewrite collectParagraph_skipped; [|apply Forall_drop].
Qed.

Lemma extractDescription_nothing_witness : extractDescription outlineDocument = None.
Proof.
  apply extractDescription_nothing. apply (bool_decide_unpack _). vm_compute. exact I.
Defined.

Lemma findStart_app lines more i :
  Exists (λ l, trim l ≠ []) lines →
  findStart (lines ++ more) i = findStart lines i
  ∧ (Z.to_nat (findStart lines i - i) ≤ length lines)%nat.
Proof.
  intros Hex. revert i. induction lines as [|l ls IH]; intros i.
  { by apply Exists_nil in Hex. }
  cbn [app findStart length].
  destruct (startsWith (js "#") (trim l)); [split; [done | lia]|].
  destruct (trim l) as [|c t] eqn:Ht.
  - apply Exists_cons in Hex as [Hex|Hex]; [done|].
    replace (0 <? len []) with false by done. cbn [andb].
    destruct (IH Hex (i + 1)) as [-> Hle]. split; [done | lia].
  - replace (0 <? len (c :: t)) with true
      by (symmetry; apply Z.ltb_lt; unfold len; simpl; lia).
    simpl. split; [done | lia].
Qed.

Lemma collectParagraph_blank lines more acc :
  collectParagraph lines acc ≠ [] →
  collectParagraph (lines ++ [] :: more) acc = collectParagraph lines acc.
Proof.
  revert acc. induction lines as [|l ls IH]; intros acc.
  - cbn [app collectParagraph]. intros Hacc. cbv zeta.
    change (len (trim []) =? 0) with true. cbv iota.
    destruct acc; [done|]. done.
  - cbn [app collectParagraph]. cbv zeta.
    destruct (len (trim l) =? 0).
    + destruct (0 <? _); [done | apply IH].
    + destruct (_ || _); apply IH.
Qed.

Lemma collectParagraph_none lines :
  Forall (λ l, trim l = []) lines → collectParagraph lines [] = [].
Proof.
  induction 1 as [|l ls Hl Hls IH]; cbn [collectParagraph]; [done|]. cbv zeta.
  by rewrite Hl.
Qed.

(** X20: only the first paragraph counts: once a document without front
    matter has a description, a blank line and any text added after it
    leave the description as it is. *)
Theorem extractDescription_first_paragraph md more d :
  startsWith (js "---") md = false →
  extractDescription md = Some d →
  extractDescription (md ++ [LF; LF] ++ more) = Some d.
Proof.
  intros Hfm Hd. rewrite <- Hd. unfold extractDescription. cbv zeta.
  apply extractDescription_Some in Hd as (_ & Hpar & _).
  enough (firstParagraph (md ++ [LF; LF] ++ more) = firstParagraph md) as -> by done.
  unfold firstParagraph in *. cbv zeta in *. unfold stripFrontmatter in *.
  rewrite Hfm in *.
  change (md ++ [LF; LF] ++ more) with (md ++ LF :: ([] ++ LF :: more)).
  rewrite (startsWith_app _ md LF ([] ++ LF :: more) Hfm) by (simpl; set_solver).
  rewrite !split_app. change (split LF []) with [@nil N]. cbn [app].
  assert (Exists (λ l, trim l ≠ []) (split LF md)) as Hex.
  { apply not_Forall_Exists; [intros l; apply _|]. intros Hall.
    by apply Hpar, collectParagraph_none, Forall_drop. }
  destruct (findStart_app (split LF md) ([] :: split LF more) 0 Hex) as [-> Hle].
  rewrite Z.sub_0_r in Hle. rewrite drop_app_le by done.
  by apply collectParagraph_blank.
Qed.

Lemma extractDescription_first_paragraph_witness :
  extractDescription
    (js "A first paragraph." ++ [LF; LF] ++ js "A second paragraph, which is longer.")
  = Some (js "A first paragraph.").
Proof.
  apply (extractDescription_first_paragraph (js "A first paragraph."));
    vm_compute; reflexivity.
Defined.
End Extractor.

(* ===================================================================== *)
(** * Further properties: the description of one skill                   *)
(* ===================================================================== *)

Section FetchSkillDescription.
Import JsString FetchDescriptions Spec Further.

Variable w : World.
Variable item : SkillIndexItem.t.

Let paths : list jsstring :=
  candidatePaths (SkillIndexItem.source item) (SkillIndexItem.skillId item).

Lemma fetchSkillDescription_unfold :
  fetchSkillDescription w item
  = match cacheFile w (cachePathOf w item) with
    | Some content =>
        if truthy (extractDescription content)
        then mkFetched (extractDescription content) (Some (mdPathOf item))
        else tryPaths w item paths
    | None => tryPaths w item paths
    end.
Proof. reflexivity. Qed.

Lemma tryPaths_firstContent ps :
  tryPaths w item ps
  = match firstContent w item ps with
    | Some content => mkFetched (extractDescription content) (Some (mdPathOf item))
    | None => mkFetched None None
    end.
Proof.
  induction ps as [|p ps IH]; [done|]. cbn [tryPaths firstContent]. cbv zeta.
  destruct (fetchGitHubRaw w (SkillIndexItem.source item) p) as [[|c content]|]; done.
Qed.


Lemma extractDescription_truthy content d :
  extractDescription content = Some d → truthy (Some d) = true.
Proof.
  intros (_ & _ & Hlen)%extractDescription_Some.
  destruct d; [by unfold len in Hlen | done].
Qed.


(** X22: after a call that returned a description, with the cache as the
    call left it, a later call for the item returns the same result from
    the cache, whatever the raw-content host answers then, and writes
    nothing. *)
Theorem fetchSkillDescription_again w' d :
  description (fetchSkillDescription w item) = Some d →
  MD_DIR w' = MD_DIR w →
  cacheFile w' (cachePathOf w item) = cacheFile (worldAfter w item) (cachePathOf w item) →
  fetchSkillDescription w' item = fetchSkillDescription w item
  ∧ cacheWritten w' item = None.
Proof.
  intros Hd Hdir Hfile.
  assert (cachePathOf w' item = cachePathOf w item) as Hpath
    by (unfold cachePathOf; by rewrite Hdir).
  rewrite (fetchSkillDescription_unfold) in Hd |- *.
  unfold fetchSkillDescription at 1. cbv zeta. fold (cachePathOf w' item).
  unfold cacheWritten at 1. cbv zeta. rewrite Hpath, Hfile.
  cbn [worldAfter cacheFile]. rewrite decide_True by done.
  unfold cacheWritten. cbv zeta. fold paths.
  destruct (cacheFile w (cachePathOf w item)) as [cached|] eqn:Hcache.
  - destruct (truthy (extractDescription cached)) eqn:Ht.
    + by rewrite Ht.
    + rewrite tryPaths_firstContent in Hd |- *.
      destruct (firstContent w item paths) as [content|] eqn:Hfirst; [|done].
      cbn [description] in Hd.
      pose proof (extractDescription_truthy _ _ Hd) as Htd. rewrite <- Hd in Htd.
      by rewrite Htd.
  - rewrite tryPaths_firstContent in Hd |- *.
    destruct (firstContent w item paths) as [content|] eqn:Hfirst; [|done].
    cbn [description] in Hd.
      pose proof (extractDescription_truthy _ _ Hd) as Htd. rewrite <- Hd in Htd.
      by rewrite Htd.
Qed.
End FetchSkillDescription.

Section FetchSkillDescriptionWitnesses.
Import JsString FetchDescriptions Spec Further.


Lemma fetchSkillDescription_again_witness :
  fetchSkillDescription
    (offline (worldAfter sampleWorld (indexItem "a" "b" 9 None)))
    (indexItem "a" "b" 9 None)
  = fetchSkillDescription sampleWorld (indexItem "a" "b" 9 None).
Proof.
  apply (fetchSkillDescription_again sampleWorld (indexItem "a" "b" 9 None)
           (offline (worldAfter sampleWorld (indexItem "a" "b" 9 None)))
           (js "This is the description."));
    [vm_compute; reflexivity | reflexivity | reflexivity].
Defined.
End FetchSkillDescriptionWitnesses.

(* ===================================================================== *)
(** * Further properties: the worker pool                                *)
(* ===================================================================== *)

Section WorkerPool.
Import JsString FetchDescriptions Further.
Context {T R : Type}.
Variable items : list T.
Variable concurrency : Z.
Variable fn : T → R.
Implicit Types st : Pool R.

Lemma poolStart_invariant :
  poolInvariant items concurrency fn (poolStart items concurrency).
Proof.
  unfold poolInvariant, poolStart. cbn [nextIdx workers slots].
  split; [lia|]. split; [by rewrite length_replicate|].
  split; [by rewrite length_replicate|].
  split; [by intros w idx [? _]%lookup_replicate|].
  split; [by intros w1 w2 idx [? _]%lookup_replicate|].
  split; [intros; lia|].
  split; [intros idx Hidx; apply lookup_replicate_2; lia|].
  split; [by intros w [? _]%lookup_replicate | lia].
Qed.

Lemma poolStep_invariant st st' :
  poolInvariant items concurrency fn st → poolStep items fn st st' →
  poolInvariant items concurrency fn st'.
Proof.
  intros (Hnext & Hslots & Hsize & Hrun & Hdistinct & Hfilled & Hempty & Hstopped
          & Hsome) Hstep.
  destruct Hstep as [st w Hw Hlt|st w Hw Hge|st w i x Hw Hx];
    unfold poolInvariant; cbn [nextIdx workers slots].
  - split; [lia|]. split; [done|]. split; [by rewrite length_insert|].
    assert (w < length (workers st))%nat as Hwlt by (by eapply lookup_lt_Some).
    split; [|split; [|split; [|split; [|split]]]].
    + intros w' idx [(-> & Heq & _)|[Hne Hw']]%list_lookup_insert_Some.
      * injection Heq as <-. split; [lia|]. apply Hempty. lia.
      * destruct (Hrun _ _ Hw') as [? ?]. split; [lia | done].
    + intros w1 w2 idx [(-> & Heq1 & _)|[Hne1 Hw1]]%list_lookup_insert_Some
                       [(-> & Heq2 & _)|[Hne2 Hw2]]%list_lookup_insert_Some.
      * done.
      * injection Heq1 as <-. destruct (Hrun _ _ Hw2). lia.
      * injection Heq2 as <-. destruct (Hrun _ _ Hw1). lia.
      * by eapply Hdistinct.
    + intros idx x Hidx Hitem.
      destruct (decide (idx = nextIdx st)) as [->|Hne].
      * right. exists w. by apply list_lookup_insert_eq.
      * destruct (Hfilled idx x) as [?|[w' Hw']]; [lia | done | by left|].
        right. exists w'. rewrite list_lookup_insert_ne; [done|]. congruence.
    + intros idx Hidx. apply Hempty. lia.
    + intros w' [(-> & Heq & _)|[Hne Hw']]%list_lookup_insert_Some; [done|].
      specialize (Hstopped _ Hw'). lia.
    + rewrite length_insert. lia.
  - split; [done|]. split; [done|]. split; [by rewrite length_insert|].
    split; [|split; [|split; [|split; [|split]]]].
    + intros w' idx [(-> & Heq & _)|[Hne Hw']]%list_lookup_insert_Some; [done|].
      by eapply Hrun.
    + intros w1 w2 idx [(-> & Heq1 & _)|[Hne1 Hw1]]%list_lookup_insert_Some; [done|].
      intros [(-> & Heq2 & _)|[Hne2 Hw2]]%list_lookup_insert_Some; [done|].
      by eapply Hdistinct.
    + intros idx x Hidx Hitem.
      destruct (Hfilled idx x) as [?|[w' Hw']]; [done | done | by left|].
      right. exists w'. rewrite list_lookup_insert_ne; [done|]. congruence.
    + done.
    + intros w' [(-> & Heq & _)|[Hne Hw']]%list_lookup_insert_Some; [done|].
      by eapply Hstopped.
    + by rewrite length_insert.
  - destruct (Hrun _ _ Hw) as [Hi Hslot].
    assert (i < length (slots st))%nat as Hilt by (by eapply lookup_lt_Some).
    split; [done|]. split; [by rewrite length_insert|].
    split; [by rewrite length_insert|].
    split; [|split; [|split; [|split; [|split]]]].
    + intros w' idx [(-> & Heq & _)|[Hne Hw']]%list_lookup_insert_Some; [done|].
      destruct (Hrun _ _ Hw') as [? ?]. split; [done|].
      rewrite list_lookup_insert_ne; [done|]. intros ->.
      by apply Hne, (Hdistinct w w' idx).
    + intros w1 w2 idx [(-> & Heq1 & _)|[Hne1 Hw1]]%list_lookup_insert_Some; [done|].
      intros [(-> & Heq2 & _)|[Hne2 Hw2]]%list_lookup_insert_Some; [done|].
      by eapply Hdistinct.
    + intros idx x' Hidx Hitem.
      destruct (decide (idx = i)) as [->|Hne].
      * left. rewrite list_lookup_insert_eq by done. congruence.
      * rewrite list_lookup_insert_ne by done.
        destruct (Hfilled idx x') as [?|[w' Hw']]; [done | done | by left|].
        right. exists w'. rewrite list_lookup_insert_ne; [done|]. congruence.
    + intros idx Hidx. rewrite list_lookup_insert_ne by lia. by apply Hempty.
    + intros w' [(-> & Heq & _)|[Hne Hw']]%list_lookup_insert_Some; [done|].
      by eapply Hstopped.
    + by rewrite length_insert.
Qed.

Lemma poolReaches_invariant st :
  poolReaches items concurrency fn st → poolInvariant items concurrency fn st.
Proof.
  induction 1 as [|st st' _ IH Hstep];
    [apply poolStart_invariant | by eapply poolStep_invariant].
Qed.

Lemma poolReachesIn_reaches n st :
  poolReachesIn items concurrency fn n st → poolReaches items concurrency fn st.
Proof. induction 1; [by constructor | by econstructor]. Qed.

(** X23: at any moment of a run, the calls in flight are no more than the
    workers, [min(concurrency, items.length)] of them; no two workers work
    on the same item, and an item that is being worked on has no result
    yet: every item is handed out at most once. *)
Theorem pool_in_flight st :
  poolReaches items concurrency fn st →
  (inFlight st ≤ poolSize items concurrency)%nat
  ∧ (∀ w1 w2 idx, workers st !! w1 = Some (Running idx) →
       workers st !! w2 = Some (Running idx) → w1 = w2)
  ∧ (∀ w idx, workers st !! w = Some (Running idx) →
       (idx < length items)%nat ∧ slots st !! idx = Some None).
Proof.
  intros (Hnext & _ & Hsize & Hrun & Hdistinct & _)%poolReaches_invariant.
  split; [|split; [done|]].
  - unfold inFlight. rewrite <- Hsize. apply length_filter.
  - intros w idx Hw. destruct (Hrun _ _ Hw). split; [lia | done].
Qed.

(** X24: when all the workers have left their loops, the result array is
    the one of [processPool]: [fn] of every item, in the order of the
    items, whatever the order in which the calls returned; with no worker
    every slot is still empty. *)
Theorem pool_results_in_order st :
  poolReaches items concurrency fn st → poolDone st →
  slots st = processPool items concurrency fn.
Proof.
  intros (Hnext & Hslots & Hsize & Hrun & _ & Hfilled & Hempty & Hstopped & Hsome)%poolReaches_invariant
         Hdone.
  unfold poolDone in Hdone. rewrite Forall_lookup in Hdone.
  unfold processPool. fold (poolSize items concurrency) in Hsize.
  destruct (0 <? Z.min concurrency (Z.of_nat (length items))) eqn:Hpos.
  - apply Z.ltb_lt in Hpos.
    assert (0 < length (workers st))%nat as Hworker by (unfold poolSize in Hsize; lia).
    destruct (lookup_lt_is_Some_2 _ _ Hworker) as [w0 Hw0].
    pose proof (Hdone _ _ Hw0) as ->. specialize (Hstopped _ Hw0).
    apply list_eq. intros idx. rewrite !list_lookup_fmap.
    destruct (items !! idx) as [x|] eqn:Hx; simpl.
    + assert (idx < length items)%nat by (by eapply lookup_lt_Some).
      destruct (Hfilled idx x) as [?|[w Hw]]; [lia | done | done|].
      by specialize (Hdone _ _ Hw).
    + apply lookup_ge_None. apply lookup_ge_None in Hx. lia.
  - apply Z.ltb_ge in Hpos.
    assert (workers st = []) as Hnone
      by (apply length_zero_iff_nil; unfold poolSize in Hsize; lia).
    apply list_eq. intros idx.
    destruct (decide (idx < length items)%nat) as [Hlt|Hge].
    + rewrite lookup_replicate_2 by done.
      apply Hempty. rewrite Hnone in Hsome. simpl in Hsome. lia.
    + rewrite !(proj2 (lookup_ge_None _ _)); [done | rewrite length_replicate; lia | lia].
Qed.

Lemma stepsLeft_insert (l : list Worker) w old new :
  l !! w = Some old →
  (sum_list (workerSteps <$> <[w := new]> l) + workerSteps old
   = sum_list (workerSteps <$> l) + workerSteps new)%nat.
Proof.
  revert w. induction l as [|a l IH]; intros [|w] Hw; simplify_eq/=; [lia|].
  specialize (IH _ Hw). lia.
Qed.

Lemma poolStep_stepsLeft st st' :
  poolInvariant items concurrency fn st → poolStep items fn st st' →
  S (stepsLeft items st') = stepsLeft items st.
Proof.
  intros (Hnext & _) Hstep.
  destruct Hstep as [st w Hw Hlt|st w Hw Hge|st w i x Hw Hx];
    unfold stepsLeft; cbn [nextIdx workers slots].
  - pose proof (stepsLeft_insert _ _ _ (Running (nextIdx st)) Hw) as Hsum.
    simpl in Hsum. lia.
  - pose proof (stepsLeft_insert _ _ _ Stopped Hw) as Hsum. simpl in Hsum. lia.
  - pose proof (stepsLeft_insert _ _ _ Ready Hw) as Hsum. simpl in Hsum. lia.
Qed.

Lemma poolReachesIn_steps n st :
  poolReachesIn items concurrency fn n st →
  (n + stepsLeft items st = 2 * length items + poolSize items concurrency)%nat.
Proof.
  induction 1 as [|n st st' Hreach IH Hstep].
  - unfold stepsLeft, poolStart. cbn [nextIdx workers].
    rewrite fmap_replicate, sum_list_replicate. unfold poolSize. simpl. lia.
  - apply poolReachesIn_reaches, poolReaches_invariant in Hreach.
    pose proof (poolStep_stepsLeft _ _ Hreach Hstep). lia.
Qed.

Lemma workers_cases (l : list Worker) :
  Forall (λ w, w = Stopped) l ∨ ∃ w x, l !! w = Some x ∧ x ≠ Stopped.
Proof.
  induction l as [|a l [IH|(w & x & Hw & Hx)]].
  - by left.
  - destruct a as [|idx|]; [right; by exists 0%nat, Ready
                           |right; by exists 0%nat, (Running idx)|].
    left. by constructor.
  - right. by exists (S w), x.
Qed.

(** X25: the pool cannot get stuck and cannot run for ever: as long as a
    worker has not left its loop some worker can take a step, and no run
    has more than [2 * items.length + workers] steps. *)
Theorem pool_terminates n st :
  poolReachesIn items concurrency fn n st →
  (n ≤ 2 * length items + poolSize items concurrency)%nat
  ∧ (¬ poolDone st → ∃ st', poolStep items fn st st').
Proof.
  intros Hreach. split.
  - pose proof (poolReachesIn_steps _ _ Hreach). lia.
  - apply poolReachesIn_reaches, poolReaches_invariant in Hreach
      as (Hnext & _ & _ & Hrun & _).
    intros Hnot. destruct (workers_cases (workers st)) as [?|(w & x & Hw & Hx)]; [done|].
    destruct x as [|idx|]; [| |done].
    + destruct (decide (nextIdx st < length items)%nat) as [Hlt|Hge].
      * eexists. by eapply pool_take.
      * eexists. eapply pool_stop; [done | lia].
    + destruct (Hrun _ _ Hw) as [Hidx _].
      destruct (lookup_lt_is_Some_2 items idx) as [x Hitem]; [lia|].
      eexists. by eapply pool_done.
Qed.
End WorkerPool.

Section WorkerPoolWitnesses.
Import JsString FetchDescriptions Further.

Lemma poolAfterTake_reached : poolReachesIn sampleItems 2 sampleJob 1 poolAfterTake.
Proof.
  apply (reachesIn_step _ _ _ _ (poolStart sampleItems 2)); [apply reachesIn_start|].
  apply (pool_take sampleItems sampleJob (poolStart sampleItems 2) 0);
    [reflexivity | vm_compute; lia].
Defined.

(** One step forward from a state that a run has reached. *)
Ltac pool_step H tac :=
  match type of H with
  | poolReaches ?items ?k ?fn ?st =>
      let Hs := fresh "Hs" in
      eassert (poolStep items fn st _) as Hs by tac;
      apply (reaches_step items k fn st _ H) in Hs; cbn in Hs;
      clear H; rename Hs into H
  end.

Lemma poolFinished_reached : poolReaches sampleItems 2 sampleJob poolFinished.
Proof.
  pose proof (reaches_start sampleItems 2 sampleJob) as H.
  pool_step H ltac:(eapply (pool_take _ _ _ 0); [reflexivity | vm_compute; lia]).
  pool_step H ltac:(eapply (pool_take _ _ _ 1); [reflexivity | vm_compute; lia]).
  pool_step H ltac:(eapply (pool_done _ _ _ 1); reflexivity).
  pool_step H ltac:(eapply (pool_take _ _ _ 1); [reflexivity | vm_compute; lia]).
  pool_step H ltac:(eapply (pool_done _ _ _ 0); reflexivity).
  pool_step H ltac:(eapply (pool_stop _ _ _ 0); [reflexivity | vm_compute; lia]).
  pool_step H ltac:(eapply (pool_done _ _ _ 1); reflexivity).
  pool_step H ltac:(eapply (pool_stop _ _ _ 1); [reflexivity | vm_compute; lia]).
  exact H.
Defined.

Lemma pool_in_flight_witness : (inFlight poolAfterTake ≤ 2)%nat.
Proof.
  apply (pool_in_flight sampleItems 2 sampleJob poolAfterTake).
  apply (poolReachesIn_reaches _ _ _ 1), poolAfterTake_reached.
Defined.

Lemma pool_results_in_order_witness :
  slots poolFinished = [Some 11; Some 21; Some 31]%nat
  ∧ slots poolFinished = processPool sampleItems 2 sampleJob.
Proof.
  split; [reflexivity|].
  apply (pool_results_in_order sampleItems 2 sampleJob poolFinished).
  - apply poolFinished_reached.
  - repeat constructor.
Defined.

Lemma pool_terminates_witness :
  ∃ st', poolStep sampleItems sampleJob poolAfterTake st'.
Proof.
  apply (pool_terminates sampleItems 2 sampleJob 1 poolAfterTake).
  - apply poolAfterTake_reached.
  - intros Hdone. inversion Hdone as [|? ? Hw _]. discriminate Hw.
Defined.
End WorkerPoolWitnesses.

(* ===================================================================== *)
(** * Further properties: the enrichment run                             *)
(* ===================================================================== *)

Section EnrichmentRun.
Import JsString Spec FetchDescriptions Further.

Variables (TOP_N CONCURRENCY : Z) (fn : SkillIndexItem.t → Fetched).

Lemma processPool_entries {T R} (items : list T) (f : T → R) :
  mapM (λ r : option R, r) (processPool items CONCURRENCY f)
  = if (CONCURRENCY <=? 0) && negb (bool_decide (items = [])) then None
    else Some (f <$> items).
Proof.
  unfold processPool.
  destruct (0 <? Z.min CONCURRENCY (Z.of_nat (length items))) eqn:Hpos.
  - apply Z.ltb_lt in Hpos. rewrite mapM_fmap_Some by done.
    destruct (CONCURRENCY <=? 0) eqn:Hk; [apply Z.leb_le in Hk; lia | done].
  - apply Z.ltb_ge in Hpos. destruct items as [|x items']; cbn [length] in Hpos; simpl.
    + by rewrite andb_false_r.
    + destruct (CONCURRENCY <=? 0) eqn:Hk; [done|]. apply Z.leb_gt in Hk. lia.
Qed.

(** X26: for an index that has been read, an integer concurrency and
    fetches that return: [new Map] throws on the results, before anything
    is written, exactly when the concurrency is not positive and some item
    needs a description (the pool then has no worker and leaves its slots
    empty); in every other case the run reaches the write of the index. *)
Theorem enrichment_throws_iff index :
  main TOP_N CONCURRENCY fn index = None
  ↔ CONCURRENCY ≤ 0 ∧ needsFetch TOP_N index ≠ [].
Proof.
  unfold main. cbv zeta. rewrite processPool_entries.
  destruct (CONCURRENCY <=? 0) eqn:Hk; [apply Z.leb_le in Hk | apply Z.leb_gt in Hk].
  - destruct (bool_decide (needsFetch TOP_N index = [])) eqn:Hn; simpl.
    + apply bool_decide_eq_true in Hn. split; [done | by intros [_ ?]].
    + apply bool_decide_eq_false in Hn. done.
  - simpl. split; [done | lia].
Qed.

Lemma patch_id descMap item :
  SkillIndexItem.id (patch descMap item) = SkillIndexItem.id item.
Proof.
  unfold patch. destruct (JsMap.get _ descMap) as [r|]; [|done].
  by destruct (truthy (description r)).
Qed.

Lemma slice_fmap {A B} (f : A → B) (l : list A) from to :
  slice (f <$> l) from to = f <$> slice l from to.
Proof. unfold slice. by rewrite length_fmap, fmap_take, fmap_drop. Qed.

Lemma slice_lookup {A} (l : list A) (n : Z) x :
  0 ≤ n → x ∈ slice l 0 n → ∃ i, (Z.of_nat i < n) ∧ l !! i = Some x.
Proof.
  intros Hn. unfold slice, clampIndex. simpl.
  rewrite (proj2 (Z.ltb_ge n 0)) by lia.
  rewrite (Z.min_l 0) by lia. rewrite Z.sub_0_r. simpl. rewrite drop_0.
  intros [i Hi]%list_elem_of_lookup. apply lookup_take_Some in Hi as [Hi Hlt].
  exists i. split; [lia | done].
Qed.

Lemma main_header index index' :
  main TOP_N CONCURRENCY fn index = Some index' →
  SkillsIndex.updatedAt index' = SkillsIndex.updatedAt index
  ∧ SkillsIndex.sourceUpdatedAt index' = SkillsIndex.sourceUpdatedAt index
  ∧ SkillsIndex.providerId index' = SkillsIndex.providerId index
  ∧ SkillsIndex.count index' = SkillsIndex.count index.
Proof.
  intros run. unfold main in run. apply bind_Some in run as (entries & _ & Hidx).
  apply (inj Some) in Hidx. by subst index'.
Qed.

(** X27: what lies outside the first [TOP_N] items is written back as it
    was read: the header of the index, with [updatedAt] and [count], and
    every item from position [TOP_N] on. *)
Theorem enrichment_outside_top_n index index' :
  0 ≤ TOP_N →
  NoDup (SkillIndexItem.id <$> SkillsIndex.items index) →
  main TOP_N CONCURRENCY fn index = Some index' →
  SkillsIndex.updatedAt index' = SkillsIndex.updatedAt index
  ∧ SkillsIndex.sourceUpdatedAt index' = SkillsIndex.sourceUpdatedAt index
  ∧ SkillsIndex.providerId index' = SkillsIndex.providerId index
  ∧ SkillsIndex.count index' = SkillsIndex.count index
  ∧ ∀ i, TOP_N ≤ Z.of_nat i →
      SkillsIndex.items index' !! i = SkillsIndex.items index !! i.
Proof.
  intros Htop unique_ids run.
  destruct (main_header _ _ run) as (? & ? & ? & ?). repeat (split; [done|]).
  intros i Hi. rewrite (main_items _ _ _ _ _ unique_ids run), list_lookup_fmap.
  destruct (SkillsIndex.items index !! i) as [item|] eqn:Hitem; [|done]. simpl.
  assert (item ∈ SkillsIndex.items index) as Hin by (by eapply list_elem_of_lookup_2).
  rewrite (patch_item _ _ _ unique_ids _ Hin). rewrite decide_False; [done|].
  intros [Hneeds _]. unfold needsFetch in Hneeds.
  apply list_elem_of_filter in Hneeds as [_ Hslice].
  apply slice_lookup in Hslice as (j & Hj & Hitem'); [|done].
  assert (i = j) as ->; [|lia].
  eapply NoDup_lookup; [exact unique_ids | |];
    rewrite list_lookup_fmap; [by rewrite Hitem | by rewrite Hitem'].
Qed.

(** X28: a second run with the same answers changes nothing: the items
    that got a description are not fetched again, and those that got none
    get none again. *)
Theorem enrichment_rerun index index' :
  0 < CONCURRENCY →
  NoDup (SkillIndexItem.id <$> SkillsIndex.items index) →
  main TOP_N CONCURRENCY fn index = Some index' →
  main TOP_N CONCURRENCY fn index' = Some index'.
Proof.
  intros Hk unique_ids run.
  pose proof (main_items _ _ _ _ _ unique_ids run) as Hitems.
  assert (∀ item', item' ∈ SkillsIndex.items index' →
            ¬ fetchedDescription TOP_N fn index' item') as Hnot.
  { intros item' _ [Hneeds Hfound]. unfold needsFetch in Hneeds.
    apply list_elem_of_filter in Hneeds as [Hnone Hslice].
    rewrite Hitems, slice_fmap in Hslice.
    apply list_elem_of_fmap in Hslice as (item & -> & Hslice).
    assert (item ∈ SkillsIndex.items index) as Hin
      by (eapply elem_of_sublist; [exact Hslice | apply slice_sublist]).
    rewrite (patch_item _ _ _ unique_ids _ Hin) in Hnone, Hfound.
    destruct (decide (fetchedDescription TOP_N fn index item)) as [[_ Hd]|Hno].
    - cbn [setDescription SkillIndexItem.description] in Hnone. congruence.
    - apply Hno. split; [|done]. unfold needsFetch. by apply list_elem_of_filter. }
  assert (NoDup (SkillIndexItem.id <$> SkillsIndex.items index')) as Hunique.
  { rewrite Hitems, <- list_fmap_compose.
    erewrite list_fmap_ext; [exact unique_ids|]. intros ? item _. apply patch_id. }
  unfold main. cbv zeta. rewrite processPool_entries.
  rewrite (proj2 (Z.leb_gt _ _) Hk). simpl. f_equal.
  rewrite JsMap_fromEntries_NoDup.
  2:{ rewrite <- list_fmap_compose. eapply sublist_NoDup; [exact Hunique|].
      apply fmap_sublist, needsFetch_sublist. }
  assert (patch ((λ item, (SkillIndexItem.id item, fn item)) <$> needsFetch TOP_N index')
            <$> SkillsIndex.items index' = SkillsIndex.items index') as ->.
  { rewrite <- (list_fmap_id (SkillsIndex.items index')) at 2.
    apply list_fmap_ext. intros i item' Hi.
    assert (item' ∈ SkillsIndex.items index') as Hin by (by eapply list_elem_of_lookup_2).
    rewrite (patch_item _ _ _ Hunique _ Hin). rewrite decide_False; [done|].
    by apply Hnot. }
  by destruct index'.
Qed.
End EnrichmentRun.

Section EnrichmentRunWitnesses.
Import JsString Spec FetchDescriptions Further.

Lemma sampleIndex_unique : NoDup (SkillIndexItem.id <$> SkillsIndex.items sampleIndex).
Proof.
  apply (bool_decide_unpack
           (NoDup (SkillIndexItem.id <$> SkillsIndex.items sampleIndex))).
  vm_compute. exact I.
Defined.

Lemma enrichment_throws_iff_witness :
  main 2000 0 (fetchSkillDescription sampleWorld) sampleIndex = None.
Proof.
  apply (enrichment_throws_iff 2000 0 (fetchSkillDescription sampleWorld) sampleIndex).
  split; [lia | vm_compute; discriminate].
Defined.

Lemma enrichment_outside_top_n_witness :
  ∃ index',
    main 1 8 (fetchSkillDescription sampleWorld) sampleIndex = Some index'
    ∧ SkillsIndex.items index' !! 2%nat = SkillsIndex.items sampleIndex !! 2%nat.
Proof.
  eexists. split; [vm_compute; reflexivity|].
  apply (enrichment_outside_top_n 1 8 (fetchSkillDescription sampleWorld) sampleIndex _
           ltac:(lia) sampleIndex_unique ltac:(vm_compute; reflexivity)).
  lia.
Defined.

Lemma enrichment_rerun_witness :
  ∃ index',
    main 2000 8 (fetchSkillDescription sampleWorld) sampleIndex = Some index'
    ∧ main 2000 8 (fetchSkillDescription sampleWorld) index' = Some index'.
Proof.
  eexists. split; [vm_compute; reflexivity|].
  apply (enrichment_rerun 2000 8 (fetchSkillDescription sampleWorld) sampleIndex _
           ltac:(lia) sampleIndex_unique ltac:(vm_compute; reflexivity)).
Defined.
End EnrichmentRunWitnesses.

(* ===================================================================== *)
(** * Further properties: the categorizer                                *)
(* ===================================================================== *)

Section IgnoreCase.
Import JsString RegExp Further.

Lemma canonicalize_idemp c : canonicalize (canonicalize c) = canonicalize c.
Proof.
  unfold canonicalize.
  destruct ((97 <=? c) && (c <=? 122))%N eqn:Hc; [|by rewrite Hc].
  apply andb_true_iff in Hc as [H1%N.leb_le H2%N.leb_le].
  rewrite (proj2 (N.leb_gt _ _)); [done | lia].
Qed.

Lemma isWordChar_canonicalize c : isWordChar (canonicalize c) = isWordChar c.
Proof.
  unfold canonicalize, isWordChar.
  destruct ((97 <=? c) && (c <=? 122))%N eqn:Hc; [|by rewrite Hc].
  pose proof Hc as [H1%N.leb_le H2%N.leb_le]%andb_true_iff.
  transitivity true.
  - by rewrite (proj2 (N.leb_le 65 (c - 32))), (proj2 (N.leb_le (c - 32) 90)) by lia.
  - symmetry. rewrite ?Hc, !orb_true_iff. left. left. by right.
Qed.

Lemma isLineTerminator_canonicalize c :
  isLineTerminator (canonicalize c) = isLineTerminator c.
Proof.
  unfold canonicalize, isLineTerminator.
  destruct ((97 <=? c) && (c <=? 122))%N eqn:Hc; [|done].
  apply andb_true_iff in Hc as [H1%N.leb_le H2%N.leb_le].
  rewrite !(proj2 (N.eqb_neq _ _)); [done | lia..].
Qed.

Lemma accepts_alike cs c c' :
  canonicalize c = canonicalize c' → accepts true cs c = accepts true cs c'.
Proof.
  intros Hc. destruct cs as [l|l|l|]; simpl.
  - by rewrite Hc.
  - by rewrite Hc.
  - by rewrite Hc.
  - by rewrite <- (isLineTerminator_canonicalize c), Hc, isLineTerminator_canonicalize.
Qed.

Lemma isWordChar_alike c c' :
  canonicalize c = canonicalize c' → isWordChar c = isWordChar c'.
Proof.
  intros Hc. by rewrite <- (isWordChar_canonicalize c), Hc, isWordChar_canonicalize.
Qed.

Lemma alike_sym p p' : alike p p' → alike p' p.
Proof. by intros [? ?]. Qed.

Lemma alike_rest p p' c s :
  alike p p' → rest p = c :: s →
  ∃ c' s', rest p' = c' :: s' ∧ canonicalize c = canonicalize c'
           ∧ canonicalize <$> s = canonicalize <$> s'.
Proof.
  intros [_ Hrest] Hp. rewrite Hp in Hrest.
  destruct (rest p') as [|c' s']; [done|]. injection Hrest as Hc Hs. eauto.
Qed.

Lemma alike_boundary p p' :
  alike p p' →
  xorb (wordBefore p) (wordAfter p) = xorb (wordBefore p') (wordAfter p').
Proof.
  intros [Hprev Hrest]. unfold wordBefore, wordAfter. f_equal.
  - destruct (prev p) as [c|], (prev p') as [c'|]; try done.
    injection Hprev as Hc. by apply isWordChar_alike.
  - destruct (rest p) as [|c s], (rest p') as [|c' s']; try done.
    injection Hrest as Hc _. by apply isWordChar_alike.
Qed.

(** With the [i] flag, a match in a text is a match in every text that
    differs from it in the case of letters only. *)
Lemma Matches_alike r p q p' :
  Matches true r p q → alike p p' → ∃ q', Matches true r p' q' ∧ alike q q'.
Proof.
  intros Hm. revert p'.
  induction Hm as [p|cs p c s Hp Hc|cs p c s Hp Hc|cs p|cs p c s Hp Hc
                   |cs p c s q Hp Hc Hq IH|p Hb
                   |r1 r2 p q t H1 IH1 H2 IH2|r1 r2 p q H1 IH1|r1 r2 p q H2 IH2
                   |r p q Hq IH]; intros p' Hp'.
  - exists p'. split; [constructor | done].
  - destruct (alike_rest _ _ _ _ Hp' Hp) as (c' & s' & Hrest & Hcc & Hss).
    exists (mkPos (Some c') s' (caps p')). split.
    + apply Matches_Chr; [done|]. by rewrite <- (accepts_alike cs c c').
    + split; simpl; [by rewrite Hcc | done].
  - destruct (alike_rest _ _ _ _ Hp' Hp) as (c' & s' & Hrest & Hcc & Hss).
    exists (mkPos (Some c') s' (caps p')). split.
    + apply Matches_Opt_one; [done|]. by rewrite <- (accepts_alike cs c c').
    + split; simpl; [by rewrite Hcc | done].
  - exists p'. split; [constructor | done].
  - destruct (alike_rest _ _ _ _ Hp' Hp) as (c' & s' & Hrest & Hcc & Hss).
    exists (mkPos (Some c') s' (caps p')). split.
    + apply Matches_Many1_one; [done|]. by rewrite <- (accepts_alike cs c c').
    + split; simpl; [by rewrite Hcc | done].
  - destruct (alike_rest _ _ _ _ Hp' Hp) as (c' & s' & Hrest & Hcc & Hss).
    destruct (IH (mkPos (Some c') s' (caps p'))) as (q' & Hq' & Hqq).
    { split; simpl; [by rewrite Hcc | done]. }
    exists q'. split; [|done].
    eapply Matches_Many1_more; [done | by rewrite <- (accepts_alike cs c c') | done].
  - exists p'. split; [|done]. constructor. by rewrite <- (alike_boundary p p').
  - destruct (IH1 _ Hp') as (q' & Hq' & Hqq). destruct (IH2 _ Hqq) as (t' & Ht' & Htt).
    exists t'. split; [by econstructor | done].
  - destruct (IH1 _ Hp') as (q' & Hq' & Hqq). exists q'. split; [by constructor | done].
  - destruct (IH2 _ Hp') as (q' & Hq' & Hqq). exists q'.
    split; [by apply Matches_Alt_r | done].
  - destruct (IH _ Hp') as (q' & Hq' & Hqq). eexists. split; [by constructor|].
    destruct Hqq. by split.
Qed.

Lemma test_alike_true r s s' :
  sameUpToCase s s' → test true r s = true → test true r s' = true.
Proof.
  unfold sameUpToCase. intros Hs (pre & suf & q & -> & Hq)%test_true.
  apply test_true.
  rewrite fmap_app in Hs. symmetry in Hs.
  apply fmap_app_inv in Hs as (pre' & suf' & Hpre & Hsuf & ->).
  destruct (Matches_alike _ _ _ (mkPos (last pre') suf' []) Hq) as (q' & Hq' & _).
  { split; simpl; [by rewrite <- !fmap_last, Hpre | done]. }
  by exists pre', suf', q'.
Qed.

Lemma test_alike r s s' : sameUpToCase s s' → test true r s = test true r s'.
Proof.
  intros Hs. destruct (test true r s) eqn:H1, (test true r s') eqn:H2; try done.
  - by rewrite (test_alike_true r s s' Hs H1) in H2.
  - by rewrite (test_alike_true r s' s (eq_sym Hs) H2) in H1.
Qed.
End IgnoreCase.

Section CategoryIndex.
Import JsString RegExp Categorize Further.

Lemma firstMatch_alike rules text text' :
  sameUpToCase text text' → firstMatch rules text = firstMatch rules text'.
Proof.
  intros Ht. induction rules as [|[category pattern] rules IH]; [done|]. simpl.
  by rewrite (test_alike pattern text text' Ht), IH.
Qed.

(** X29: the category of a skill does not depend on the case of the
    letters of its source, skillId and title (nor on its id). *)
Theorem categorize_ignores_case a b :
  sameUpToCase (SkillIndexItem.source a) (SkillIndexItem.source b) →
  sameUpToCase (SkillIndexItem.skillId a) (SkillIndexItem.skillId b) →
  sameUpToCase (SkillIndexItem.title a) (SkillIndexItem.title b) →
  categorize a = categorize b.
Proof.
  intros Hsource HskillId Htitle. apply firstMatch_alike.
  unfold sameUpToCase, searchText in *. rewrite !fmap_app. congruence.
Qed.

Lemma categorize_ignores_case_witness :
  categorize (titled "DOCKER ci Pipeline") = js "development-tools".
Proof.
  rewrite (categorize_ignores_case (titled "DOCKER ci Pipeline")
             (titled "docker ci pipeline"));
    [vm_compute; reflexivity | reflexivity | reflexivity | vm_compute; reflexivity].
Defined.

Lemma firstMatch_range rules text :
  firstMatch rules text ∈ rules.*1 ∨ firstMatch rules text = js "other".
Proof.
  induction rules as [|[category pattern] rules IH]; [by right|]. simpl.
  destruct (test true pattern text); [left; by left|].
  destruct IH as [IH|IH]; [left; by right | by right].
Qed.

Lemma skillToCategory_snoc now items item :
  skillToCategory (main now (items ++ [item]))
  = JsObject.assign (SkillIndexItem.id item) (categorize item)
      (skillToCategory (main now items)).
Proof. unfold main. cbn [skillToCategory]. by rewrite foldl_app. Qed.

(** X30: the category index maps exactly the ids of the items other than
    "__proto__", each to the category of the last item that bears it; an
    item whose id is "__proto__" leaves no entry, as the assignment to that
    key of a plain object stores nothing; and every category the index
    names is one of [primaryCategories] or "other". *)
Theorem category_index_map now items id :
  skillToCategory (main now items) !! id
  = (if decide (id = js "__proto__") then None
     else categorize <$> last (skillsWith id items))
  ∧ ∀ category, skillToCategory (main now items) !! id = Some category →
      category ∈ primaryCategories (main now items) ∨ category = js "other".
Proof.
  assert (skillToCategory (main now items) !! id
          = if decide (id = js "__proto__") then None
            else categorize <$> last (skillsWith id items)) as Hlookup.
  { induction items as [|item items IH] using rev_ind; [by case_decide|].
    rewrite skillToCategory_snoc. unfold JsObject.assign, skillsWith in *.
    rewrite filter_app.
    destruct (decide (SkillIndexItem.id item = js "__proto__")) as [Hproto|Hplain].
    - rewrite IH. destruct (decide (id = js "__proto__")) as [|Hid]; [done|].
      rewrite filter_cons_False, filter_nil, app_nil_r; [done|]. congruence.
    - destruct (decide (SkillIndexItem.id item = id)) as [<-|Hne].
      + rewrite lookup_insert_eq, filter_cons_True, filter_nil by done.
        rewrite decide_False by done. by rewrite last_snoc.
      + rewrite lookup_insert_ne, filter_cons_False, filter_nil, app_nil_r by done.
        done. }
  split; [done|]. intros category. rewrite Hlookup.
  destruct (decide (id = js "__proto__")); [done|].
  destruct (last (skillsWith id items)) as [item|]; [|done]. simpl.
  intros Hc. apply (inj Some) in Hc. subst category. apply firstMatch_range.
Qed.

Lemma category_index_map_witness :
  skillToCategory (main (js "2025-06-01") [titled "Docker"; protoItem; titled "Kanban board"])
  !! js "o/r/s"
  = Some (categorize (titled "Kanban board"))
  ∧ skillToCategory
      (main (js "2025-06-01") [titled "Docker"; protoItem; titled "Kanban board"])
    !! js "__proto__"
    = None.
Proof.
  split.
  - rewrite (proj1 (category_index_map (js "2025-06-01")
                      [titled "Docker"; protoItem; titled "Kanban board"] (js "o/r/s"))).
    vm_compute. reflexivity.
  - rewrite (proj1 (category_index_map (js "2025-06-01")
                      [titled "Docker"; protoItem; titled "Kanban board"]
                      (js "__proto__"))).
    vm_compute. reflexivity.
Defined.
End CategoryIndex.
